(** * LDAP directory service (twext.who.ldap._service)

    A shallow embedding of the connection pool, the scoped connection guard,
    the retrying executors, the record mapper, the record type resolver and
    the group membership resolver of [twext/who/ldap/_service.py], with the
    properties of its specification stated and proved over the embedding. *)

From Stdlib Require Import ZArith Lia String Ascii.
From stdpp Require Import base option list gmap strings pretty.

Open Scope string_scope.
Open Scope list_scope.
Open Scope nat_scope.
Set Warnings "-register-all".

(** * Python values used by the service *)

Module Py.

(** [list.index(x)]: position of the first occurrence; [None] stands for
    the [ValueError] raised when [x] is absent. *)
Fixpoint index {A} `{EqDecision A} (x : A) (l : list A) : option nat :=
  match l with
  | [] => None
  | y :: l' => if decide (y = x) then Some 0 else S <$> index x l'
  end.

(** [list.remove(x)]: drops the first occurrence; [None] stands for the
    [ValueError] raised when [x] is absent. *)
Fixpoint remove {A} `{EqDecision A} (x : A) (l : list A) : option (list A) :=
  match l with
  | [] => None
  | y :: l' => if decide (y = x) then Some l' else (y ::.) <$> remove x l'
  end.

(** [l[-n:]] for [n >= 0]: the last [n] items, the whole list when [n] is
    [0] (the slice [l[-0:]] is [l[0:]]) or exceeds the length. *)
Definition last_n {A} (n : nat) (l : list A) : list A :=
  match n with
  | 0 => l
  | _ => drop (length l - n) l
  end.

(** [s.lower()] on a byte string: the ASCII letters. *)
Definition lower_ascii (a : ascii) : ascii :=
  let n := nat_of_ascii a in
  if ((65 <=? n) && (n <=? 90))%nat then ascii_of_nat (n + 32) else a.

Fixpoint lower (s : string) : string :=
  match s with
  | EmptyString => EmptyString
  | String a s' => String (lower_ascii a) (lower s')
  end.

(** [s.split(sep)] for a one-character separator. *)
Fixpoint split (sep : ascii) (s : string) : list string :=
  match s with
  | EmptyString => [EmptyString]
  | String a s' =>
      if decide (a = sep) then EmptyString :: split sep s'
      else match split sep s' with
           | h :: t => String a h :: t
           | [] => [String a EmptyString]
           end
  end.

(** [sep in s] for a one-character [sep]. *)
Fixpoint contains (sep : ascii) (s : string) : bool :=
  match s with
  | EmptyString => false
  | String a s' => if decide (a = sep) then true else contains sep s'
  end.

(** [s.replace(old, new)] for a one-character [old]. *)
Fixpoint replace (old : ascii) (new : string) (s : string) : string :=
  match s with
  | EmptyString => EmptyString
  | String a s' =>
      if decide (a = old) then new +:+ replace old new s'
      else String a (replace old new s')
  end.

(** [s.strip()] restricted to blanks. *)
Fixpoint lstrip (s : string) : string :=
  match s with
  | String " " s' => lstrip s'
  | _ => s
  end.

Fixpoint rstrip (s : string) : string :=
  match s with
  | EmptyString => EmptyString
  | String a s' =>
      match rstrip s' with
      | EmptyString => if decide (a = " "%char) then EmptyString else String a EmptyString
      | r => String a r
      end
  end.

Definition strip (s : string) : string := rstrip (lstrip s).

End Py.

(** * Exceptions *)

(** The [ldap] library's exception classes the service names, and the rest. *)
Inductive ldap_error :=
| SERVER_DOWN
| INAPPROPRIATE_AUTH
| INVALID_CREDENTIALS
| INVALID_DN_SYNTAX
| CONSTRAINT_VIOLATION
| SIZELIMIT_EXCEEDED
| TIMELIMIT_EXCEEDED
| FILTER_ERROR
| NO_SUCH_OBJECT
| INVALID_SYNTAX
| DECODING_ERROR
| OTHER_LDAP_ERROR (code : nat).

Inductive exn :=
| LdapExc (e : ldap_error)
| LDAPQueryError (message : string) (ldapError : exn)
| LDAPConnectionError (message : string)
| LDAPBindAuthError (message : string) (ldapError : exn)
| LDAPConfigurationError (message : string)
| ValueError
| IndexError
| KeyError
| UnicodeDecodeError
| UnboundLocalError
| OtherException (name : string).

#[global] Instance ldap_error_eq_dec : EqDecision ldap_error.
Proof. solve_decision. Defined.

#[global] Instance exn_eq_dec : EqDecision exn.
Proof.
  intros x; induction x as [e|m x IH|m|m x IH|m| | | | | |n];
    intros [e'|m' x'|m'|m' x'|m'| | | | | |n'];
    try (right; discriminate); try (left; reflexivity).
  - destruct (decide (e = e')) as [->|]; [left|right]; congruence.
  - destruct (decide (m = m')) as [->|]; [|right; congruence].
    destruct (IH x') as [->|]; [left|right]; congruence.
  - destruct (decide (m = m')) as [->|]; [left|right]; congruence.
  - destruct (decide (m = m')) as [->|]; [|right; congruence].
    destruct (IH x') as [->|]; [left|right]; congruence.
  - destruct (decide (m = m')) as [->|]; [left|right]; congruence.
  - destruct (decide (n = n')) as [->|]; [left|right]; congruence.
Defined.

(** [except ldap.SERVER_DOWN] *)
Definition is_SERVER_DOWN (e : exn) : bool :=
  match e with LdapExc SERVER_DOWN => true | _ => false end.

(** * Connections, events and statistics *)

(** A connection object ([ldap.ldapobject.LDAPObject]) is known by its
    identity: the n-th object a pool makes is [n]. *)
Definition handle := nat.

Inductive Credentials :=
| UsernamePassword (username password : string)
| OtherCredentials (repr : string).

(** Calls handed to the thread pool by [deferToThreadPool]. *)
Inductive ThreadCall :=
| CallAuthenticate (dn password : string)
| CallRecordsFromQueryString (queryString : string) (recordTypes : list (option string))
| CallRecordWithDN (dn : string).

(** Log lines at info level and above. *)
Inductive LogLine :=
| LogActiveExceedsMax (pool : string) (active : Z) (max : nat)
| LogUnableToBind (pool username : string)
| LogThreadPoolOverflowing (qsize : nat)
| LogAccountLocked (dn : string)
| LogUnexpectedAuthError (error : exn) (dn : string)
| LogServerUnavailable
| LogRetrying
| LogTimeoutExceeded
| LogUnableToPerformQuery (query : string) (err : exn)
| LogInvalidSyntax (query : string) (err : exn)
| LogLDAPError (query : string) (err : exn)
| LogInvalidDNSyntax (dn : string)
| LogCantParseValue (name : string) (values : list string).

(** What a run leaves behind, oldest first: protocol operations, dispatches
    to the thread pool, and log lines. *)
Inductive Event :=
| EvInitialize (c : handle)
| EvStartTLS (c : handle)
| EvBind (c : handle) (dn password : string)
| EvSearch (c : handle) (base filter : string) (timeout sizelimit : Z)
| EvSearchDN (c : handle) (dn : string)
| EvDispatch (call : ThreadCall)
| EvTestStats (retryNumber : nat)
| EvLog (line : LogLine).

#[global] Instance LogLine_eq_dec : EqDecision LogLine.
Proof. solve_decision. Defined.
#[global] Instance ThreadCall_eq_dec : EqDecision ThreadCall.
Proof. solve_decision. Defined.
#[global] Instance Event_eq_dec : EqDecision Event.
Proof. solve_decision. Defined.

(** [ds.poolStats], a [collections.defaultdict(int)]. *)
Definition stat (stats : gmap string Z) (key : string) : Z :=
  default 0%Z (stats !! key).

Definition stat_incr (stats : gmap string Z) (key : string) : gmap string Z :=
  <[key := (stat stats key + 1)%Z]> stats.

(** * ConnectionPool *)

Record ConnectionPool := {
  poolName : string;
  credentials : option Credentials;
  connectionQueue : list handle;      (* Queue(): head is the next one out *)
  connections : list handle;
  activeCount : Z;
  connectionsCreated : nat;
  connectionMax : nat;
}.

Definition ConnectionPool_init (name : string) (creds : option Credentials)
    (max : nat) : ConnectionPool :=
  {| poolName := name; credentials := creds; connectionQueue := [];
     connections := []; activeCount := 0; connectionsCreated := 0;
     connectionMax := max |}.

Definition with_queue (q : list handle) (p : ConnectionPool) : ConnectionPool :=
  {| poolName := poolName p; credentials := credentials p; connectionQueue := q;
     connections := connections p; activeCount := activeCount p;
     connectionsCreated := connectionsCreated p; connectionMax := connectionMax p |}.

Definition with_connections (l : list handle) (p : ConnectionPool) : ConnectionPool :=
  {| poolName := poolName p; credentials := credentials p;
     connectionQueue := connectionQueue p;
     connections := l; activeCount := activeCount p;
     connectionsCreated := connectionsCreated p; connectionMax := connectionMax p |}.

Definition with_activeCount (a : Z) (p : ConnectionPool) : ConnectionPool :=
  {| poolName := poolName p; credentials := credentials p;
     connectionQueue := connectionQueue p;
     connections := connections p; activeCount := a;
     connectionsCreated := connectionsCreated p; connectionMax := connectionMax p |}.

Definition with_connectionsCreated (n : nat) (p : ConnectionPool) : ConnectionPool :=
  {| poolName := poolName p; credentials := credentials p;
     connectionQueue := connectionQueue p;
     connections := connections p; activeCount := activeCount p;
     connectionsCreated := n; connectionMax := connectionMax p |}.

(** [len(self.connections) - self.connectionQueue.qsize()] *)
Definition active_now (p : ConnectionPool) : Z :=
  (Z.of_nat (length (connections p)) - Z.of_nat (length (connectionQueue p)))%Z.

Definition key_slot (p : ConnectionPool) (i : nat) : string :=
  "connection-" +:+ poolName p +:+ "-" +:+ pretty i.
Definition key_of (p : ConnectionPool) (what : string) : string :=
  "connection-" +:+ poolName p +:+ "-" +:+ what.

(** The tail of [getConnection], once [connection] is in hand: slot counter,
    active gauge, high-water mark, and the defensive error line.  [inl] is
    the [ValueError] of [self.connections.index(connection)]. *)
Definition getConnection_account (stats : gmap string Z) (p : ConnectionPool)
    (connection : handle)
  : exn + (gmap string Z * ConnectionPool * list Event) :=
  match Py.index connection (connections p) with
  | None => inl ValueError
  | Some i =>
      let stats := stat_incr stats (key_slot p i) in
      let p := with_activeCount (active_now p) p in
      let stats := <[key_of p "active" := activeCount p]> stats in
      let stats :=
        <[key_of p "max" := Z.max (stat stats (key_of p "max")) (activeCount p)]> stats in
      let log :=
        if (Z.of_nat (connectionMax p) <? activeCount p)%Z
        then [EvLog (LogActiveExceedsMax (poolName p) (activeCount p) (connectionMax p))]
        else [] in
      inr (stats, p, log)
  end.

(** [returnConnection] *)
Definition returnConnection (stats : gmap string Z) (p : ConnectionPool)
    (connection : handle) : gmap string Z * ConnectionPool :=
  let p := with_queue (connectionQueue p ++ [connection]) p in
  let p := with_activeCount (active_now p) p in
  (<[key_of p "active" := activeCount p]> stats, p).

(** [failedConnection]; [inl] is the [ValueError] of
    [self.connections.remove(connection)], raised after the error counter
    was incremented. *)
Definition failedConnection (stats : gmap string Z) (p : ConnectionPool)
    (connection : handle) : (exn * gmap string Z) + (gmap string Z * ConnectionPool) :=
  let stats := stat_incr stats (key_of p "errors") in
  match Py.remove connection (connections p) with
  | None => inl (ValueError, stats)
  | Some l =>
      let p := with_connections l p in
      let p := with_activeCount (active_now p) p in
      inr (<[key_of p "active" := activeCount p]> stats, p)
  end.

(** [DirectoryService.Connection.__exit__]: back to the pool when the block
    raised nothing, out of the pool otherwise. *)
Definition Connection_exit (stats : gmap string Z) (p : ConnectionPool)
    (connection : handle) (exc_type : option exn)
  : (exn * gmap string Z) + (gmap string Z * ConnectionPool) :=
  match exc_type with
  | None => inr (returnConnection stats p connection)
  | Some _ => failedConnection stats p connection
  end.

(** * The pool under concurrent callers

    Worker threads run [with DirectoryService.Connection(...)] blocks against
    one pool.  Each thread is at one program point of [getConnection] or of
    the block; a step lets one thread run up to its next access to the pool's
    shared data.  What the step cannot know (whether [_connect] raises, how
    the block ends) comes with the step as a [choice]. *)

Module Threads.

Inductive pc :=
| Outside                 (* not in a block *)
| WantLock                (* queue.get(block=False) raised Empty *)
| HasLock                 (* connectionCreateLock acquired *)
| Connecting              (* len(connections) < connectionMax held; in _connect *)
| Connected (c : handle)  (* _connect returned c *)
| Waiting                 (* lock released; in the blocking queue.get() *)
| Got (c : handle)        (* connection in hand, before the counters *)
| Using (c : handle).     (* inside the with block *)

Inductive choice :=
| Completes
| Raises (e : exn)            (* the block raises; _newConnection raises *)
| RaisesInBind (e : exn).     (* the bind of _connect raises *)

(** [threading.RLock]: owner and recursion depth. *)
Definition RLock := option (nat * nat).

Definition RLock_acquire (t : nat) (l : RLock) : option RLock :=
  match l with
  | None => Some (Some (t, 1))
  | Some (owner, depth) =>
      if decide (owner = t) then Some (Some (t, S depth)) else None
  end.

(** [None] is the [RuntimeError] of releasing a lock one does not own. *)
Definition RLock_release (t : nat) (l : RLock) : option RLock :=
  match l with
  | Some (owner, depth) =>
      if decide (owner = t) then
        match depth with
        | 0 => None
        | 1 => Some None
        | S depth' => Some (Some (t, depth'))
        end
      else None
  | None => None
  end.

Record State := mkState {
  pool : ConnectionPool;
  poolStats : gmap string Z;
  connectionCreateLock : RLock;
  log : list Event;
  threads : list pc;
}.

Definition initial (name : string) (creds : option Credentials) (max nthreads : nat)
  : State :=
  mkState (ConnectionPool_init name creds max) ∅ None [] (replicate nthreads Outside).

Definition exc_type (c : choice) : option exn :=
  match c with
  | Completes => None
  | Raises e | RaisesInBind e => Some e
  end.

(** One step of thread [t]; [None] when the thread is blocked (on the lock,
    or on the empty queue) or does not exist. *)
Definition step (t : nat) (c : choice) (s : State) : option State :=
  let p := pool s in
  let at_ pc' := <[t := pc']> (threads s) in
  match threads s !! t with
  | None => None
  | Some Outside =>
      (* connection = self.connectionQueue.get(block=False) *)
      match connectionQueue p with
      | h :: q =>
          Some (mkState (with_queue q p) (poolStats s) (connectionCreateLock s)
                  (log s) (at_ (Got h)))
      | [] =>
          Some (mkState p (poolStats s) (connectionCreateLock s) (log s) (at_ WantLock))
      end
  | Some WantLock =>
      (* self.connectionCreateLock.acquire() *)
      match RLock_acquire t (connectionCreateLock s) with
      | Some l => Some (mkState p (poolStats s) l (log s) (at_ HasLock))
      | None => None
      end
  | Some HasLock =>
      (* if len(self.connections) < self.connectionMax *)
      if decide (length (connections p) < connectionMax p) then
        Some (mkState p (poolStats s) (connectionCreateLock s) (log s) (at_ Connecting))
      else
        match RLock_release t (connectionCreateLock s) with
        | Some l =>
            Some (mkState p (stat_incr (poolStats s) (key_of p "blocked")) l (log s)
                    (at_ Waiting))
        | None =>
            Some (mkState p (poolStats s) (connectionCreateLock s) (log s) (at_ Outside))
        end
  | Some Connecting =>
      (* connection = self._connect(); the lock stays held when it raises *)
      match c with
      | Completes =>
          Some (mkState (with_connectionsCreated (S (connectionsCreated p)) p)
                  (poolStats s) (connectionCreateLock s) (log s)
                  (at_ (Connected (connectionsCreated p))))
      | Raises _ =>
          Some (mkState p (poolStats s) (connectionCreateLock s) (log s) (at_ Outside))
      | RaisesInBind _ =>
          Some (mkState (with_connectionsCreated (S (connectionsCreated p)) p)
                  (poolStats s) (connectionCreateLock s) (log s) (at_ Outside))
      end
  | Some (Connected h) =>
      (* self.connections.append(connection); self.connectionCreateLock.release() *)
      let p' := with_connections (connections p ++ [h]) p in
      match RLock_release t (connectionCreateLock s) with
      | Some l => Some (mkState p' (poolStats s) l (log s) (at_ (Got h)))
      | None =>
          Some (mkState p' (poolStats s) (connectionCreateLock s) (log s) (at_ Outside))
      end
  | Some Waiting =>
      (* connection = self.connectionQueue.get() *)
      match connectionQueue p with
      | h :: q =>
          Some (mkState (with_queue q p) (poolStats s) (connectionCreateLock s)
                  (log s) (at_ (Got h)))
      | [] => None
      end
  | Some (Got h) =>
      match getConnection_account (poolStats s) p h with
      | inr (stats, p', lines) =>
          Some (mkState p' stats (connectionCreateLock s) (log s ++ lines) (at_ (Using h)))
      | inl _ =>
          Some (mkState p (poolStats s) (connectionCreateLock s) (log s) (at_ Outside))
      end
  | Some (Using h) =>
      (* Connection.__exit__ *)
      match Connection_exit (poolStats s) p h (exc_type c) with
      | inr (stats, p') =>
          Some (mkState p' stats (connectionCreateLock s) (log s) (at_ Outside))
      | inl (_, stats) =>
          Some (mkState p stats (connectionCreateLock s) (log s) (at_ Outside))
      end
  end.

(** A schedule names, step by step, the thread that runs and its choice. *)
Fixpoint run (schedule : list (nat * choice)) (s : State) : option State :=
  match schedule with
  | [] => Some s
  | (t, c) :: rest =>
      match step t c s with
      | Some s' => run rest s'
      | None => None
      end
  end.

(** The connection a thread has in hand. *)
Definition pc_handle (p : pc) : option handle :=
  match p with
  | Connected h | Got h | Using h => Some h
  | _ => None
  end.

(** The connections checked out of the pool, one per thread that has one. *)
Definition checkedOut (s : State) : list handle := omap pc_handle (threads s).

End Threads.

(** * Schemas, raw entries and records *)

Record RecordTypeSchema := {
  relativeDN : string;
  attributes : list (string * string);
}.

(** The [valueType] of a field name constant. *)
Inductive ValueType :=
| VT_unicode
| VT_UUID
| VT_bool
| VT_Names (constants : list string)
| VT_other (name : string).

(** A field name constant with what [valueType] and [isMultiValue] read
    from it. *)
Record FieldName := {
  fname : string;
  valueType : ValueType;
  multiValue : bool;
}.

#[global] Instance ValueType_eq_dec : EqDecision ValueType.
Proof. solve_decision. Defined.
#[global] Instance FieldName_eq_dec : EqDecision FieldName.
Proof. solve_decision. Defined.

Module BaseFieldName.
Definition uid := {| fname := "uid"; valueType := VT_unicode; multiValue := false |}.
Definition guid := {| fname := "guid"; valueType := VT_UUID; multiValue := false |}.
Definition shortNames :=
  {| fname := "shortNames"; valueType := VT_unicode; multiValue := true |}.
Definition fullNames :=
  {| fname := "fullNames"; valueType := VT_unicode; multiValue := true |}.
Definition emailAddresses :=
  {| fname := "emailAddresses"; valueType := VT_unicode; multiValue := true |}.
Definition password :=
  {| fname := "password"; valueType := VT_unicode; multiValue := false |}.
End BaseFieldName.

(** Keys of a record's field dictionary set by the mapper itself. *)
Definition fieldName_uid : string := "uid".
Definition fieldName_recordType : string := "recordType".
Definition fieldName_dn : string := "dn".
Definition fieldName_memberDNs : string := "memberDNs".

(** An attribute of a search result: one string, or a list of them. *)
Inductive RawValue :=
| RawOne (v : string)
| RawList (vs : list string).

Definition RawEntry : Type := string * gmap string RawValue.

(** [if not isinstance(values, list): values = [values]] *)
Definition as_list (values : RawValue) : list string :=
  match values with
  | RawOne v => [v]
  | RawList vs => vs
  end.

Inductive Scalar :=
| SText (s : string)
| SUUID (u : N).

Inductive FieldValue :=
| FOne (v : Scalar)
| FMany (vs : list Scalar)
| FBool (b : bool)
| FConstant (name : string).

#[global] Instance Scalar_eq_dec : EqDecision Scalar.
Proof. solve_decision. Defined.
#[global] Instance FieldValue_eq_dec : EqDecision FieldValue.
Proof. solve_decision. Defined.

(** An LDAP [DirectoryRecord]: the service is the one in context, the
    fields are the dictionary the mapper filled. *)
Record DirectoryRecord := { fields : gmap string FieldValue }.

Inductive MatchType := equals | startsWith | endsWith | contains.
Inductive Operand := AND | OR.

Inductive Expression :=
| MatchExpression (fieldName : FieldName) (fieldValue : string) (matchType : MatchType)
| ExistsExpression (fieldName : FieldName)
| BooleanExpression (fieldName : FieldName)
| CompoundExpression (expressions : list Expression) (operand : Operand).

(** One [(attribute, value, flags)] triple of a parsed DN. *)
Definition AVA : Type := string * string * Z.
Definition DN : Type := list (list AVA).

(** The configuration a [DirectoryService] is built with.  Dictionaries
    that the service iterates are lists in iteration order. *)
Record DirectoryService := {
  url : string;
  _baseDN : string;
  _credentials : option Credentials;
  _useTLS : bool;
  _extraFilters : option (gmap string string);
  _tries : nat;
  _fieldNameToAttributesMap : list (FieldName * list string);
  _recordTypeSchemas : list (string * RecordTypeSchema);
  recordType_names : list string;   (* the names in self.recordType *)
}.

(** What the service takes from python-ldap, the standard library and the
    sibling module [_util]. *)
Class Library := {
  (* ldap.dn.str2dn; None is ldap.DECODING_ERROR *)
  str2dn : string → option DN;
  (* ldap.dn.dn2str *)
  dn2str : DN → string;
  (* uuid.UUID(v); None is any exception it raises *)
  UUID : string → option N;
  (* unicode(v, "utf-8") and v.decode("utf-8"); None is UnicodeDecodeError *)
  utf8_decode : string → option string;
  (* _util.ldapQueryStringFromCompoundExpression *)
  ldapQueryStringFromCompoundExpression :
    list Expression → Operand → list (FieldName * list string) →
    list (string * RecordTypeSchema) → exn + string;
}.

(** [dict[key]] and [dict.get(key)] on a dictionary kept in iteration order. *)
Fixpoint assoc {A} (key : string) (d : list (string * A)) : option A :=
  match d with
  | [] => None
  | (k, v) :: d' => if decide (k = key) then Some v else assoc key d'
  end.

(** * Record type resolution *)

(** [dnContainedIn]: [child[-len(parent):] == parent] *)
Definition dnContainedIn (child parent : DN) : bool :=
  bool_decide (Py.last_n (length parent) child = parent).

Section resolver.
Context `{!Library}.

Fixpoint recordTypeForDN_loop (baseDN dn : DN)
    (recordTypeSchemas : list (string * RecordTypeSchema)) : exn + option string :=
  match recordTypeSchemas with
  | [] => inr None
  | (recordType, schema) :: rest =>
      match str2dn (Py.lower (relativeDN schema)) with
      | None => inl (LdapExc DECODING_ERROR)
      | Some rdn =>
          let combined := rdn ++ baseDN in
          if dnContainedIn dn combined then inr (Some recordType)
          else recordTypeForDN_loop baseDN dn rest
      end
  end.

Definition recordTypeForDN (baseDnStr : string)
    (recordTypeSchemas : list (string * RecordTypeSchema)) (dnStr : string)
  : exn + option string :=
  match str2dn (Py.lower dnStr) with
  | None => inl (LdapExc DECODING_ERROR)
  | Some dn =>
      match str2dn (Py.lower baseDnStr) with
      | None => inl (LdapExc DECODING_ERROR)
      | Some baseDN => recordTypeForDN_loop baseDN dn recordTypeSchemas
      end
  end.

(** The inner loop of [recordTypeForRecordData]: [true] when no pair breaks
    out, so that the [else] of the [for] is reached. *)
Fixpoint attributes_match (attrs : list (string * string))
    (recordData : gmap string RawValue) : bool :=
  match attrs with
  | [] => true
  | (attribute, value) :: rest =>
      match recordData !! attribute with
      | Some (RawList dataValue) =>
          if bool_decide (value ∈ dataValue) then attributes_match rest recordData
          else false
      | Some (RawOne dataValue) =>
          if bool_decide (value = dataValue) then attributes_match rest recordData
          else false
      | None => false     (* value != None *)
      end
  end.

Fixpoint recordTypeForRecordData (recordTypeSchemas : list (string * RecordTypeSchema))
    (recordData : gmap string RawValue) : option string :=
  match recordTypeSchemas with
  | [] => None
  | (recordType, schema) :: rest =>
      if attributes_match (attributes schema) recordData then Some recordType
      else recordTypeForRecordData rest recordData
  end.

End resolver.

(** * Record mapper *)

(** A computation that may log and may raise. *)
Definition Logged (A : Type) : Type := list Event * (exn + A).

Definition and_then {A B} (m : Logged A) (f : A → Logged B) : Logged B :=
  match m with
  | (lines, inl e) => (lines, inl e)
  | (lines, inr a) => let '(lines', r) := f a in (lines ++ lines', r)
  end.

Section mapper.
Context `{!Library} (ds : DirectoryService).

(** The store shared by the [unicode] and [UUID] branches. *)
Definition storeValues (fieldName : FieldName) (newValues : list Scalar)
    (fields : gmap string FieldValue) : exn + gmap string FieldValue :=
  if multiValue fieldName then
    match fields !! fname fieldName with
    | Some (FMany old) => inr (<[fname fieldName := FMany (old ++ newValues)]> fields)
    | Some _ => inl (OtherException "AttributeError")
    | None => inr (<[fname fieldName := FMany newValues]> fields)
    end
  else
    (* First one in the list wins *)
    match fields !! fname fieldName with
    | Some _ => inr fields
    | None =>
        match newValues with
        | v :: _ => inr (<[fname fieldName := FOne v]> fields)
        | [] => inl IndexError
        end
    end.

(** The body of [for attributeRule in attributeRules]. *)
Definition applyRule (fieldName : FieldName) (attributeRule : string)
    (recordData : gmap string RawValue) (fields : gmap string FieldValue)
  : Logged (gmap string FieldValue) :=
  let attributeName := hd "" (Py.split ":"%char attributeRule) in
  match recordData !! attributeName with
  | None => ([], inr fields)
  | Some raw =>
      let values := as_list raw in
      match valueType fieldName with
      | VT_unicode =>
          match mapM utf8_decode values with
          | None => ([], inl UnicodeDecodeError)
          | Some newValues => ([], storeValues fieldName (SText <$> newValues) fields)
          end
      | VT_UUID =>
          match mapM UUID values with
          | None =>
              (* log.warn("Can't parse value ..."); continue *)
              ([EvLog (LogCantParseValue (fname fieldName) values)], inr fields)
          | Some newValues => ([], storeValues fieldName (SUUID <$> newValues) fields)
          end
      | VT_bool =>
          let trueValue :=
            if Py.contains ":"%char attributeRule then
              match Py.split ":"%char attributeRule with
              | [_; trueValue] => Some trueValue
              | _ => None
              end
            else Some "true" in
          match trueValue with
          | None => ([], inl ValueError)
          | Some trueValue =>
              ([], inr (<[fname fieldName :=
                           FBool (bool_decide (trueValue ∈ values))]> fields))
          end
      | VT_Names constants =>
          match Py.split ":"%char attributeRule with
          | [_; attributeValue; fieldValue] =>
              if bool_decide (attributeValue ∈ values) then
                (* valueType.lookupByName(fieldValue); ValueError is passed over *)
                if bool_decide (fieldValue ∈ constants)
                then ([], inr (<[fname fieldName := FConstant fieldValue]> fields))
                else ([], inr fields)
              else ([], inr fields)
          | _ => ([], inl ValueError)
          end
      | VT_other name =>
          ([], inl (LDAPConfigurationError
                      ("Unknown value type " +:+ name +:+ " for field " +:+ fname fieldName)))
      end
  end.

Fixpoint applyRules (fieldName : FieldName) (attributeRules : list string)
    (recordData : gmap string RawValue) (fields : gmap string FieldValue)
  : Logged (gmap string FieldValue) :=
  match attributeRules with
  | [] => ([], inr fields)
  | attributeRule :: rest =>
      and_then (applyRule fieldName attributeRule recordData fields)
               (applyRules fieldName rest recordData)
  end.

(** [for fieldName, attributeRules in self._fieldNameToAttributesMap.iteritems()] *)
Fixpoint populateFields (map : list (FieldName * list string))
    (recordData : gmap string RawValue) (fields : gmap string FieldValue)
  : Logged (gmap string FieldValue) :=
  match map with
  | [] => ([], inr fields)
  | (fieldName, attributeRules) :: rest =>
      and_then (applyRules fieldName attributeRules recordData fields)
               (populateFields rest recordData)
  end.

(** "Determine the record type": the variable [recordType] on entry to the
    iteration, then by DN, then by attributes. *)
Definition resolveRecordType (recordType : option string) (dn : string)
    (recordData : gmap string RawValue) : exn + option string :=
  match recordType with
  | Some _ => inr recordType
  | None =>
      match recordTypeForDN (_baseDN ds) (_recordTypeSchemas ds) dn with
      | inl e => inl e
      | inr (Some recordType) => inr (Some recordType)
      | inr None => inr (recordTypeForRecordData (_recordTypeSchemas ds) recordData)
      end
  end.

(** One iteration of [for dn, recordData in reply]: the value [recordType]
    has afterwards, and the record appended, if one is. *)
Definition mapEntry (recordType : option string) (entry : RawEntry)
  : Logged (option string * option DirectoryRecord) :=
  let '(dn, recordData) := entry in
  match resolveRecordType recordType dn recordData with
  | inl e => ([], inl e)
  | inr None => ([], inr (None, None))
  | inr (Some recordType) =>
      and_then (populateFields (_fieldNameToAttributesMap ds) recordData ∅)
        (λ fields,
           (* Skip any results missing the uid, which is a required field *)
           match fields !! fieldName_uid with
           | None => ([], inr (Some recordType, None))
           | Some _ =>
               let fields := <[fieldName_recordType := FConstant recordType]> fields in
               match utf8_decode dn with
               | None => ([], inl UnicodeDecodeError)
               | Some dn' =>
                   let fields := <[fieldName_dn := FOne (SText dn')]> fields in
                   ([], inr (Some recordType, Some {| fields := fields |}))
               end
           end)
  end.

Fixpoint _recordsFromReply_loop (reply : list RawEntry) (recordType : option string)
    (records : list DirectoryRecord) : Logged (list DirectoryRecord) :=
  match reply with
  | [] => ([], inr records)
  | entry :: rest =>
      and_then (mapEntry recordType entry)
        (λ '(recordType, record),
           _recordsFromReply_loop rest recordType
             (records ++ match record with Some r => [r] | None => [] end))
  end.

Definition _recordsFromReply (reply : list RawEntry) (recordType : option string)
  : Logged (list DirectoryRecord) :=
  _recordsFromReply_loop reply recordType [].

End mapper.

(** * The service at run time *)

(** The keys of [self.connectionPools]. *)
Inductive PoolKey := query | auth.

Definition PoolKey_name (k : PoolKey) : string :=
  match k with query => "query" | auth => "auth" end.

(** What changes while the service runs. *)
Record World := mkWorld {
  queryPool : ConnectionPool;
  authPool : ConnectionPool;
  poolStats : gmap string Z;
  log : list Event;
}.

(** The state [__init__] leaves behind. *)
Definition World_init (ds : DirectoryService) (queryConnectionMax authConnectionMax : nat)
  : World :=
  mkWorld (ConnectionPool_init "query" (_credentials ds) queryConnectionMax)
          (ConnectionPool_init "auth" None authConnectionMax) ∅ [].

(** The outcome of a search through [ldap.async.List]: what was raised, if
    anything, and what had arrived in [allResults]. *)
Record SearchOutcome := {
  raised : option exn;
  allResults : list RawEntry;
}.

(** The directory server and the thread pool, as seen by the service: every
    answer may depend on all that happened before. *)
Record Server := {
  on_initialize : list Event → option exn;
  on_start_tls : list Event → option exn;
  on_simple_bind : list Event → handle → string → string → option exn;
  on_search : list Event → handle → string → string → Z → Z → SearchOutcome;
  on_search_s : list Event → handle → string → exn + list RawEntry;
  threadpool_qsize : list Event → nat;
}.

(** How a call ends: with a value, with an exception, or never (blocked on
    the pool's queue with no other thread to fill it). *)
Inductive Res (A : Type) :=
| Ok (a : A)
| Raise (e : exn)
| Hang.
Arguments Ok {A} a.
Arguments Raise {A} e.
Arguments Hang {A}.

Definition M (A : Type) : Type := World → Res A * World.

#[global] Instance M_ret : MRet M := λ A a w, (Ok a, w).
#[global] Instance M_bind : MBind M := λ A B f m w,
  match m w with
  | (Ok a, w') => f a w'
  | (Raise e, w') => (Raise e, w')
  | (Hang, w') => (Hang, w')
  end.

Definition raise {A} (e : exn) : M A := λ w, (Raise e, w).
Definition hang {A} : M A := λ w, (Hang, w).

(** [try: m except Exception as e: handler(e)] *)
Definition try_except {A} (m : M A) (handler : exn → M A) : M A := λ w,
  match m w with
  | (Raise e, w') => handler e w'
  | r => r
  end.

Definition emit (ev : Event) : M unit := λ w,
  (Ok (), mkWorld (queryPool w) (authPool w) (poolStats w) (log w ++ [ev])).

Definition emit_all (evs : list Event) : M unit := λ w,
  (Ok (), mkWorld (queryPool w) (authPool w) (poolStats w) (log w ++ evs)).

Definition history : M (list Event) := λ w, (Ok (log w), w).

Definition get_pool (k : PoolKey) : M ConnectionPool := λ w,
  (Ok (match k with query => queryPool w | auth => authPool w end), w).

Definition put_pool (k : PoolKey) (p : ConnectionPool) : M unit := λ w,
  (Ok (), match k with
          | query => mkWorld p (authPool w) (poolStats w) (log w)
          | auth => mkWorld (queryPool w) p (poolStats w) (log w)
          end).

Definition get_stats : M (gmap string Z) := λ w, (Ok (poolStats w), w).

Definition put_stats (stats : gmap string Z) : M unit := λ w,
  (Ok (), mkWorld (queryPool w) (authPool w) stats (log w)).

(** A pure step that may log and may raise, run in the service. *)
Definition logged {A} (m : Logged A) : M A :=
  emit_all m.1 ;;
  match m.2 with
  | inl e => raise e
  | inr a => mret a
  end.

Section pool.
Context (srv : Server) (ds : DirectoryService).

(** [connection.simple_bind_s(dn, password)] *)
Definition simple_bind_s (connection : handle) (dn password : string) : M unit :=
  h ← history;
  emit (EvBind connection dn password) ;;
  match on_simple_bind srv h connection dn password with
  | Some e => raise e
  | None => mret ()
  end.

(** [ConnectionPool._newConnection] *)
Definition _newConnection (k : PoolKey) : M handle :=
  p ← get_pool k;
  let connection := connectionsCreated p in
  h ← history;
  emit (EvInitialize connection) ;;
  match on_initialize srv h with
  | Some e => raise e
  | None =>
      (if _useTLS ds then
         h ← history;
         emit (EvStartTLS connection) ;;
         match on_start_tls srv h with
         | Some e => raise e
         | None => mret ()
         end
       else mret ()) ;;
      p ← get_pool k;
      put_pool k (with_connectionsCreated (connectionsCreated p + 1) p) ;;
      mret connection
  end.

(** [ConnectionPool._connect] *)
Definition _connect (k : PoolKey) : M handle :=
  connection ← _newConnection k;
  p ← get_pool k;
  match credentials p with
  | None => mret connection
  | Some (UsernamePassword username password) =>
      try_except (simple_bind_s connection username password)
        (λ e, match e with
              | LdapExc INVALID_CREDENTIALS | LdapExc INVALID_DN_SYNTAX =>
                  emit (EvLog (LogUnableToBind (poolName p) username)) ;;
                  raise (LDAPBindAuthError username e)
              | _ => raise e
              end) ;;
      mret connection
  | Some (OtherCredentials repr) =>
      raise (LDAPConnectionError ("Unknown credentials type: " +:+ repr))
  end.

(** [ConnectionPool.getConnection], for a thread that runs alone: where the
    source blocks on the queue, nothing can come and the call hangs. *)
Definition getConnection (k : PoolKey) : M handle :=
  p ← get_pool k;
  connection ←
    match connectionQueue p with
    | c :: q => put_pool k (with_queue q p) ;; mret c
    | [] =>
        if decide (length (connections p) < connectionMax p) then
          c ← _connect k;
          p ← get_pool k;
          put_pool k (with_connections (connections p ++ [c]) p) ;;
          mret c
        else
          stats ← get_stats;
          put_stats (stat_incr stats (key_of p "blocked")) ;;
          hang
    end;
  p ← get_pool k;
  stats ← get_stats;
  match getConnection_account stats p connection with
  | inl e => raise e
  | inr (stats, p, lines) =>
      put_stats stats ;; put_pool k p ;; emit_all lines ;; mret connection
  end.

(** [Connection.__exit__] after the block ended as [r]; the block's own
    outcome stands unless [failedConnection] raises. *)
Definition Connection___exit__ {A} (k : PoolKey) (connection : handle) (r : Res A)
  : M A :=
  match r with
  | Hang => hang
  | _ =>
      p ← get_pool k;
      stats ← get_stats;
      match Connection_exit stats p connection
              (match r with Raise e => Some e | _ => None end) with
      | inl (e, stats) => put_stats stats ;; raise e
      | inr (stats, p) =>
          put_stats stats ;; put_pool k p ;;
          match r with
          | Ok a => mret a
          | Raise e => raise e
          | Hang => hang
          end
      end
  end.

(** [with DirectoryService.Connection(self, poolName) as connection: body] *)
Definition with_Connection {A} (k : PoolKey) (body : handle → M A) : M A :=
  connection ← getConnection k;
  ((λ w, let '(r, w') := body connection w in Connection___exit__ k connection r w')
   : M A).

End pool.

(** * Retrying executors *)

(** How a suite inside a function ends when it does not raise: by running
    to its end, or by [return]. *)
Inductive Completion (A : Type) :=
| Normal
| Return (a : A).
Arguments Normal {A}.
Arguments Return {A} a.

(** [try: body  except ...: handler  else: orelse].  The [else] suite runs
    when the body reaches its end: not when it raises, not when it returns. *)
Definition try_except_else {A} (body : M (Completion A))
    (handler : exn → M (Completion A)) (orelse : M (Completion A))
  : M (Completion A) := λ w,
  match body w with
  | (Raise e, w') => handler e w'
  | (Ok Normal, w') => orelse w'
  | r => r
  end.

Definition log_line (line : LogLine) : M unit := emit (EvLog line).

Section executors.
Context `{!Library} (srv : Server) (ds : DirectoryService).

(** [deferToThreadPool(reactor, self.threadpool, f, ...)] followed by the
    look at the thread pool's queue; the call itself then runs in a worker. *)
Definition deferToThreadPool {A} (call : ThreadCall) (inThread : M A) : M A :=
  emit (EvDispatch call) ;;
  h ← history;
  let qsize := threadpool_qsize srv h in
  (if decide (0 < qsize) then
     log_line (LogThreadPoolOverflowing qsize) ;;
     stats ← get_stats;
     put_stats (stat_incr stats "connection-thread-blocked")
   else mret ()) ;;
  inThread.

(** The instrumentation argument [testStats]: absent, or a dictionary that
    may hold an exception under ["raise"]. *)
Definition TestStats : Type := option (option exn).

Definition testStats_retryNumber (testStats : TestStats) (retryNumber : nat) : M unit :=
  match testStats with
  | Some _ => emit (EvTestStats retryNumber)
  | None => mret ()
  end.

(** The [try] statement inside the [with] block of
    [_authenticateUsernamePassword_inThread]. *)
Definition authenticate_try (dn password : string) (testStats : TestStats)
    (connection : handle) : M (Completion bool) :=
  try_except_else
    ((match testStats with
      | Some (Some e) => raise e
      | _ => mret ()
      end) ;;
     simple_bind_s srv connection dn password ;;
     mret (Return true))
    (λ e,
       match e with
       | LdapExc INAPPROPRIATE_AUTH
       | LdapExc INVALID_CREDENTIALS
       | LdapExc INVALID_DN_SYNTAX => mret (Return false)
       | LdapExc CONSTRAINT_VIOLATION =>
           log_line (LogAccountLocked dn) ;; mret (Return false)
       | LdapExc SERVER_DOWN => raise e
       | _ => log_line (LogUnexpectedAuthError e dn) ;; mret (Return false)
       end)
    ((* Do an unauthenticated bind on this connection at the end *)
     simple_bind_s srv connection "" "" ;;
     mret Normal).

(** [for retryNumber in xrange(self._tries)], with [remaining] iterations
    to go. *)
Fixpoint authenticate_retry (remaining retryNumber : nat) (dn password : string)
    (testStats : TestStats) : M (option bool) :=
  match remaining with
  | 0 => mret None
  | S remaining' =>
      testStats_retryNumber testStats retryNumber ;;
      ((λ w,
         match with_Connection srv ds auth (authenticate_try dn password testStats) w with
         | (Ok (Return b), w') => (Ok (Some b), w')
         | (Ok Normal, w') =>
             authenticate_retry remaining' (S retryNumber) dn password testStats w'
         | (Raise e, w') =>
             if is_SERVER_DOWN e then
               (log_line LogServerUnavailable ;;
                if decide (retryNumber + 1 = _tries ds) then
                  (* We've hit SERVER_DOWN self._tries times, giving up. *)
                  raise (LDAPQueryError "LDAP server down" e)
                else
                  log_line LogRetrying ;;
                  authenticate_retry remaining' (S retryNumber) dn password testStats) w'
             else (Raise e, w')
         | (Hang, w') => (Hang, w')
         end) : M (option bool))
  end.

Definition _authenticateUsernamePassword_inThread (dn password : string)
    (testStats : TestStats) : M (option bool) :=
  authenticate_retry (_tries ds) 0 dn password testStats.

Definition _authenticateUsernamePassword (dn password : string) : M (option bool) :=
  deferToThreadPool (CallAuthenticate dn password)
    (_authenticateUsernamePassword_inThread dn password None).

Definition _addExtraFilter (recordType queryString : string) : string :=
  match _extraFilters ds with
  | Some extraFilters =>
      match extraFilters !! recordType with
      | Some extra =>
          if decide (extra = "") then queryString
          else "(&" +:+ extra +:+ queryString +:+ ")"
      | None => queryString
      end
  | None => queryString
  end.

Definition getPreferredRecordTypesOrder : list string :=
  filter (λ recordTypeName, recordTypeName ∈ recordType_names ds)
         ["user"; "location"; "resource"; "group"; "address"].

Definition append_log (evs : list Event) (w : World) : World :=
  mkWorld (queryPool w) (authPool w) (poolStats w) (log w ++ evs).

(** [for recordType in recordTypes] inside the [with] block of
    [_recordsFromQueryString_inThread].  The variables [limitResults] and
    [records] outlive an exception, so they are returned next to the way
    the loop ended. *)
Fixpoint query_recordTypes (connection : handle) (queryString : string)
    (timeoutSeconds : option Z) (recordTypes : list (option string))
    (limitResults : option Z) (records : list DirectoryRecord) (w : World)
  : (option Z * list DirectoryRecord * Res unit) * World :=
  match recordTypes with
  | [] => ((limitResults, records, Ok ()), w)
  | recordType :: rest =>
      if match limitResults with Some l => bool_decide (l < 1)%Z | None => false end
      then ((limitResults, records, Ok ()), w)                          (* break *)
      else
        match recordType ≫= (λ rt, (rt,.) <$> assoc rt (_recordTypeSchemas ds)) with
        | None =>
            (* Skip this unknown record type *)
            query_recordTypes connection queryString timeoutSeconds rest
              limitResults records w
        | Some (recordType, schema) =>
            match str2dn (Py.lower (relativeDN schema)), str2dn (Py.lower (_baseDN ds)) with
            | Some rdn, Some base =>
                let rdn := rdn ++ base in
                let filteredQuery := _addExtraFilter recordType queryString in
                let timeout :=
                  match timeoutSeconds with
                  | Some t => if decide (t = 0%Z) then (-1)%Z else t
                  | None => (-1)%Z
                  end in
                let sizelimit := default 0%Z limitResults in
                let outcome :=
                  on_search srv (log w) connection (dn2str rdn) filteredQuery
                    timeout sizelimit in
                let w :=
                  append_log [EvSearch connection (dn2str rdn) filteredQuery
                                timeout sizelimit] w in
                let next w :=
                  query_recordTypes connection queryString timeoutSeconds rest
                    limitResults records w in
                let proceed w :=
                  match logged (_recordsFromReply ds (allResults outcome) (Some recordType)) w
                  with
                  | (Ok newRecords, w) =>
                      query_recordTypes connection queryString timeoutSeconds rest
                        ((λ l, l - Z.of_nat (length newRecords))%Z <$> limitResults)
                        (records ++ newRecords) w
                  | (Raise e, w) => ((limitResults, records, Raise e), w)
                  | (Hang, w) => ((limitResults, records, Hang), w)
                  end in
                match raised outcome with
                | None => proceed w
                | Some e =>
                    match e with
                    | LdapExc SIZELIMIT_EXCEEDED => proceed w
                    | LdapExc TIMELIMIT_EXCEEDED =>
                        proceed (append_log [EvLog LogTimeoutExceeded] w)
                    | LdapExc FILTER_ERROR =>
                        ((limitResults, records,
                          Raise (LDAPQueryError "Unable to perform query" e)),
                         append_log [EvLog (LogUnableToPerformQuery queryString e)] w)
                    | LdapExc NO_SUCH_OBJECT => next w
                    | LdapExc INVALID_SYNTAX =>
                        next (append_log [EvLog (LogInvalidSyntax queryString e)] w)
                    | LdapExc SERVER_DOWN =>
                        (* Catch this below for retry *)
                        ((limitResults, records, Raise e), w)
                    | _ =>
                        ((limitResults, records,
                          Raise (LDAPQueryError "Unable to perform query" e)),
                         append_log [EvLog (LogLDAPError queryString e)] w)
                    end
                end
            | _, _ => ((limitResults, records, Raise (LdapExc DECODING_ERROR)), w)
            end
        end
  end.

(** The retry loop of [_recordsFromQueryString_inThread] and what follows
    it.  [records] is [None] while the variable is unbound. *)
Fixpoint query_retry (remaining retryNumber : nat) (queryString : string)
    (recordTypes : list (option string)) (timeoutSeconds : option Z)
    (testStats : TestStats) (limitResults : option Z)
    (records : option (list DirectoryRecord)) (w : World)
  : Res (list DirectoryRecord) * World :=
  match remaining with
  | 0 =>
      match records with
      | Some records => (Ok records, w)
      | None => (Raise UnboundLocalError, w)
      end
  | S remaining' =>
      let w := (testStats_retryNumber testStats retryNumber w).2 in
      let on_raise e limitResults records w :=
        if is_SERVER_DOWN e then
          let w := append_log [EvLog LogServerUnavailable] w in
          if decide (retryNumber + 1 = _tries ds) then
            (Raise (LDAPQueryError "LDAP server down" e), w)
          else
            query_retry remaining' (S retryNumber) queryString recordTypes
              timeoutSeconds testStats limitResults (Some records)
              (append_log [EvLog LogRetrying] w)
        else (Raise e, w) in
      match getConnection srv ds query w with
      | (Ok connection, w) =>
          let '((limitResults, records, r), w) :=
            query_recordTypes connection queryString timeoutSeconds recordTypes
              limitResults [] w in
          match Connection___exit__ query connection r w with
          | (Ok _, w) => (Ok records, w)                                (* break *)
          | (Raise e, w) => on_raise e limitResults records w
          | (Hang, w) => (Hang, w)
          end
      | (Raise e, w) => on_raise e limitResults [] w
      | (Hang, w) => (Hang, w)
      end
  end.

Definition _recordsFromQueryString_inThread (queryString : string)
    (recordTypes : option (list (option string))) (limitResults timeoutSeconds : option Z)
    (testStats : TestStats) : M (list DirectoryRecord) :=
  let recordTypes :=
    match recordTypes with
    | Some recordTypes => recordTypes
    | None => Some <$> getPreferredRecordTypesOrder
    end in
  query_retry (_tries ds) 0 queryString recordTypes timeoutSeconds testStats
    limitResults None.

Definition _recordsFromQueryString (queryString : string)
    (recordTypes : option (list (option string))) (limitResults timeoutSeconds : option Z)
  : M (list DirectoryRecord) :=
  deferToThreadPool
    (CallRecordsFromQueryString queryString (default [] recordTypes))
    (_recordsFromQueryString_inThread queryString recordTypes limitResults
       timeoutSeconds None).

(** The [try] statement inside the [with] block of [_recordWithDN_inThread]. *)
Definition recordWithDN_try (dn : string) (connection : handle)
  : M (list DirectoryRecord) :=
  h ← history;
  emit (EvSearchDN connection dn) ;;
  match on_search_s srv h connection dn with
  | inr reply => logged (_recordsFromReply ds reply None)
  | inl (LdapExc NO_SUCH_OBJECT) => mret []
  | inl (LdapExc INVALID_DN_SYNTAX) => log_line (LogInvalidDNSyntax dn) ;; mret []
  | inl e => raise e
  end.

Fixpoint recordWithDN_retry (remaining retryNumber : nat) (dn : string)
    (testStats : TestStats) (records : list DirectoryRecord)
  : M (option DirectoryRecord) :=
  match remaining with
  | 0 => mret (head records)
  | S remaining' =>
      testStats_retryNumber testStats retryNumber ;;
      ((λ w,
         match with_Connection srv ds query (recordWithDN_try dn) w with
         | (Ok records, w') => (Ok (head records), w')                  (* break *)
         | (Raise e, w') =>
             if is_SERVER_DOWN e then
               (log_line LogServerUnavailable ;;
                if decide (retryNumber + 1 = _tries ds) then
                  raise (LDAPQueryError "LDAP server down" e)
                else
                  log_line LogRetrying ;;
                  recordWithDN_retry remaining' (S retryNumber) dn testStats records) w'
             else (Raise e, w')
         | (Hang, w') => (Hang, w')
         end) : M (option DirectoryRecord))
  end.

Definition _recordWithDN_inThread (dn : string) (testStats : TestStats)
  : M (option DirectoryRecord) :=
  recordWithDN_retry (_tries ds) 0 dn testStats [].

Definition _recordWithDN (dn : string) : M (option DirectoryRecord) :=
  deferToThreadPool (CallRecordWithDN dn) (_recordWithDN_inThread dn None).

(** [recordsFromCompoundExpression]; [succeed(())] is the empty result. *)
Definition recordsFromCompoundExpression (expressions : list Expression)
    (operand : Operand) (recordTypes : option (list (option string)))
    (limitResults timeoutSeconds : option Z) : M (list DirectoryRecord) :=
  match expressions with
  | [] => mret []
  | _ =>
      match ldapQueryStringFromCompoundExpression expressions operand
              (_fieldNameToAttributesMap ds) (_recordTypeSchemas ds) with
      | inl e => raise e
      | inr queryString =>
          _recordsFromQueryString queryString recordTypes limitResults timeoutSeconds
      end
  end.

End executors.

(** * Group membership *)

(** [splitIntoBatches]: the lists the generator yields.  The [while] loop
    is run for at most [fuel] rounds; [None] when [data] is not used up by
    then (with [size] zero it never is). *)
Fixpoint splitIntoBatches_while {A} (fuel : nat) (data : list A) (size : nat)
  : option (list (list A)) :=
  match data with
  | [] => Some []
  | _ =>
      match fuel with
      | 0 => None
      | S fuel' => (take size data ::.) <$> splitIntoBatches_while fuel' (drop size data) size
      end
  end.

Definition splitIntoBatches {A} (data : list A) (size : nat) : option (list (list A)) :=
  (match data with [] => ([[]] ++.) | _ => id end)
    <$> splitIntoBatches_while (length data) data size.

(** [d.setdefault(key, []).append(x)] on a dictionary kept in insertion
    order. *)
Fixpoint setdefault_append {K A} `{EqDecision K} (key : K) (x : A)
    (d : list (K * list A)) : list (K * list A) :=
  match d with
  | [] => [(key, [x])]
  | (k, l) :: d' =>
      if decide (k = key) then (k, l ++ [x]) :: d'
      else (k, l) :: setdefault_append key x d'
  end.

(** [reverseDict]: keys and values reversed, for a mapping given in
    iteration order. *)
Definition reverseDict {K V} `{Countable V} (source : list (K * list V))
  : gmap V (list K) :=
  foldl (λ new '(key, values),
           foldl (λ new value, <[value := default [] (new !! value) ++ [key]]> new)
                 new values)
        ∅ source.

Section membership.
Context `{!Library} (srv : Server) (ds : DirectoryService).

(** [self._attributeToFieldNameMap], as [__init__] builds it. *)
Definition _attributeToFieldNameMap : gmap string (list FieldName) :=
  foldl (λ m '(name, attributes),
           foldl (λ m attribute,
                    let attribute :=
                      if Py.contains ":"%char attribute
                      then hd "" (Py.split ":"%char attribute) else attribute in
                    <[attribute := default [] (m !! attribute) ++ [name]]> m)
                 m attributes)
        ∅ (_fieldNameToAttributesMap ds).

(** The [try] suite of the scan over [memberDNs]: the record type key and
    the [(fieldName, value)] pair, or [None] when anything is raised. *)
Definition member_fieldValue (dnStr : string)
  : option (option string * (FieldName * string)) :=
  match recordTypeForDN (_baseDN ds) (_recordTypeSchemas ds) dnStr with
  | inl _ => None
  | inr recordType =>
      match str2dn (Py.lower dnStr) with
      | Some (((attrName, value, _) :: _) :: _) =>
          match _attributeToFieldNameMap !! attrName with
          | Some (fieldName :: _) => Some (recordType, (fieldName, value))
          | _ => None
          end
      | _ => None
      end
  end.

Fixpoint members_scan (memberDNs : list string)
    (fieldValuesByRecordType : list (option string * list (FieldName * string)))
    (faultByDN : list string)
  : list (option string * list (FieldName * string)) * list string :=
  match memberDNs with
  | [] => (fieldValuesByRecordType, faultByDN)
  | dnStr :: rest =>
      match member_fieldValue dnStr with
      | Some (recordType, fv) =>
          members_scan rest (setdefault_append recordType fv fieldValuesByRecordType)
            faultByDN
      | None => members_scan rest fieldValuesByRecordType (faultByDN ++ [dnStr])
      end
  end.

(** [for batch in splitIntoBatches(matchExpressions, 500)] *)
Fixpoint members_batches (recordType : option string) (batches : list (list Expression))
    (members : list (option DirectoryRecord)) : M (list (option DirectoryRecord)) :=
  match batches with
  | [] => mret members
  | batch :: rest =>
      records ← recordsFromCompoundExpression srv ds batch OR (Some [recordType]) None None;
      members_batches recordType rest (members ++ (Some <$> records))
  end.

(** [for recordType, fieldValue in fieldValuesByRecordType.iteritems()] *)
Fixpoint members_byRecordType
    (fieldValuesByRecordType : list (option string * list (FieldName * string)))
    (members : list (option DirectoryRecord)) : M (list (option DirectoryRecord)) :=
  match fieldValuesByRecordType with
  | [] => mret members
  | (recordType, fieldValue) :: rest =>
      members ←
        match fieldValue with
        | [] => mret members
        | _ =>
            match mapM (λ '(fieldName, value),
                          (λ v, MatchExpression fieldName v equals) <$> utf8_decode value)
                       fieldValue with
            | None => raise UnicodeDecodeError
            | Some matchExpressions =>
                match splitIntoBatches matchExpressions 500 with
                | Some batches => members_batches recordType batches members
                | None => hang
                end
            end
        end;
      members_byRecordType rest members
  end.

(** [for dnStr in faultByDN] *)
Fixpoint members_faultByDN (faultByDN : list string)
    (members : list (option DirectoryRecord)) : M (list (option DirectoryRecord)) :=
  match faultByDN with
  | [] => mret members
  | dnStr :: rest =>
      record ← _recordWithDN srv ds (Py.replace "+"%char "\+" dnStr);
      members_faultByDN rest (members ++ [record])
  end.

(** [getattr(self, "memberDNs", [])] *)
Definition memberDNs (record : DirectoryRecord) : list string :=
  match fields record !! fieldName_memberDNs with
  | Some (FMany vs) => omap (λ v, match v with SText s => Some s | SUUID _ => None end) vs
  | _ => []
  end.

(** [DirectoryRecord.members]; the set [members] is kept as the list of
    what was added to it. *)
Definition members (record : DirectoryRecord) : M (list (option DirectoryRecord)) :=
  if decide (fields record !! fieldName_recordType = Some (FConstant "group")) then
    let '(fieldValuesByRecordType, faultByDN) := members_scan (memberDNs record) [] [] in
    members ← members_byRecordType fieldValuesByRecordType [];
    members_faultByDN faultByDN members
  else mret [].

End membership.

(** * A library and a configuration to run the definitions on *)

Module Sample.

(** DN strings without escapes or quoting: components at [","], values of
    a multi-valued component at ["+"], blanks around names and values
    dropped, flags 1. *)
Definition parse_ava (s : string) : option AVA :=
  match Py.split "="%char s with
  | attr :: v :: vs =>
      Some (Py.strip attr,
            Py.strip (foldl (λ acc x, acc +:+ "=" +:+ x) v vs), 1%Z)
  | _ => None
  end.

Definition parse_dn (s : string) : option DN :=
  match s with
  | "" => Some []
  | _ => mapM (λ rdn, mapM parse_ava (Py.split "+"%char rdn)) (Py.split ","%char s)
  end.

Fixpoint join (sep : string) (l : list string) : string :=
  match l with
  | [] => ""
  | [x] => x
  | x :: l' => x +:+ sep +:+ join sep l'
  end.

Definition print_dn (dn : DN) : string :=
  join "," ((λ rdn, join "+" ((λ '(a, v, _), a +:+ "=" +:+ v) <$> rdn)) <$> dn).

Definition hex_digit (a : ascii) : option N :=
  let n := nat_of_ascii a in
  if ((48 <=? n) && (n <=? 57))%nat then Some (N.of_nat (n - 48))
  else if ((97 <=? n) && (n <=? 102))%nat then Some (N.of_nat (n - 87))
  else if ((65 <=? n) && (n <=? 70))%nat then Some (N.of_nat (n - 55))
  else None.

Fixpoint hex_value (acc : N) (s : string) : option N :=
  match s with
  | EmptyString => Some acc
  | String a s' =>
      match hex_digit a with
      | Some d => hex_value (16 * acc + d)%N s'
      | None => None
      end
  end.

(** 32 hexadecimal digits, hyphens allowed between them. *)
Definition parse_uuid (s : string) : option N :=
  let hex := Py.replace "-"%char "" s in
  if decide (String.length hex = 32) then hex_value 0%N hex else None.

(** Bytes below 128 only. *)
Fixpoint decode_ascii (s : string) : option string :=
  match s with
  | EmptyString => Some EmptyString
  | String a s' =>
      if (nat_of_ascii a <? 128)%nat then String a <$> decode_ascii s' else None
  end.

#[global] Instance library : Library := {|
  str2dn := parse_dn;
  dn2str := print_dn;
  UUID := parse_uuid;
  utf8_decode := decode_ascii;
  ldapQueryStringFromCompoundExpression := λ expressions operand _ _,
    inr ("(" +:+ (match operand with AND => "&" | OR => "|" end) +:+
         pretty (length expressions) +:+ ")");
|}.

Definition user_schema : RecordTypeSchema :=
  {| relativeDN := "ou=person"; attributes := [("objectClass", "inetOrgPerson")] |}.
Definition group_schema : RecordTypeSchema :=
  {| relativeDN := "ou=groupOfNames"; attributes := [("objectClass", "groupOfNames")] |}.

Definition service : DirectoryService := {|
  url := "ldap://localhost";
  _baseDN := "dc=example,dc=com";
  _credentials := None;
  _useTLS := false;
  _extraFilters := None;
  _tries := 3;
  _fieldNameToAttributesMap :=
    [(BaseFieldName.uid, ["entryuuid"]);
     (BaseFieldName.guid, ["guid"]);
     (BaseFieldName.shortNames, ["uid"]);
     (BaseFieldName.fullNames, ["cn"]);
     (BaseFieldName.emailAddresses, ["mail"])];
  _recordTypeSchemas := [("user", user_schema); ("group", group_schema)];
  recordType_names := ["user"; "group"];
|}.

(** A server that is down for every bind and every search. *)
Definition server_down : Server := {|
  on_initialize := λ _, None;
  on_start_tls := λ _, None;
  on_simple_bind := λ _ _ _ _, Some (LdapExc SERVER_DOWN);
  on_search := λ _ _ _ _ _ _,
    {| raised := Some (LdapExc SERVER_DOWN); allResults := [] |};
  on_search_s := λ _ _ _, inl (LdapExc SERVER_DOWN);
  threadpool_qsize := λ _, 0;
|}.

(** A server that accepts every bind and finds nothing. *)
Definition server_up : Server := {|
  on_initialize := λ _, None;
  on_start_tls := λ _, None;
  on_simple_bind := λ _ _ _ _, None;
  on_search := λ _ _ _ _ _ _, {| raised := None; allResults := [] |};
  on_search_s := λ _ _ _, inl (LdapExc NO_SUCH_OBJECT);
  threadpool_qsize := λ _, 0;
|}.

Definition world : World := World_init service 5 5.

Definition bob : RawEntry :=
  ("uid=bob,ou=person,dc=example,dc=com",
   <["entryuuid" := RawOne "b0b"]> {["uid" := RawList ["bob"]]}).

(** An entry without the attribute the [uid] field is read from. *)
Definition nobody : RawEntry :=
  ("cn=nobody,ou=person,dc=example,dc=com", {["cn" := RawOne "Nobody"]}).

(** The service binding as an account of its own. *)
Definition service_bound : DirectoryService := {|
  url := url service;
  _baseDN := _baseDN service;
  _credentials := Some (UsernamePassword "cn=service,dc=example,dc=com" "wrong");
  _useTLS := false;
  _extraFilters := None;
  _tries := _tries service;
  _fieldNameToAttributesMap := _fieldNameToAttributesMap service;
  _recordTypeSchemas := _recordTypeSchemas service;
  recordType_names := recordType_names service;
|}.

(** A server that refuses every bind and finds nothing. *)
Definition server_refusing : Server := {|
  on_initialize := λ _, None;
  on_start_tls := λ _, None;
  on_simple_bind := λ _ _ _ _, Some (LdapExc INVALID_CREDENTIALS);
  on_search := λ _ _ _ _ _ _, {| raised := None; allResults := [] |};
  on_search_s := λ _ _ _, inl (LdapExc NO_SUCH_OBJECT);
  threadpool_qsize := λ _, 0;
|}.

(** A server that answers every search with the entry [bob]. *)
Definition server_bob : Server := {|
  on_initialize := λ _, None;
  on_start_tls := λ _, None;
  on_simple_bind := λ _ _ _ _, None;
  on_search := λ _ _ _ _ _ _, {| raised := None; allResults := [bob] |};
  on_search_s := λ _ _ _, inr [bob];
  threadpool_qsize := λ _, 0;
|}.

(** An entry whose common name is not UTF-8. *)
Definition garbled : RawEntry :=
  ("uid=x,ou=person,dc=example,dc=com",
   <["entryuuid" := RawOne "c0de"]> {["cn" := RawOne (String "200"%char "")]}).

(** An entry under the relative DN of groups. *)
Definition staff : RawEntry :=
  ("cn=staff,ou=groupofnames,dc=example,dc=com",
   <["entryuuid" := RawOne "57aff"]> {["cn" := RawOne "Staff"]}).


(** A group whose member is not a DN. *)
Definition broken_group : DirectoryRecord :=
  {| fields := <[fieldName_recordType := FConstant "group"]>
                 {[fieldName_memberDNs := FMany [SText "nonsense"]]} |}.


(** The service configured without a single try. *)
Definition service_no_tries : DirectoryService := {|
  url := url service;
  _baseDN := _baseDN service;
  _credentials := None;
  _useTLS := false;
  _extraFilters := None;
  _tries := 0;
  _fieldNameToAttributesMap := _fieldNameToAttributesMap service;
  _recordTypeSchemas := _recordTypeSchemas service;
  recordType_names := recordType_names service;
|}.

End Sample.

(** * What holds of the pool in every reachable state *)

Module PoolInvariant.
Import Threads.

(** The connection a thread took from the pool's list of connections. *)
Definition tracked (p : pc) : option handle :=
  match p with
  | Got h | Using h => Some h
  | _ => None
  end.

(** The connection a thread made and has not yet appended. *)
Definition pending (p : pc) : option handle :=
  match p with
  | Connected h => Some h
  | _ => None
  end.

(** Between [connectionCreateLock.acquire()] and the matching release. *)
Definition in_critical (p : pc) : bool :=
  match p with
  | HasLock | Connecting | Connected _ => true
  | _ => false
  end.

(** Past the test [len(self.connections) < self.connectionMax]. *)
Definition building (p : pc) : bool :=
  match p with
  | Connecting | Connected _ => true
  | _ => false
  end.

Record Inv (s : State) : Prop := {
  inv_nodup : NoDup (omap tracked (threads s) ++ connectionQueue (pool s));
  inv_sub : ∀ h, h ∈ omap tracked (threads s) ++ connectionQueue (pool s) →
                 h ∈ connections (pool s);
  inv_conns : NoDup (connections (pool s));
  inv_max : (length (connections (pool s)) ≤ connectionMax (pool s))%nat;
  inv_owner : ∀ t p, threads s !! t = Some p → in_critical p = true →
                     ∃ depth, connectionCreateLock s = Some (t, S depth);
  inv_room : ∀ t p, threads s !! t = Some p → building p = true →
                    length (connections (pool s)) < connectionMax (pool s);
  inv_fresh : ∀ h, h ∈ connections (pool s) → h < connectionsCreated (pool s);
  inv_pending : ∀ t h, threads s !! t = Some (Connected h) →
                       h < connectionsCreated (pool s) ∧ h ∉ connections (pool s);
}.

(** Connection [h] is out of the pool for good. *)
Record Gone (h : handle) (s : State) : Prop := {
  gone_old : h < connectionsCreated (pool s);
  gone_connections : h ∉ connections (pool s);
  gone_queue : h ∉ connectionQueue (pool s);
  gone_threads : h ∉ checkedOut s;
}.

(** The creation lock is owned by thread [t], once more than its
    critical section accounts for: a release is missing. *)
Definition Leaked (t : nat) (s : State) : Prop :=
  ∃ depth, connectionCreateLock s = Some (t, S depth)
           ∧ ∀ p, threads s !! t = Some p → in_critical p = true → 1 ≤ depth.

End PoolInvariant.

(** * Notions the properties are stated with *)

(** The coerced field map of an entry has a [uid]. *)
Definition has_uid `{!Library} (ds : DirectoryService) (entry : RawEntry) : bool :=
  match (populateFields (_fieldNameToAttributesMap ds) entry.2 ∅).2 with
  | inr fields => bool_decide (is_Some (fields !! fieldName_uid))
  | inl _ => false
  end.

(** The body of the loop over attribute rules as the specification words
    it for unique identifiers: a value that fails to coerce is logged and
    skipped, the remaining values of the rule are still coerced. *)
Definition applyRule_per_value `{!Library} (fieldName : FieldName)
    (attributeRule : string) (recordData : gmap string RawValue)
    (fields : gmap string FieldValue) : Logged (gmap string FieldValue) :=
  let attributeName := hd "" (Py.split ":"%char attributeRule) in
  match recordData !! attributeName, valueType fieldName with
  | Some raw, VT_UUID =>
      let values := as_list raw in
      let failed := filter (λ v, UUID v = None) values in
      ((λ v, EvLog (LogCantParseValue (fname fieldName) [v])) <$> failed,
       match omap UUID values with
       | [] => inr fields
       | newValues => storeValues fieldName (SUUID <$> newValues) fields
       end)
  | _, _ => applyRule fieldName attributeRule recordData fields
  end.

(** Where the type attached to a record comes from: the caller, or the
    resolver run on an entry of the reply. *)
Definition type_source `{!Library} (ds : DirectoryService) (reply : list RawEntry)
    (recordType : option string) (resolved : string) : Prop :=
  recordType = Some resolved
  ∨ ∃ dn recordData, (dn, recordData) ∈ reply
      ∧ resolveRecordType ds None dn recordData = inr (Some resolved).

(** How often a line was logged. *)
Definition count_line (line : LogLine) (events : list Event) : nat :=
  length (filter (λ ev, ev = EvLog line) events).

(** The retries of a run: its "LDAP connection failure; retrying..." lines. *)
Definition retries (events : list Event) : nat := count_line LogRetrying events.

(** The transient failures a run observed: its "LDAP server unavailable"
    lines, one per [ldap.SERVER_DOWN] caught by the retry loop. *)
Definition transientFailures (events : list Event) : nat :=
  count_line LogServerUnavailable events.

(** One [(attribute, value)] pair of a schema holds of an entry: the
    attribute is there and is, or has among its values, the value. *)
Definition attribute_satisfied (recordData : gmap string RawValue)
    (pair : string * string) : Prop :=
  match recordData !! pair.1 with
  | Some (RawList dataValue) => pair.2 ∈ dataValue
  | Some (RawOne dataValue) => pair.2 = dataValue
  | None => False
  end.

(** An entry with a value that is not UTF-8 under an attribute that a rule
    of a text field reads. *)
Definition undecodable `{!Library} (ds : DirectoryService)
    (recordData : gmap string RawValue) : Prop :=
  ∃ fieldName attributeRules attributeRule raw v,
    (fieldName, attributeRules) ∈ _fieldNameToAttributesMap ds
    ∧ attributeRule ∈ attributeRules
    ∧ valueType fieldName = VT_unicode
    ∧ recordData !! hd "" (Py.split ":"%char attributeRule) = Some raw
    ∧ v ∈ as_list raw
    ∧ utf8_decode v = None.

(** [ds.connectionPools[poolName]] *)
Definition pool_of (k : PoolKey) (w : World) : ConnectionPool :=
  match k with query => queryPool w | auth => authPool w end.

(** The server returns no more entries than the size limit of a search
    asks for. *)
Definition honours_sizelimit (srv : Server) : Prop :=
  ∀ h c base filter timeout sizelimit,
    (0 < sizelimit)%Z →
    (Z.of_nat (length (allResults (on_search srv h c base filter timeout sizelimit)))
     ≤ sizelimit)%Z.

(** The events that are searches of the directory. *)
Definition is_search (ev : Event) : bool :=
  match ev with
  | EvSearch _ _ _ _ _ | EvSearchDN _ _ => true
  | _ => false
  end.

(** The events that are binds. *)
Definition is_bind (ev : Event) : bool :=
  match ev with EvBind _ _ _ => true | _ => false end.

(** A pool that binds as nobody can make a connection for the next
    caller: nothing is idle, and its list is not full. *)
Definition can_connect (p : ConnectionPool) : Prop :=
  credentials p = None
  ∧ connectionQueue p = []
  ∧ length (connections p) < connectionMax p.

(** The server lets connections be set up and answers every bind as [dn]
    with [ldap.SERVER_DOWN]. *)
Definition down_for (srv : Server) (dn password : string) : Prop :=
  (∀ h, on_initialize srv h = None)
  ∧ (∀ h, on_start_tls srv h = None)
  ∧ (∀ h c, on_simple_bind srv h c dn password = Some (LdapExc SERVER_DOWN)).

(** The events a connection is set up with. *)
Definition is_setup (ev : Event) : bool :=
  match ev with EvInitialize _ | EvStartTLS _ => true | _ => false end.

(** The server lets connections be set up and answers every search with
    [ldap.SERVER_DOWN]. *)
Definition down_for_searches (srv : Server) : Prop :=
  (∀ h, on_initialize srv h = None)
  ∧ (∀ h, on_start_tls srv h = None)
  ∧ (∀ h c base filter timeout sizelimit,
       raised (on_search srv h c base filter timeout sizelimit)
       = Some (LdapExc SERVER_DOWN))
  ∧ (∀ h c dn, on_search_s srv h c dn = inl (LdapExc SERVER_DOWN)).

(** * Proofs *)

(** ** Lists and Python list methods *)

Section list_facts.
Context {A B : Type}.

Lemma omap_insert_split (f : A → option B) (l : list A) (i : nat) (x : A) :
  l !! i = Some x →
  ∃ rest, omap f l ≡ₚ option_list (f x) ++ rest
          ∧ ∀ y, omap f (<[i:=y]> l) ≡ₚ option_list (f y) ++ rest.
Proof.
  intros Hi. exists (omap f (take i l) ++ omap f (drop (S i) l)).
  assert (i < length l) by (eapply lookup_lt_Some; eauto).
  split.
  - rewrite <- (take_drop_middle l i x Hi) at 1.
    rewrite !omap_app. simpl.
    destruct (f x); simpl; [by rewrite <- Permutation_middle|done].
  - intros y. rewrite insert_take_drop by done.
    rewrite !omap_app. simpl.
    destruct (f y); simpl; [by rewrite <- Permutation_middle|done].
Qed.

Lemma omap_insert_same (f : A → option B) (l : list A) (i : nat) (x y : A) :
  l !! i = Some x → f x = f y → omap f (<[i:=y]> l) = omap f l.
Proof.
  intros Hi Hf.
  assert (i < length l) by (eapply lookup_lt_Some; eauto).
  rewrite insert_take_drop by done.
  rewrite <- (take_drop_middle l i x Hi) at 3.
  rewrite !omap_app. simpl. by rewrite Hf.
Qed.

Lemma omap_nil_of_lookup (f : A → option B) (l : list A) :
  (∀ i x, l !! i = Some x → f x = None) → omap f l = [].
Proof.
  induction l as [|a l IH]; intros H; [done|].
  simpl. rewrite (H 0 a eq_refl). apply IH. intros i x Hx. apply (H (S i) x Hx).
Qed.

Lemma omap_length_le_1 (f : A → option B) (l : list A) :
  (∀ i j x y, l !! i = Some x → l !! j = Some y →
              is_Some (f x) → is_Some (f y) → i = j) →
  (length (omap f l) ≤ 1)%nat.
Proof.
  induction l as [|a l IH]; intros H; [simpl; lia|].
  simpl. destruct (f a) eqn:Ha.
  - rewrite omap_nil_of_lookup; [simpl; lia|].
    intros i x Hx. destruct (f x) eqn:Hfx; [|done].
    specialize (H 0 (S i) a x eq_refl Hx). rewrite Ha, Hfx in H.
    assert (0 = S i) by (apply H; eauto). lia.
  - apply IH. intros i j x y Hx Hy Hfx Hfy.
    specialize (H (S i) (S j) x y Hx Hy Hfx Hfy). lia.
Qed.

Lemma elem_of_omap_lookup (f : A → option B) (l : list A) (b : B) :
  b ∈ omap f l ↔ ∃ i x, l !! i = Some x ∧ f x = Some b.
Proof.
  rewrite list_elem_of_omap. split.
  - intros (x & Hx & ?). apply list_elem_of_lookup in Hx as [i ?]. eauto.
  - intros (i & x & Hx & ?). exists x. split; [|done]. eapply list_elem_of_lookup; eauto.
Qed.

End list_facts.

Lemma remove_Some {A} `{EqDecision A} (x : A) (l l' : list A) :
  Py.remove x l = Some l' → l ≡ₚ x :: l'.
Proof.
  revert l'. induction l as [|y l IH]; intros l'; simpl; [done|].
  case_decide as Hy.
  - intros [= <-]. by subst.
  - destruct (Py.remove x l) as [l0|]; simpl; [|done].
    intros [= <-]. rewrite (IH l0 eq_refl). apply perm_swap.
Qed.

Lemma remove_None {A} `{EqDecision A} (x : A) (l : list A) :
  Py.remove x l = None → x ∉ l.
Proof.
  induction l as [|y l IH]; simpl; [intros _; apply not_elem_of_nil|].
  case_decide; [done|].
  destruct (Py.remove x l); simpl; [done|].
  intros _. apply not_elem_of_cons. split; [congruence|auto].
Qed.

Lemma index_None {A} `{EqDecision A} (x : A) (l : list A) :
  Py.index x l = None → x ∉ l.
Proof.
  induction l as [|y l IH]; simpl; [intros _; apply not_elem_of_nil|].
  case_decide; [done|].
  destruct (Py.index x l); simpl; [done|].
  intros _. apply not_elem_of_cons. split; [congruence|auto].
Qed.

(** ** The pool under concurrent callers *)

Module PoolProofs.
Import Threads PoolInvariant.

Lemma lookup_at (l : list pc) (t t' : nat) (p q : pc) :
  <[t:=p]> l !! t' = Some q → (t' = t ∧ q = p) ∨ (t' ≠ t ∧ l !! t' = Some q).
Proof. rewrite list_lookup_insert_Some. naive_solver. Qed.

Lemma release_owned t d l :
  RLock_release t (Some (t, S d)) = Some l →
  l = None ∨ ∃ d', l = Some (t, S d').
Proof.
  unfold RLock_release. rewrite decide_True by done.
  destruct d; intros ?; simplify_eq; eauto.
Qed.

Lemma release_owned_Some t d : is_Some (RLock_release t (Some (t, S d))).
Proof. unfold RLock_release. rewrite decide_True by done. destruct d; eauto. Qed.

Lemma acquire_Some t l l' :
  RLock_acquire t l = Some l' →
  (l = None ∨ ∃ d, l = Some (t, d)) ∧ ∃ d, l' = Some (t, S d).
Proof.
  unfold RLock_acquire. destruct l as [[o d]|].
  - case_decide; [|done]. intros ?; simplify_eq. eauto.
  - intros ?; simplify_eq. eauto.
Qed.

Lemma Inv_initial name creds max n : Inv (initial name creds max n).
Proof.
  assert (∀ i p, replicate n Outside !! i = Some p → p = Outside) as Hrep.
  { intros i p Hp. apply lookup_replicate in Hp. tauto. }
  assert (omap tracked (replicate n Outside) = []) as Hnil.
  { apply omap_nil_of_lookup. intros i p Hp. by rewrite (Hrep i p Hp). }
  split; simpl; rewrite ?Hnil; simpl.
  - constructor.
  - intros h Hh. by apply not_elem_of_nil in Hh.
  - constructor.
  - lia.
  - intros t p Hp. by rewrite (Hrep t p Hp).
  - intros t p Hp. by rewrite (Hrep t p Hp).
  - intros h Hh. by apply not_elem_of_nil in Hh.
  - intros t h Hp. by apply Hrep in Hp.
Qed.

Ltac other_thread Hq :=
  apply lookup_at in Hq as [[? ?]|[? Hq]]; simplify_eq.

Ltac thread_goal :=
  let t' := fresh "t'" in let q := fresh "q" in let Hq := fresh "Hq" in
  intros t' q Hq; other_thread Hq; simpl in *; try done; eauto.

Ltac start_inv Hnew :=
  split; simpl; try setoid_rewrite Hnew; simpl; eauto; try thread_goal.

Lemma building_critical p : building p = true → in_critical p = true.
Proof. by destruct p. Qed.

(** While [t] owns the lock, or can take it, no other thread is between
    acquire and release. *)
Lemma alone_in_critical s t :
  (∀ t p, threads s !! t = Some p → in_critical p = true →
          ∃ depth, connectionCreateLock s = Some (t, S depth)) →
  (connectionCreateLock s = None ∨ ∃ d, connectionCreateLock s = Some (t, d)) →
  ∀ t' q, t' ≠ t → threads s !! t' = Some q → in_critical q = false.
Proof.
  intros Hown Hl t' q Hne Hq. destruct (in_critical q) eqn:Hc; [|done].
  destruct (Hown _ _ Hq Hc) as [d' Hd']. rewrite Hd' in Hl.
  destruct Hl as [|[d ?]]; simplify_eq.
Qed.

Lemma Inv_step t c s s' : Inv s → step t c s = Some s' → Inv s'.
Proof.
  intros [Hnd Hsub Hcn Hmax Hown Hroom Hfresh Hpend].
  unfold step. destruct (threads s !! t) as [p|] eqn:Ht; [|done].
  destruct (omap_insert_split tracked _ _ _ Ht) as (rest & Hold & Hnew).
  rewrite Hold in Hnd. setoid_rewrite Hold in Hsub.
  destruct p; simpl in *.
  - (* Outside *)
    destruct (connectionQueue (pool s)) as [|h q] eqn:Hq; intros [= <-].
    + start_inv Hnew; rewrite ?Hq; eauto.
    + start_inv Hnew.
      * by rewrite Permutation_middle.
      * intros h'. rewrite (Permutation_middle rest q h). apply Hsub.
  - (* WantLock *)
    destruct (RLock_acquire t (connectionCreateLock s)) as [l|] eqn:Hl; intros [= <-].
    apply acquire_Some in Hl as [Hl [d ->]].
    pose proof (alone_in_critical s t Hown Hl) as Hexcl.
    start_inv Hnew.
    intros Hc. by rewrite (Hexcl _ _ H Hq) in Hc.
  - (* HasLock *)
    destruct (Hown _ _ Ht eq_refl) as [d Hd].
    pose proof (alone_in_critical s t Hown (or_intror (ex_intro _ _ Hd))) as Hexcl.
    case_decide as Hlen.
    + intros [= <-]. start_inv Hnew.
    + rewrite Hd. destruct (release_owned_Some t d) as [l Hl]. rewrite Hl.
      intros [= <-]. start_inv Hnew.
      intros Hc. by rewrite (Hexcl _ _ H Hq) in Hc.
  - (* Connecting *)
    destruct (Hown _ _ Ht eq_refl) as [d Hd].
    pose proof (alone_in_critical s t Hown (or_intror (ex_intro _ _ Hd))) as Hexcl.
    destruct c; intros [= <-].
    + start_inv Hnew.
      * intros h Hh. apply Hfresh in Hh. lia.
      * split; [lia|]. intros Hh. apply Hfresh in Hh. lia.
      * by specialize (Hexcl _ _ H Hq).
    + start_inv Hnew.
    + start_inv Hnew.
      * intros h Hh. apply Hfresh in Hh. lia.
      * by specialize (Hexcl _ _ H Hq).
  - (* Connected *)
    destruct (Hown _ _ Ht eq_refl) as [d Hd].
    pose proof (alone_in_critical s t Hown (or_intror (ex_intro _ _ Hd))) as Hexcl.
    destruct (Hpend _ _ Ht) as [Hc1 Hc2].
    pose proof (Hroom _ _ Ht eq_refl) as Hlt.
    rewrite Hd. destruct (release_owned_Some t d) as [l Hl]. rewrite Hl.
    intros [= <-]. start_inv Hnew.
    + apply NoDup_cons. split; [|done]. intros Hin. apply Hc2. by apply Hsub.
    + intros h Hin. apply elem_of_app.
      apply elem_of_cons in Hin as [->|Hin];
        [right; apply list_elem_of_here|left; by apply Hsub].
    + apply NoDup_app. split_and!; [done| |apply NoDup_singleton].
      intros h Hin ->%list_elem_of_singleton. done.
    + rewrite length_app. simpl. lia.
    + intros Hc. by rewrite (Hexcl _ _ H Hq) in Hc.
    + intros Hc. apply building_critical in Hc. by rewrite (Hexcl _ _ H Hq) in Hc.
    + intros h [?| ->%list_elem_of_singleton]%elem_of_app; eauto.
    + by specialize (Hexcl _ _ H Hq).
  - (* Waiting *)
    destruct (connectionQueue (pool s)) as [|h q] eqn:Hq; intros [= <-].
    start_inv Hnew.
    + by rewrite Permutation_middle.
    + intros h'. rewrite (Permutation_middle rest q h). apply Hsub.
  - (* Got *)
    unfold getConnection_account.
    destruct (Py.index c0 (connections (pool s))); intros [= <-].
    + start_inv Hnew.
    + start_inv Hnew.
      * by apply NoDup_cons in Hnd as [_ ?].
      * intros h Hh. apply Hsub. by right.
  - (* Using *)
    unfold Connection_exit, returnConnection, failedConnection.
    destruct (exc_type c) as [e|].
    + destruct (Py.remove c0 (connections (pool s))) as [l|] eqn:Hrm; intros [= <-].
      * apply remove_Some in Hrm.
        apply NoDup_cons in Hnd as [Hnot Hnd].
        assert (∀ x, x ∈ l → x ∈ connections (pool s)) as Hl.
        { intros x Hx. rewrite Hrm. by right. }
        assert (length (connections (pool s)) = S (length l)) as Hlen.
        { by rewrite Hrm. }
        rewrite Hrm in Hcn. apply NoDup_cons in Hcn as [Hcl Hcn].
        start_inv Hnew.
        -- intros h Hh. assert (h ∈ connections (pool s)) as Hin by (apply Hsub; by right).
           rewrite Hrm in Hin. apply elem_of_cons in Hin as [->|]; done.
        -- lia.
        -- intros Hb. specialize (Hroom _ _ Hq Hb). lia.
        -- destruct (Hpend _ _ Hq). split; [done|]. eauto.
      * start_inv Hnew.
        -- by apply NoDup_cons in Hnd as [_ ?].
        -- intros h Hh. apply Hsub. by right.
    + intros [= <-]. start_inv Hnew.
      * rewrite app_assoc. rewrite <- Permutation_cons_append. done.
      * intros h. rewrite app_assoc.
        intros [?| ->%list_elem_of_singleton]%elem_of_app; apply Hsub;
          [by right|by left].
Qed.

Lemma Inv_run schedule : ∀ s s', Inv s → run schedule s = Some s' → Inv s'.
Proof.
  induction schedule as [|[t c] rest IH]; intros s s' Hs; simpl.
  - by intros [= <-].
  - destruct (step t c s) as [s1|] eqn:Hstep; [|done].
    apply IH. by eapply Inv_step.
Qed.

Lemma step_connectionMax t c s s' :
  step t c s = Some s' → connectionMax (pool s') = connectionMax (pool s).
Proof.
  unfold step, getConnection_account, Connection_exit, returnConnection,
    failedConnection.
  intros Hs. repeat case_match; simplify_eq; done.
Qed.

Lemma run_connectionMax schedule : ∀ s s',
  run schedule s = Some s' → connectionMax (pool s') = connectionMax (pool s).
Proof.
  induction schedule as [|[t c] rest IH]; intros s s'; simpl.
  - by intros [= <-].
  - destruct (step t c s) as [s1|] eqn:Hstep; [|done].
    intros Hr. rewrite (IH _ _ Hr). by eapply step_connectionMax.
Qed.

Lemma checkedOut_length (l : list pc) :
  length (omap pc_handle l) = length (omap tracked l) + length (omap pending l).
Proof.
  induction l as [|p l IH]; [done|].
  destruct p; simpl; unfold omap in IH; lia.
Qed.

Lemma pending_building p h : pending p = Some h → p = Connected h.
Proof. destruct p; simpl; congruence. Qed.

(** At most one thread has made a connection it has yet to append, and
    only while the list of connections is below the maximum. *)
Lemma pending_bound s :
  Inv s →
  length (omap pending (threads s)) ≤ 1
  ∧ (omap pending (threads s) ≠ [] →
     length (connections (pool s)) < connectionMax (pool s)).
Proof.
  intros [Hnd Hsub Hcn Hmax Hown Hroom Hfresh Hpend]. split.
  - apply omap_length_le_1. intros i j x y Hx Hy [hx Hfx] [hy Hfy].
    apply pending_building in Hfx as ->. apply pending_building in Hfy as ->.
    destruct (Hown _ _ Hx eq_refl) as [d1 H1].
    destruct (Hown _ _ Hy eq_refl) as [d2 H2]. congruence.
  - intros Hne. destruct (omap pending (threads s)) as [|h l] eqn:Hp; [done|].
    assert (h ∈ omap pending (threads s)) as Hin by (rewrite Hp; left).
    apply elem_of_omap_lookup in Hin as (i & x & Hx & Hfx).
    apply pending_building in Hfx as ->. by apply (Hroom _ _ Hx).
Qed.

Lemma tracked_bound s :
  Inv s →
  length (omap tracked (threads s)) + length (connectionQueue (pool s))
  ≤ length (connections (pool s)).
Proof.
  intros [Hnd Hsub Hcn Hmax Hown Hroom Hfresh Hpend].
  rewrite <- length_app. apply submseteq_length. by apply NoDup_submseteq.
Qed.

Lemma checkedOut_bound s :
  Inv s → length (checkedOut s) ≤ connectionMax (pool s).
Proof.
  intros Hs. unfold checkedOut. rewrite checkedOut_length.
  pose proof (tracked_bound s Hs) as Ht.
  destruct (pending_bound s Hs) as [Hp1 Hp2].
  pose proof (inv_max s Hs) as Hmax.
  destruct (omap pending (threads s)) as [|h l] eqn:Hp; simpl in *; [lia|].
  assert (length (connections (pool s)) < connectionMax (pool s)) by (by apply Hp2).
  lia.
Qed.

Lemma reachable_Inv name creds N T schedule s :
  run schedule (initial name creds N T) = Some s →
  Inv s ∧ connectionMax (pool s) = N.
Proof.
  intros Hr. split.
  - eapply Inv_run; [apply Inv_initial|done].
  - by rewrite (run_connectionMax _ _ _ Hr).
Qed.

Lemma no_pending_while_checking s t :
  Inv s → threads s !! t = Some Connecting → omap pending (threads s) = [].
Proof.
  intros Hs Ht. apply omap_nil_of_lookup. intros i x Hx.
  destruct (pending x) as [h|] eqn:Hp; [|done].
  apply pending_building in Hp as ->.
  destruct (inv_owner s Hs _ _ Hx eq_refl) as [d1 H1].
  destruct (inv_owner s Hs _ _ Ht eq_refl) as [d2 H2].
  congruence.
Qed.

(** C1.  In every state the pool reaches from its initial state with
    maximum [N], under any schedule of any number of threads: at most [N]
    connections are checked out; a thread entering [getConnection] while a
    connection is idle takes the head of the queue in that very step; a
    thread holding the creation lock goes on to create exactly when fewer
    than [N] connections are in the pool's list, and otherwise waits on the
    queue; whoever is creating holds the lock and sees fewer than [N]
    connections; a thread waiting on the empty queue cannot move (only a
    return fills the queue); and while [N] connections are checked out no
    step gives a connection to a thread that has none. *)
Theorem pool_never_exceeds_max name creds N T schedule s :
  run schedule (initial name creds N T) = Some s →
  length (checkedOut s) ≤ N
  ∧ (∀ t c h q,
       threads s !! t = Some Outside → connectionQueue (pool s) = h :: q →
       ∃ s', step t c s = Some s' ∧ threads s' !! t = Some (Got h)
             ∧ connectionQueue (pool s') = q)
  ∧ (∀ t c s',
       threads s !! t = Some HasLock → step t c s = Some s' →
       threads s' !! t =
         Some (if decide (length (connections (pool s)) < N) then Connecting else Waiting))
  ∧ (∀ t p,
       threads s !! t = Some p → building p = true →
       (∃ depth, connectionCreateLock s = Some (t, S depth))
       ∧ length (connections (pool s)) < N)
  ∧ (∀ t c,
       threads s !! t = Some Waiting → connectionQueue (pool s) = [] →
       step t c s = None)
  ∧ (length (checkedOut s) = N →
     ∀ t c s', step t c s = Some s' →
     ∀ t' p p', threads s !! t' = Some p → threads s' !! t' = Some p' →
                pc_handle p = None → pc_handle p' = None).
Proof.
  intros Hr. destruct (reachable_Inv _ _ _ _ _ _ Hr) as [Hs HN].
  pose proof (checkedOut_bound s Hs) as Hbound.
  pose proof (tracked_bound s Hs) as Htr.
  destruct (pending_bound s Hs) as [Hp1 Hp2].
  pose proof (inv_max s Hs) as Hmax.
  rewrite HN in *.
  split_and!.
  - done.
  - intros t c h q Ht Hq. unfold step. rewrite Ht, Hq. eexists. split; [done|].
    simpl. split; [|done]. apply list_lookup_insert_eq. by eapply lookup_lt_Some.
  - intros t c s' Ht. unfold step. rewrite Ht, HN.
    destruct (inv_owner s Hs _ _ Ht eq_refl) as [d Hd].
    assert (t < length (threads s)) by (by eapply lookup_lt_Some).
    case_decide.
    + intros [= <-]. simpl. by apply list_lookup_insert_eq.
    + rewrite Hd. destruct (release_owned_Some t d) as [l ->].
      intros [= <-]. simpl. by apply list_lookup_insert_eq.
  - intros t p Ht Hb. split.
    + apply (inv_owner s Hs _ _ Ht). by apply building_critical.
    + rewrite <- HN. by apply (inv_room s Hs _ _ Ht).
  - intros t c Ht Hq. unfold step. by rewrite Ht, Hq.
  - intros Hfull t c s' Hstep t' p p' Ht' Ht'' Hnone.
    unfold checkedOut in Hfull. rewrite checkedOut_length in Hfull.
    unfold step in Hstep. destruct (threads s !! t) as [pt|] eqn:Ht; [|done].
    destruct (decide (t' = t)) as [->|Hne].
    2:{ assert (threads s' !! t' = threads s !! t') as Heq.
        { repeat case_match; simplify_eq; simpl;
            by apply list_lookup_insert_ne. }
        rewrite Heq in Ht''. by simplify_eq. }
    assert (t < length (threads s)) as Hlt by (by eapply lookup_lt_Some).
    assert (∀ q s0, s' = s0 → threads s0 = <[t:=q]> (threads s) → p' = q) as Hp'.
    { intros q s0 -> Hth. rewrite Hth, list_lookup_insert_eq in Ht'' by done.
      by simplify_eq. }
    rewrite Ht in Ht'. injection Ht' as ->.
    destruct p; simpl in Hnone; try done.
    + (* Outside *)
      destruct (connectionQueue (pool s)) as [|h q] eqn:Hq; simplify_eq.
      * by rewrite (Hp' WantLock _ eq_refl eq_refl).
      * exfalso. simpl in Htr.
        destruct (omap pending (threads s)) as [|x l] eqn:Hpe; simpl in *; [lia|].
        assert (length (connections (pool s)) < connectionMax (pool s))
          by (by apply Hp2). lia.
    + (* WantLock *)
      destruct (RLock_acquire t (connectionCreateLock s)); simplify_eq.
      by rewrite (Hp' HasLock _ eq_refl eq_refl).
    + (* HasLock *)
      repeat case_match; simplify_eq;
        by rewrite (Hp' _ _ eq_refl eq_refl).
    + (* Connecting *)
      destruct c; simplify_eq; try by rewrite (Hp' _ _ eq_refl eq_refl).
      exfalso. rewrite (no_pending_while_checking s t Hs Ht) in Hfull.
      pose proof (inv_room s Hs _ _ Ht eq_refl). simpl in *. lia.
    + (* Waiting *)
      destruct (connectionQueue (pool s)) as [|h q] eqn:Hq; simplify_eq.
      exfalso. simpl in Htr.
      destruct (omap pending (threads s)) as [|x l] eqn:Hpe; simpl in *; [lia|].
      assert (length (connections (pool s)) < connectionMax (pool s))
        by (by apply Hp2). lia.
Qed.

Lemma pool_never_exceeds_max_witness :
  ∃ s, run [(0, Completes); (0, Completes); (0, Completes); (0, Completes);
            (0, Completes); (0, Completes); (1, Completes); (1, Completes);
            (1, Completes)]
           (initial "query" None 1 2) = Some s
       ∧ threads s = [Using 0; Waiting]
       ∧ length (checkedOut s) ≤ 1.
Proof.
  eexists. split; [vm_compute; reflexivity|]. split; [reflexivity|].
  eapply (pool_never_exceeds_max "query" None 1 2
            [(0, Completes); (0, Completes); (0, Completes); (0, Completes);
             (0, Completes); (0, Completes); (1, Completes); (1, Completes);
             (1, Completes)]).
  vm_compute. reflexivity.
Defined.

Lemma step_connectionsCreated t c s s' :
  step t c s = Some s' → connectionsCreated (pool s) ≤ connectionsCreated (pool s').
Proof.
  unfold step, getConnection_account, Connection_exit, returnConnection,
    failedConnection.
  intros Hs. repeat case_match; simplify_eq; simpl; lia.
Qed.

Lemma Gone_step h t c s s' : Gone h s → step t c s = Some s' → Gone h s'.
Proof.
  intros [Hold Hconn Hqueue Hthr] Hstep.
  pose proof (step_connectionsCreated _ _ _ _ Hstep) as Hmono.
  unfold step in Hstep. destruct (threads s !! t) as [p|] eqn:Ht; [|done].
  unfold checkedOut in *.
  destruct (omap_insert_split pc_handle _ _ _ Ht) as (rest & Hperm & Hnew).
  rewrite Hperm in Hthr.
  assert (∀ q, pc_handle q ≠ Some h →
               h ∉ omap pc_handle (<[t:=q]> (threads s))) as Hkeep.
  { intros q Hq. rewrite Hnew. intros [Hin|Hin]%elem_of_app.
    - destruct (pc_handle q); simpl in Hin; [|by apply not_elem_of_nil in Hin].
      apply list_elem_of_singleton in Hin. congruence.
    - apply Hthr. apply elem_of_app. by right. }
  destruct p; simpl in *.
  - destruct (connectionQueue (pool s)) as [|h' q] eqn:Hq; simplify_eq.
    + split; simpl; rewrite ?Hq; try done. by apply Hkeep.
    + split; simpl; try done.
      * by apply not_elem_of_cons in Hqueue as [_ ?].
      * apply Hkeep. apply not_elem_of_cons in Hqueue as [? _]. simpl. congruence.
  - destruct (RLock_acquire t (connectionCreateLock s)); simplify_eq.
    split; simpl; try done. by apply Hkeep.
  - repeat case_match; simplify_eq; split; simpl; try done; by apply Hkeep.
  - destruct c; simplify_eq; split; simpl in *; try lia; try done;
      apply Hkeep; try done. simpl. intros [= Heq]. lia.
  - assert (c0 ≠ h) as Hne.
    { intros ->. apply Hthr. left. }
    repeat case_match; simplify_eq; split; simpl; try done;
      try (apply Hkeep; simpl; congruence);
      (apply not_elem_of_app; split; [done|];
       rewrite list_elem_of_singleton; congruence).
  - destruct (connectionQueue (pool s)) as [|h' q] eqn:Hq; simplify_eq.
    split; simpl; try done.
    + by apply not_elem_of_cons in Hqueue as [_ ?].
    + apply Hkeep. apply not_elem_of_cons in Hqueue as [? _]. simpl. congruence.
  - assert (c0 ≠ h) as Hne.
    { intros ->. apply Hthr. left. }
    unfold getConnection_account in Hstep.
    repeat case_match; simplify_eq; split; simpl; try done;
      apply Hkeep; simpl; congruence.
  - assert (c0 ≠ h) as Hne.
    { intros ->. apply Hthr. left. }
    unfold Connection_exit, returnConnection, failedConnection in Hstep.
    destruct (exc_type c).
    + destruct (Py.remove c0 (connections (pool s))) as [l|] eqn:Hrm; simplify_eq;
        split; simpl; try done; try (by apply Hkeep).
      apply remove_Some in Hrm. intros Hin. apply Hconn. rewrite Hrm. by right.
    + simplify_eq. split; simpl; try done; try (by apply Hkeep).
      apply not_elem_of_app; split; [done|].
      rewrite list_elem_of_singleton; congruence.
Qed.

Lemma Gone_run h schedule : ∀ s s', Gone h s → run schedule s = Some s' → Gone h s'.
Proof.
  induction schedule as [|[t c] rest IH]; intros s s' Hs; simpl.
  - by intros [= <-].
  - destruct (step t c s) as [s1|] eqn:Hstep; [|done].
    apply IH. by eapply Gone_step.
Qed.

(** C3.  When the block of a thread that uses connection [h] ends with an
    exception, [__exit__] is [failedConnection]: [h] is removed from the
    pool's list of connections, the idle queue is left as it was, and in no
    later state is [h] in the list, in the queue, or in the hands of any
    thread. *)
Theorem failed_connection_never_returns name creds N T schedule s t h c e s1
    later s2 :
  run schedule (initial name creds N T) = Some s →
  threads s !! t = Some (Using h) →
  exc_type c = Some e →
  step t c s = Some s1 →
  run later s1 = Some s2 →
  Connection_exit (poolStats s) (pool s) h (Some e)
    = failedConnection (poolStats s) (pool s) h
  ∧ (∃ stats l,
       Py.remove h (connections (pool s)) = Some l
       ∧ failedConnection (poolStats s) (pool s) h = inr (stats, pool s1)
       ∧ connections (pool s1) = l)
  ∧ connectionQueue (pool s1) = connectionQueue (pool s)
  ∧ h ∉ connections (pool s2)
  ∧ h ∉ connectionQueue (pool s2)
  ∧ h ∉ checkedOut s2.
Proof.
  intros Hr Ht Hc Hstep Hlater.
  destruct (reachable_Inv _ _ _ _ _ _ Hr) as [Hs _].
  destruct Hs as [Hnd Hsub Hcn Hmax Hown Hroom Hfresh Hpend].
  destruct (omap_insert_split tracked _ _ _ Ht) as (rest & Hold & Hnew).
  rewrite Hold in Hnd. setoid_rewrite Hold in Hsub. simpl in *.
  apply NoDup_cons in Hnd as [Hnot Hnd].
  assert (h ∈ connections (pool s)) as Hin by (apply Hsub; left).
  unfold step in Hstep. rewrite Ht, Hc in Hstep.
  unfold Connection_exit in *. unfold failedConnection in *.
  destruct (Py.remove h (connections (pool s))) as [l|] eqn:Hrm.
  2:{ by apply remove_None in Hrm. }
  injection Hstep as <-. simpl.
  pose proof (remove_Some _ _ _ Hrm) as Hperm.
  assert (Gone h
    {| pool := with_activeCount
                 (active_now (with_connections l (pool s)))
                 (with_connections l (pool s));
       poolStats :=
         <[key_of (with_activeCount
                     (active_now (with_connections l (pool s)))
                     (with_connections l (pool s))) "active" :=
             activeCount (with_activeCount
                            (active_now (with_connections l (pool s)))
                            (with_connections l (pool s)))]>
           (stat_incr (poolStats s) (key_of (pool s) "errors"));
       connectionCreateLock := connectionCreateLock s;
       log := log s;
       threads := <[t:=Outside]> (threads s) |}) as Hgone.
  { split; simpl.
    - by apply Hfresh.
    - rewrite Hperm in Hcn. by apply NoDup_cons in Hcn as [? _].
    - intros Hq. apply Hnot. apply elem_of_app. by right.
    - unfold checkedOut. simpl. intros Hh.
      apply elem_of_omap_lookup in Hh as (i & x & Hx & Hfx).
      apply lookup_at in Hx as [[-> ->]|[Hne Hx]]; [done|].
      destruct x; simpl in Hfx; simplify_eq.
      + destruct (Hpend _ _ Hx) as [_ Hno]. done.
      + apply Hnot. apply elem_of_app. left.
        destruct (omap_insert_split tracked _ _ _ Hx) as (r2 & Hp2 & _).
        assert (h ∈ omap tracked (<[t:=Outside]> (threads s))) as Hin'.
        { apply elem_of_omap_lookup. exists i, (Got h).
          split; [|done]. by rewrite list_lookup_insert_ne. }
        rewrite Hnew in Hin'. done.
      + apply Hnot. apply elem_of_app. left.
        assert (h ∈ omap tracked (<[t:=Outside]> (threads s))) as Hin'.
        { apply elem_of_omap_lookup. exists i, (Using h).
          split; [|done]. by rewrite list_lookup_insert_ne. }
        rewrite Hnew in Hin'. done. }
  destruct (Gone_run _ _ _ _ Hgone Hlater) as [_ G2 G3 G4].
  split_and!; eauto.
Qed.

Lemma failed_connection_never_returns_witness :
  ∃ s s1 s2,
    run [(0, Completes); (0, Completes); (0, Completes); (0, Completes);
         (0, Completes); (0, Completes)] (initial "query" None 1 2) = Some s
    ∧ threads s !! 0 = Some (Using 0)
    ∧ step 0 (Raises (LdapExc SERVER_DOWN)) s = Some s1
    ∧ run [(1, Completes); (1, Completes); (1, Completes); (1, Completes);
           (1, Completes); (1, Completes)] s1 = Some s2
    ∧ threads s2 = [Outside; Using 1]
    ∧ 0 ∉ checkedOut s2.
Proof.
  eexists _, _, _.
  split; [vm_compute; reflexivity|].
  split; [reflexivity|].
  split; [vm_compute; reflexivity|].
  split; [vm_compute; reflexivity|].
  split; [reflexivity|].
  eapply (failed_connection_never_returns "query" None 1 2
            [(0, Completes); (0, Completes); (0, Completes); (0, Completes);
             (0, Completes); (0, Completes)] _ 0 0
            (Raises (LdapExc SERVER_DOWN)) (LdapExc SERVER_DOWN) _
            [(1, Completes); (1, Completes); (1, Completes); (1, Completes);
             (1, Completes); (1, Completes)]).
  - vm_compute; reflexivity.
  - reflexivity.
  - reflexivity.
  - vm_compute; reflexivity.
  - vm_compute; reflexivity.
Defined.

End PoolProofs.

(** ** Record type resolution *)

Lemma lower_ascii_idemp a : Py.lower_ascii (Py.lower_ascii a) = Py.lower_ascii a.
Proof. destruct a as [[] [] [] [] [] [] [] []]; reflexivity. Qed.

Lemma lower_idemp s : Py.lower (Py.lower s) = Py.lower s.
Proof. induction s as [|a s IH]; simpl; [done|]. by rewrite lower_ascii_idemp, IH. Qed.

Lemma dnContainedIn_suffix (child parent : DN) :
  parent ≠ [] → dnContainedIn child parent = true ↔ parent `suffix_of` child.
Proof.
  intros Hne. unfold dnContainedIn. rewrite bool_decide_eq_true.
  unfold Py.last_n. destruct (length parent) as [|n] eqn:Hlen.
  { by destruct parent. }
  rewrite <- Hlen. split.
  - intros Hd. exists (take (length child - length parent) child).
    rewrite <- (take_drop (length child - length parent) child) at 1.
    by f_equal.
  - intros [k ->]. rewrite length_app.
    replace (length k + length parent - length parent) with (length k) by lia.
    by rewrite drop_app_length.
Qed.

Section resolver_facts.
Context `{!Library}.

Lemma recordTypeForDN_loop_first (baseDN dn : DN) schemas recordType :
  baseDN ≠ [] →
  recordTypeForDN_loop baseDN dn schemas = inr (Some recordType) ↔
  ∃ before schema after rdn,
    schemas = before ++ (recordType, schema) :: after
    ∧ str2dn (Py.lower (relativeDN schema)) = Some rdn
    ∧ (rdn ++ baseDN) `suffix_of` dn
    ∧ ∀ recordType' schema', (recordType', schema') ∈ before →
        ∃ rdn', str2dn (Py.lower (relativeDN schema')) = Some rdn'
                ∧ ¬ (rdn' ++ baseDN) `suffix_of` dn.
Proof.
  intros Hbase.
  assert (∀ rdn : DN, rdn ++ baseDN ≠ []) as Hne.
  { intros rdn Heq. apply app_eq_nil in Heq as [_ ?]. done. }
  induction schemas as [|[rt schema] rest IH]; simpl.
  - split; [done|]. intros (before & ? & ? & ? & Heq & _). by destruct before.
  - destruct (str2dn (Py.lower (relativeDN schema))) as [rdn|] eqn:Hrdn.
    + destruct (dnContainedIn dn (rdn ++ baseDN)) eqn:Hc.
      * apply dnContainedIn_suffix in Hc; [|done]. split.
        -- intros [= ->]. exists [], schema, rest, rdn. split_and!; try done.
           intros ? ? Hin. by apply not_elem_of_nil in Hin.
        -- intros (before & schema' & after & rdn' & Heq & Hr' & Hs & Hbefore).
           destruct before as [|[rt0 s0] before]; simpl in Heq; simplify_eq;
             try done.
           destruct (Hbefore _ _ (list_elem_of_here _ _)) as (r0 & Hr0 & Hno).
           assert (r0 = rdn) by congruence. by subst.
      * assert (¬ (rdn ++ baseDN) `suffix_of` dn) as Hno.
        { intros Hs. apply dnContainedIn_suffix in Hs; [|done]. congruence. }
        rewrite IH. split.
        -- intros (before & schema' & after & rdn' & -> & Hr' & Hs & Hbefore).
           exists ((rt, schema) :: before), schema', after, rdn'.
           split_and!; try done.
           intros rt0 s0 [?|Hin]%elem_of_cons; [simplify_eq; eauto|eauto].
        -- intros (before & schema' & after & rdn' & Heq & Hr' & Hs & Hbefore).
           destruct before as [|[rt0 s0] before]; simpl in Heq; simplify_eq.
           exists before, schema', after, rdn'. split_and!; try done.
           intros rt1 s1 Hin. apply (Hbefore rt1 s1). by right.
    + split; [done|].
      intros (before & schema' & after & rdn' & Heq & Hr' & Hs & Hbefore).
      destruct before as [|[rt0 s0] before]; simpl in Heq; simplify_eq.
      destruct (Hbefore _ _ (list_elem_of_here _ _)) as (r0 & Hr0 & Hno). congruence.
Qed.

(** C9.  For a base DN with at least one component: classification by DN
    lowercases the entry's DN and parses it before anything is compared (the
    lowercased DN, and any DN that parses to the same components once
    lowercased, classify alike; what [str2dn] drops of a DN's blanks is
    thereby dropped too); a record type is the answer exactly when its
    schema is the first in iteration order whose relativeDN followed by the
    base DN is a suffix of the entry's DN; and with a [str2dn] that parses
    the three strings as python-ldap does, "CN=Bob, OU=Person,DC=Example"
    classifies under the schema with relativeDN "ou=Person" over the base
    "dc=example". *)
Theorem recordTypeForDN_first_suffix_match (baseDnStr dnStr : string)
    (schemas : list (string * RecordTypeSchema)) (dn baseDN : DN) :
  str2dn (Py.lower dnStr) = Some dn →
  str2dn (Py.lower baseDnStr) = Some baseDN →
  baseDN ≠ [] →
  recordTypeForDN baseDnStr schemas (Py.lower dnStr)
    = recordTypeForDN baseDnStr schemas dnStr
  ∧ (∀ dnStr', str2dn (Py.lower dnStr') = Some dn →
       recordTypeForDN baseDnStr schemas dnStr'
       = recordTypeForDN baseDnStr schemas dnStr)
  ∧ (∀ recordType,
       recordTypeForDN baseDnStr schemas dnStr = inr (Some recordType) ↔
       ∃ before schema after rdn,
         schemas = before ++ (recordType, schema) :: after
         ∧ str2dn (Py.lower (relativeDN schema)) = Some rdn
         ∧ (rdn ++ baseDN) `suffix_of` dn
         ∧ ∀ recordType' schema', (recordType', schema') ∈ before →
             ∃ rdn', str2dn (Py.lower (relativeDN schema')) = Some rdn'
                     ∧ ¬ (rdn' ++ baseDN) `suffix_of` dn)
  ∧ (dnStr = "CN=Bob, OU=Person,DC=Example" →
     baseDnStr = "dc=example" →
     dn = [[("cn", "bob", 1%Z)]; [("ou", "person", 1%Z)]; [("dc", "example", 1%Z)]] →
     baseDN = [[("dc", "example", 1%Z)]] →
     str2dn "ou=person" = Some [[("ou", "person", 1%Z)]] →
     ∀ recordType attrs rest,
       schemas = (recordType, {| relativeDN := "ou=Person"; attributes := attrs |}) :: rest →
       recordTypeForDN baseDnStr schemas dnStr = inr (Some recordType)).
Proof.
  intros Hdn Hbase Hne. unfold recordTypeForDN.
  rewrite lower_idemp, Hdn, Hbase. split_and!.
  - done.
  - intros dnStr' ->. done.
  - intros recordType. by apply recordTypeForDN_loop_first.
  - intros -> -> -> -> Hrdn recordType attrs rest ->.
    cbn [recordTypeForDN_loop relativeDN].
    assert (Py.lower "ou=Person" = "ou=person") as -> by reflexivity.
    rewrite Hrdn. reflexivity.
Qed.

End resolver_facts.

Lemma recordTypeForDN_first_suffix_match_witness :
  str2dn (Py.lower "CN=Bob, OU=Person,DC=Example")
    = Some [[("cn", "bob", 1%Z)]; [("ou", "person", 1%Z)]; [("dc", "example", 1%Z)]]
  ∧ str2dn (Py.lower "dc=example") = Some [[("dc", "example", 1%Z)]]
  ∧ recordTypeForDN "dc=example"
      [("user", {| relativeDN := "ou=Person"; attributes := [] |})]
      "CN=Bob, OU=Person,DC=Example" = inr (Some "user").
Proof.
  split; [reflexivity|]. split; [reflexivity|].
  eapply (recordTypeForDN_first_suffix_match "dc=example"
            "CN=Bob, OU=Person,DC=Example" _ _ _); try reflexivity; done.
Defined.

(** ** Record mapper *)

Lemma and_then_inr {A B} (m : Logged A) (f : A → Logged B) lines b :
  and_then m f = (lines, inr b) →
  ∃ l1 a l2, m = (l1, inr a) ∧ f a = (l2, inr b) ∧ lines = l1 ++ l2.
Proof.
  unfold and_then. destruct m as [l1 [e|a]]; [done|].
  destruct (f a) as [l2 r] eqn:Hf. intros [= <- ->]. eauto 10.
Qed.

Section mapper_facts.
Context `{!Library} (ds : DirectoryService).

Lemma resolveRecordType_given recordType dn recordData :
  resolveRecordType ds (Some recordType) dn recordData = inr (Some recordType).
Proof. done. Qed.

(** One iteration of the mapper's loop: what it yields, and why. *)
Lemma mapEntry_inr recordType0 dn recordData lines recordType1 record :
  mapEntry ds recordType0 (dn, recordData) = (lines, inr (recordType1, record)) →
  resolveRecordType ds recordType0 dn recordData = inr recordType1
  ∧ match record with
    | None => recordType1 = None ∨ has_uid ds (dn, recordData) = false
    | Some r =>
        ∃ resolved fields0 dn',
          recordType1 = Some resolved
          ∧ (populateFields (_fieldNameToAttributesMap ds) recordData ∅).2 = inr fields0
          ∧ is_Some (fields0 !! fieldName_uid)
          ∧ utf8_decode dn = Some dn'
          ∧ fields r = <[fieldName_dn := FOne (SText dn')]>
                         (<[fieldName_recordType := FConstant resolved]> fields0)
    end.
Proof.
  unfold mapEntry, has_uid. simpl.
  destruct (resolveRecordType ds recordType0 dn recordData) as [e|[rt|]]; [done| |].
  - intros (l1 & fields0 & l2 & Hpop & Hrest & ->)%and_then_inr.
    rewrite Hpop. simpl.
    destruct (fields0 !! fieldName_uid) as [u|] eqn:Hu.
    + destruct (utf8_decode dn) as [dn'|]; [|done].
      injection Hrest as <- <- <-. split; [done|].
      exists rt, fields0, dn'. split_and!; eauto.
    + injection Hrest as <- <- <-. split; [done|]. right.
      apply bool_decide_eq_false. by intros [? ?].
  - intros [= <- <- <-]. split; [done|]. by left.
Qed.

Lemma has_uid_false_no_record recordType0 entry lines out :
  has_uid ds entry = false →
  mapEntry ds recordType0 entry = (lines, inr out) → out.2 = None.
Proof.
  destruct entry as [dn recordData], out as [recordType1 [r|]]; [|done].
  intros Hno (_ & resolved & fields0 & dn' & _ & Hpop & Hu & _)%mapEntry_inr.
  unfold has_uid in Hno. simpl in Hno. rewrite Hpop in Hno.
  apply bool_decide_eq_false in Hno. done.
Qed.

Lemma _recordsFromReply_loop_inr reply : ∀ recordType acc lines records,
  _recordsFromReply_loop ds reply recordType acc = (lines, inr records) →
  ∃ new,
    records = acc ++ new
    ∧ length new ≤ length (filter (λ entry, has_uid ds entry = true) reply)
    ∧ ∀ record, record ∈ new →
        ∃ dn recordData resolved fields0 dn',
          (dn, recordData) ∈ reply
          ∧ type_source ds reply recordType resolved
          ∧ (populateFields (_fieldNameToAttributesMap ds) recordData ∅).2 = inr fields0
          ∧ is_Some (fields0 !! fieldName_uid)
          ∧ utf8_decode dn = Some dn'
          ∧ fields record = <[fieldName_dn := FOne (SText dn')]>
                              (<[fieldName_recordType := FConstant resolved]> fields0).
Proof.
  induction reply as [|[dn recordData] rest IH]; intros recordType acc lines records; simpl.
  - intros [= <- <-]. exists []. rewrite app_nil_r. split_and!; [done|simpl; lia|].
    intros record Hin. by apply not_elem_of_nil in Hin.
  - intros (l1 & [recordType1 record] & l2 & Hentry & Hrest & ->)%and_then_inr.
    apply mapEntry_inr in Hentry as [Hres Hrec].
    apply IH in Hrest as (new & -> & Hlen & Hall).
    assert (∀ resolved, type_source ds rest recordType1 resolved →
                        type_source ds ((dn, recordData) :: rest) recordType resolved)
      as Hsrc.
    { intros resolved [->|(dn0 & data0 & Hin & Hr0)].
      - destruct recordType as [rt0|].
        + left. simpl in Hres. congruence.
        + right. exists dn, recordData. split; [left|done].
      - right. exists dn0, data0. split; [by right|done]. }
    destruct record as [r|].
    + destruct Hrec as (resolved & fields0 & dn' & -> & Hpop & Hu & Hdn & Hf).
      exists (r :: new). split_and!.
      * by rewrite <- app_assoc.
      * rewrite filter_cons_True; [simpl; lia|].
        unfold has_uid. simpl. rewrite Hpop. by apply bool_decide_eq_true.
      * intros record [->|Hin]%elem_of_cons.
        -- exists dn, recordData, resolved, fields0, dn'.
           split_and!; try done; [left|]. apply Hsrc. by left.
        -- destruct (Hall record Hin) as (dn0 & d0 & rs & f0 & dn0' & Hin0 & Hs0 & ?).
           exists dn0, d0, rs, f0, dn0'. split_and!; try tauto; [by right|eauto].
    + exists new. split_and!.
      * by rewrite app_nil_r.
      * destruct (decide (has_uid ds (dn, recordData) = true)).
        -- rewrite filter_cons_True by done. simpl. lia.
        -- by rewrite filter_cons_False.
      * intros record Hin.
        destruct (Hall record Hin) as (dn0 & d0 & rs & f0 & dn0' & Hin0 & Hs0 & ?).
        exists dn0, d0, rs, f0, dn0'. split_and!; try tauto; [by right|eauto].
Qed.

(** C4.  Whenever the mapper returns: an entry whose coerced field map has
    no [uid] yields no record (so there are at most as many records as
    entries with a coerced [uid]), and every record returned was built from
    an entry of the reply whose coerced field map has a [uid], carries that
    [uid], carries under [recordType] the resolved record type (the one the
    caller passed, or else one the resolver gave, by DN and then by
    attributes, for an entry of the reply: the variable is set once and kept
    for the entries that follow) and carries under [dn] the entry's DN,
    decoded. *)
Theorem mapper_requires_uid (reply : list RawEntry) (recordType : option string)
    (lines : list Event) (records : list DirectoryRecord) :
  _recordsFromReply ds reply recordType = (lines, inr records) →
  (∀ recordType0 entry lines' out,
     has_uid ds entry = false →
     mapEntry ds recordType0 entry = (lines', inr out) → out.2 = None)
  ∧ length records ≤ length (filter (λ entry, has_uid ds entry = true) reply)
  ∧ ∀ record, record ∈ records →
      ∃ dn recordData resolved fields0 dn',
        (dn, recordData) ∈ reply
        ∧ (recordType = Some resolved
           ∨ ∃ dn0 recordData0, (dn0, recordData0) ∈ reply
               ∧ resolveRecordType ds None dn0 recordData0 = inr (Some resolved))
        ∧ (populateFields (_fieldNameToAttributesMap ds) recordData ∅).2 = inr fields0
        ∧ is_Some (fields0 !! fieldName_uid)
        ∧ utf8_decode dn = Some dn'
        ∧ fields record !! fieldName_uid = fields0 !! fieldName_uid
        ∧ fields record !! fieldName_recordType = Some (FConstant resolved)
        ∧ fields record !! fieldName_dn = Some (FOne (SText dn')).
Proof.
  intros Hrun. unfold _recordsFromReply in Hrun.
  apply _recordsFromReply_loop_inr in Hrun as (new & -> & Hlen & Hall).
  simpl. split_and!.
  - intros. by eapply has_uid_false_no_record.
  - done.
  - intros record Hin.
    destruct (Hall record Hin) as (dn & d & rs & f0 & dn' & ? & ? & ? & ? & ? & Hf).
    exists dn, d, rs, f0, dn'. rewrite Hf.
    unfold fieldName_uid, fieldName_recordType, fieldName_dn in *.
    split_and!; try done.
    + by rewrite !lookup_insert_ne.
    + rewrite lookup_insert_ne by done. apply lookup_insert_eq.
    + apply lookup_insert_eq.
Qed.

Lemma and_then_snd {A B} (m : Logged A) (f : A → Logged B) :
  (and_then m f).2 = match m.2 with inl e => inl e | inr a => (f a).2 end.
Proof. destruct m as [l [e|a]]; simpl; [done|]. by destruct (f a). Qed.

Lemma and_then_fst_inr {A B} (lines : list Event) (a : A) (f : A → Logged B) :
  (and_then (lines, inr a) f).1 = lines ++ (f a).1.
Proof. simpl. by destruct (f a). Qed.

Lemma applyRules_skip fieldName rs1 r rs2 recordData :
  (∀ fields, (applyRule fieldName r recordData fields).2 = inr fields) →
  ∀ fields,
    (applyRules fieldName (rs1 ++ r :: rs2) recordData fields).2
    = (applyRules fieldName (rs1 ++ rs2) recordData fields).2.
Proof.
  intros Hr. induction rs1 as [|r1 rs1 IH]; intros fields; simpl.
  - by rewrite and_then_snd, Hr.
  - rewrite !and_then_snd.
    destruct (applyRule fieldName r1 recordData fields).2; [done|]. apply IH.
Qed.

Lemma populateFields_skip pre fieldName rs1 r rs2 post recordData :
  (∀ fields, (applyRule fieldName r recordData fields).2 = inr fields) →
  ∀ fields,
    (populateFields (pre ++ (fieldName, rs1 ++ r :: rs2) :: post) recordData fields).2
    = (populateFields (pre ++ (fieldName, rs1 ++ rs2) :: post) recordData fields).2.
Proof.
  intros Hr. induction pre as [|[f0 rs0] pre IH]; intros fields; simpl.
  - rewrite !and_then_snd. by rewrite applyRules_skip.
  - rewrite !and_then_snd.
    destruct (applyRules f0 rs0 recordData fields).2; [done|]. apply IH.
Qed.

(** C7, as amended.  When a value of a unique-identifier attribute rule
    fails to coerce, one warning naming the rule's values is logged and the
    rule stores nothing, whatever its other values are; the rules that
    follow are applied as before, and the entry's field map (or the
    exception that ends the mapping) is what it would be without the rule. *)
Theorem uuid_failure_skips_rule (fieldName : FieldName) (attributeRule : string)
    (recordData : gmap string RawValue) (raw : RawValue) (bad : string) :
  valueType fieldName = VT_UUID →
  recordData !! hd "" (Py.split ":"%char attributeRule) = Some raw →
  bad ∈ as_list raw →
  UUID bad = None →
  (∀ fields,
     applyRule fieldName attributeRule recordData fields
     = ([EvLog (LogCantParseValue (fname fieldName) (as_list raw))], inr fields))
  ∧ (∀ rest fields,
       applyRules fieldName (attributeRule :: rest) recordData fields
       = (EvLog (LogCantParseValue (fname fieldName) (as_list raw))
            :: (applyRules fieldName rest recordData fields).1,
          (applyRules fieldName rest recordData fields).2))
  ∧ (∀ pre rs1 rs2 post fields,
       (populateFields (pre ++ (fieldName, rs1 ++ attributeRule :: rs2) :: post)
          recordData fields).2
       = (populateFields (pre ++ (fieldName, rs1 ++ rs2) :: post) recordData fields).2).
Proof.
  intros Hvt Hraw Hbad Hnone.
  assert (∀ fields,
     applyRule fieldName attributeRule recordData fields
     = ([EvLog (LogCantParseValue (fname fieldName) (as_list raw))], inr fields))
    as Hrule.
  { intros fields. unfold applyRule. rewrite Hraw, Hvt.
    destruct (mapM UUID (as_list raw)) as [newValues|] eqn:Hm; [|done].
    exfalso. apply mapM_Some_1 in Hm.
    apply list_elem_of_lookup in Hbad as [i Hi].
    destruct (Forall2_lookup_l _ _ _ _ _ Hm Hi) as (u & _ & Hu). congruence. }
  split_and!.
  - done.
  - intros rest fields. simpl. rewrite Hrule. simpl.
    by destruct (applyRules fieldName rest recordData fields).
  - intros pre rs1 rs2 post fields. apply populateFields_skip.
    intros fields'. by rewrite Hrule.
Qed.

End mapper_facts.

Lemma mapper_requires_uid_witness :
  ∃ lines record,
    _recordsFromReply Sample.service [Sample.nobody; Sample.bob] (Some "user")
    = (lines, inr [record])
    ∧ fields record !! fieldName_dn
      = Some (FOne (SText "uid=bob,ou=person,dc=example,dc=com"))
    ∧ length [record]
      ≤ length (filter (λ entry, has_uid Sample.service entry = true)
                  [Sample.nobody; Sample.bob]).
Proof.
  eexists _, _. split; [vm_compute; reflexivity|]. split; [reflexivity|].
  refine (proj1 (proj2 (mapper_requires_uid Sample.service
                          [Sample.nobody; Sample.bob] (Some "user") _ _ _))).
  vm_compute. reflexivity.
Defined.

Lemma uuid_failure_skips_rule_witness :
  applyRule BaseFieldName.guid "guid"
    {["guid" := RawList ["12345678-1234-5678-1234-567812345678"; "garbage"]]} ∅
  = ([EvLog (LogCantParseValue "guid"
               ["12345678-1234-5678-1234-567812345678"; "garbage"])], inr ∅).
Proof.
  refine (proj1 (uuid_failure_skips_rule BaseFieldName.guid "guid" _
                   (RawList ["12345678-1234-5678-1234-567812345678"; "garbage"])
                   "garbage" _ _ _ _) ∅).
  - reflexivity.
  - reflexivity.
  - right. left.
  - reflexivity.
Defined.

(** C7 as stated fails: of the two values of one [guid] rule the first
    coerces and the second does not; skipping only the second would store
    the first, the mapper stores nothing. *)
Lemma per_value_skip_counterexample :
  let recordData : gmap string RawValue :=
    {["guid" := RawList ["12345678-1234-5678-1234-567812345678"; "garbage"]]} in
  UUID "12345678-1234-5678-1234-567812345678"
    = Some 24197857161011715162171839636988778104%N
  ∧ UUID "garbage" = None
  ∧ (applyRule_per_value BaseFieldName.guid "guid" recordData ∅).2
    = inr {["guid" := FOne (SUUID 24197857161011715162171839636988778104%N)]}
  ∧ (applyRule BaseFieldName.guid "guid" recordData ∅).2 = inr ∅
  ∧ (applyRule BaseFieldName.guid "guid" recordData ∅).2
    ≠ (applyRule_per_value BaseFieldName.guid "guid" recordData ∅).2.
Proof.
  simpl. split_and!; try (vm_compute; reflexivity).
  vm_compute. discriminate.
Qed.

(** ** Executors *)

Section executor_facts.
Context `{!Library} (srv : Server) (ds : DirectoryService).

(** C6.  A compound expression without sub-expressions yields the empty
    result at once and leaves the service as it was: nothing is handed to
    the thread pool, no search is issued, nothing is logged. *)
Theorem empty_compound_dispatches_nothing (operand : Operand)
    (recordTypes : option (list (option string))) (limitResults timeoutSeconds : option Z)
    (w : World) :
  recordsFromCompoundExpression srv ds [] operand recordTypes limitResults
    timeoutSeconds w = (Ok [], w).
Proof. reflexivity. Qed.

Lemma mbind_Ok {A B} (m : M A) (f : A → M B) w a w' :
  m w = (Ok a, w') → (m ≫= f) w = f a w'.
Proof. unfold mbind, M_bind. by intros ->. Qed.

Lemma mbind_Raise {A B} (m : M A) (f : A → M B) w e w' :
  m w = (Raise e, w') → (m ≫= f) w = (Raise e, w').
Proof. unfold mbind, M_bind. by intros ->. Qed.

Lemma mbind_Hang {A B} (m : M A) (f : A → M B) w w' :
  m w = (Hang, w') → (m ≫= f) w = (Hang, w').
Proof. unfold mbind, M_bind. by intros ->. Qed.

Lemma with_Connection_Ok {A} k (body : handle → M A) w c w1 r w2 :
  getConnection srv ds k w = (Ok c, w1) →
  body c w1 = (r, w2) →
  with_Connection srv ds k body w = Connection___exit__ k c r w2.
Proof.
  intros Hget Hbody. unfold with_Connection. rewrite (mbind_Ok _ _ _ _ _ Hget).
  by rewrite Hbody.
Qed.

(** Leaving the block without an exception puts the connection back. *)
Lemma Connection___exit___Ok {A} k c (a : A) w :
  ∃ w', Connection___exit__ k c (Ok a) w = (Ok a, w')
        ∧ log w' = log w
        ∧ connectionQueue (match k with query => queryPool w' | auth => authPool w' end)
          = connectionQueue (match k with query => queryPool w | auth => authPool w end)
            ++ [c].
Proof.
  unfold Connection___exit__, Connection_exit, returnConnection.
  destruct k; eexists; (split; [reflexivity|]); simpl; done.
Qed.

(** A bind that the server accepts: the [try] statement returns [True]
    from its body, and the [else] suite is not run. *)
Lemma authenticate_try_accepted dn password c w :
  on_simple_bind srv (log w) c dn password = None →
  authenticate_try srv dn password None c w
  = (Ok (Return true), append_log [EvBind c dn password] w).
Proof.
  intros Hbind. unfold authenticate_try, try_except_else, simple_bind_s.
  unfold mbind, M_bind, history, emit. simpl. by rewrite Hbind.
Qed.

Lemma authenticate_accepted remaining retryNumber dn password w c w1 :
  getConnection srv ds auth w = (Ok c, w1) →
  on_simple_bind srv (log w1) c dn password = None →
  ∃ w', authenticate_retry srv ds (S remaining) retryNumber dn password None w
        = (Ok (Some true), w')
        ∧ log w' = log w1 ++ [EvBind c dn password]
        ∧ connectionQueue (authPool w') = connectionQueue (authPool w1) ++ [c].
Proof.
  intros Hget Hbind. simpl. unfold mbind at 1. unfold M_bind at 1. simpl.
  rewrite (with_Connection_Ok _ _ _ _ _ _ _ Hget
             (authenticate_try_accepted _ _ _ _ Hbind)).
  destruct (Connection___exit___Ok auth c (Return true)
              (append_log [EvBind c dn password] w1)) as (w' & -> & Hlog & Hq).
  eauto.
Qed.

Lemma recordWithDN_try_missing dn c w :
  on_search_s srv (log w) c dn = inl (LdapExc NO_SUCH_OBJECT)
  ∨ on_search_s srv (log w) c dn = inl (LdapExc INVALID_DN_SYNTAX) →
  ∃ w', recordWithDN_try srv ds dn c w = (Ok [], w').
Proof.
  unfold recordWithDN_try, history, emit, log_line, emit, mbind, M_bind. simpl.
  intros [-> | ->]; eauto.
Qed.

Lemma recordWithDN_try_found dn c w reply lines records :
  on_search_s srv (log w) c dn = inr reply →
  _recordsFromReply ds reply None = (lines, inr records) →
  ∃ w', recordWithDN_try srv ds dn c w = (Ok records, w').
Proof.
  unfold recordWithDN_try, history, emit, logged, emit_all, mbind, M_bind. simpl.
  intros -> ->. simpl. eauto.
Qed.

Lemma recordWithDN_retry_decided remaining retryNumber dn testStats records w c w1
    found w2 :
  getConnection srv ds query (testStats_retryNumber testStats retryNumber w).2
    = (Ok c, w1) →
  recordWithDN_try srv ds dn c w1 = (Ok found, w2) →
  ∃ w', recordWithDN_retry srv ds (S remaining) retryNumber dn testStats records w
        = (Ok (head found), w').
Proof.
  intros Hget Htry. simpl. unfold mbind at 1. unfold M_bind at 1.
  assert (testStats_retryNumber testStats retryNumber w
          = (Ok (), (testStats_retryNumber testStats retryNumber w).2)) as ->.
  { by destruct testStats. }
  rewrite (with_Connection_Ok _ _ _ _ _ _ _ Hget Htry).
  destruct (Connection___exit___Ok query c found w2) as (w' & -> & _ & _).
  eauto.
Qed.

(** C10.  At any turn of the retry loop of [_recordWithDN_inThread]
    (which is the loop started with [_tries] turns to go), once a
    connection is in hand: a search answered with no-such-object or with
    invalid-DN-syntax ends the lookup with [None], and a search whose reply
    maps to at least one record ends it with the first of them. *)
Theorem recordWithDN_missing_is_None (remaining retryNumber : nat) (dn : string)
    (testStats : TestStats) (records : list DirectoryRecord) (w : World)
    (c : handle) (w1 : World) :
  getConnection srv ds query (testStats_retryNumber testStats retryNumber w).2
    = (Ok c, w1) →
  (on_search_s srv (log w1) c dn = inl (LdapExc NO_SUCH_OBJECT)
   ∨ on_search_s srv (log w1) c dn = inl (LdapExc INVALID_DN_SYNTAX) →
   ∃ w', recordWithDN_retry srv ds (S remaining) retryNumber dn testStats records w
         = (Ok None, w'))
  ∧ (∀ reply lines first others,
       on_search_s srv (log w1) c dn = inr reply →
       _recordsFromReply ds reply None = (lines, inr (first :: others)) →
       ∃ w', recordWithDN_retry srv ds (S remaining) retryNumber dn testStats records w
             = (Ok (Some first), w')).
Proof.
  intros Hget. split.
  - intros Hmiss. destruct (recordWithDN_try_missing dn c w1 Hmiss) as [w2 Htry].
    apply (recordWithDN_retry_decided _ _ _ _ _ _ _ _ [] _ Hget Htry).
  - intros reply lines first others Hreply Hmap.
    destruct (recordWithDN_try_found dn c w1 _ _ _ Hreply Hmap) as [w2 Htry].
    apply (recordWithDN_retry_decided _ _ _ _ _ _ _ _ (first :: others) _ Hget Htry).
Qed.

End executor_facts.

Lemma recordWithDN_missing_is_None_witness :
  ∃ w', _recordWithDN_inThread Sample.server_up Sample.service
          "uid=ghost,ou=person,dc=example,dc=com" None Sample.world
        = (Ok None, w').
Proof.
  refine (proj1 (recordWithDN_missing_is_None Sample.server_up Sample.service
                   2 0 "uid=ghost,ou=person,dc=example,dc=com" None []
                   Sample.world _ _ _) _).
  - vm_compute. reflexivity.
  - left. reflexivity.
Defined.

(** C8, evaluated.  The server accepts the bind.  The verification
    answers [True] and the connection is back in the pool's queue, but the
    one operation performed on it is the bind as the user: the body of the
    [try] ends in [return True], so the [else] suite with the anonymous
    bind is never run. *)
Theorem authenticate_success_skips_anonymous_bind :
  let dn := "uid=bob,ou=person,dc=example,dc=com" in
  let run :=
    _authenticateUsernamePassword_inThread Sample.server_up Sample.service
      dn "secret" None Sample.world in
  run.1 = Ok (Some true)
  ∧ log run.2 = [EvInitialize 0; EvBind 0 dn "secret"]
  ∧ connectionQueue (authPool run.2) = [0]
  ∧ EvBind 0 "" "" ∉ log run.2.
Proof.
  intros dn run.
  assert (log run.2 = [EvInitialize 0; EvBind 0 dn "secret"]) as Hlog
    by (vm_compute; reflexivity).
  split_and!.
  - vm_compute; reflexivity.
  - done.
  - vm_compute; reflexivity.
  - rewrite Hlog. intros Hin.
    repeat (apply elem_of_cons in Hin as [Hin|Hin]; [discriminate|]).
    by apply not_elem_of_nil in Hin.
Qed.

(** * Further properties of the module *)

(** ** Containment of distinguished names and schema attributes *)
(** [dnContainedIn] at its edges: under the empty parent only the empty
    DN is contained (the slice [child[-0:]] is the whole child); a child
    shorter than the parent is never contained; for a parent with at least
    one component containment is being the parent with components in
    front; every DN contains itself. *)
Theorem dnContainedIn_edges (child parent : DN) :
  (dnContainedIn child [] = true ↔ child = [])
  ∧ (length child < length parent → dnContainedIn child parent = false)
  ∧ (parent ≠ [] →
     (dnContainedIn child parent = true ↔ ∃ above, child = above ++ parent))
  ∧ dnContainedIn parent parent = true.
Proof.
  split_and!.
  - unfold dnContainedIn. simpl. by rewrite bool_decide_eq_true.
  - intros Hlen. apply bool_decide_eq_false. intros Heq.
    assert (length (Py.last_n (length parent) child) = length parent) as Hl
      by (by rewrite Heq).
    unfold Py.last_n in Hl. destruct (length parent) eqn:Hp; [lia|].
    rewrite length_drop in Hl. lia.
  - intros Hne. by apply dnContainedIn_suffix.
  - apply bool_decide_eq_true. unfold Py.last_n.
    destruct (length parent) eqn:Hp.
    + by destruct parent.
    + rewrite <- Hp. by rewrite Nat.sub_diag.
Qed.

Lemma dnContainedIn_edges_witness :
  dnContainedIn [[("uid", "bob", 1%Z)]; [("dc", "example", 1%Z)]]
                [[("dc", "example", 1%Z)]] = true
  ∧ dnContainedIn [[("dc", "example", 1%Z)]] [] = false.
Proof.
  split.
  - apply (proj1 (proj2 (proj2 (dnContainedIn_edges _ [[("dc", "example", 1%Z)]])))).
    + done.
    + by exists [[("uid", "bob", 1%Z)]].
  - destruct (dnContainedIn [[("dc", "example", 1%Z)]] []) eqn:H; [|done].
    by apply (proj1 (dnContainedIn_edges _ [])) in H.
Defined.

Lemma attributes_match_spec attrs recordData :
  attributes_match attrs recordData = true ↔
  Forall (attribute_satisfied recordData) attrs.
Proof.
  induction attrs as [|[a v] attrs IH]; simpl.
  - split; [constructor|done].
  - rewrite Forall_cons. unfold attribute_satisfied at 1. simpl.
    destruct (recordData !! a) as [[d|l]|].
    + case_bool_decide; [tauto|]. split; [done|tauto].
    + case_bool_decide; [tauto|]. split; [done|tauto].
    + split; [done|tauto].
Qed.

(** [recordTypeForRecordData] answers the first schema, in iteration
    order, all of whose [(attribute, value)] pairs hold of the entry, and
    [None] exactly when no schema has all its pairs hold.  A schema without
    pairs holds of every entry. *)
Theorem recordTypeForRecordData_first_match
    (recordTypeSchemas : list (string * RecordTypeSchema))
    (recordData : gmap string RawValue) :
  (∀ recordType,
     recordTypeForRecordData recordTypeSchemas recordData = Some recordType ↔
     ∃ before schema after,
       recordTypeSchemas = before ++ (recordType, schema) :: after
       ∧ Forall (attribute_satisfied recordData) (attributes schema)
       ∧ ∀ recordType' schema', (recordType', schema') ∈ before →
           ¬ Forall (attribute_satisfied recordData) (attributes schema'))
  ∧ (recordTypeForRecordData recordTypeSchemas recordData = None ↔
     ∀ recordType schema, (recordType, schema) ∈ recordTypeSchemas →
       ¬ Forall (attribute_satisfied recordData) (attributes schema)).
Proof.
  induction recordTypeSchemas as [|[rt schema] rest [IH1 IH2]]; simpl.
  - split.
    + intros recordType. split; [done|].
      intros (before & ? & ? & Heq & _). by destruct before.
    + split; [|done]. intros _ ? ? Hin. by apply not_elem_of_nil in Hin.
  - destruct (attributes_match (attributes schema) recordData) eqn:Hm.
    + apply attributes_match_spec in Hm. split.
      * intros recordType. split.
        -- intros [= ->]. exists [], schema, rest. split_and!; try done.
           intros ? ? Hin. by apply not_elem_of_nil in Hin.
        -- intros (before & schema' & after & Heq & Hs & Hbefore).
           destruct before as [|[rt0 s0] before]; simpl in Heq; simplify_eq;
             [done|].
           by destruct (Hbefore _ _ (list_elem_of_here _ _)).
      * split; [done|]. intros Hall. by destruct (Hall rt schema (list_elem_of_here _ _)).
    + assert (¬ Forall (attribute_satisfied recordData) (attributes schema)) as Hno.
      { intros Hs. apply attributes_match_spec in Hs. congruence. }
      split.
      * intros recordType. rewrite IH1. split.
        -- intros (before & schema' & after & -> & Hs & Hbefore).
           exists ((rt, schema) :: before), schema', after. split_and!; try done.
           intros rt0 s0 [?|Hin]%elem_of_cons; [by simplify_eq|eauto].
        -- intros (before & schema' & after & Heq & Hs & Hbefore).
           destruct before as [|[rt0 s0] before]; simpl in Heq; simplify_eq;
             [by exfalso; apply Hno|].
           exists before, schema', after. split_and!; try done.
           intros rt1 s1 Hin. apply (Hbefore rt1 s1). by right.
      * rewrite IH2. split.
        -- intros Hall rt0 s0 [?|Hin]%elem_of_cons; [by simplify_eq|eauto].
        -- intros Hall rt0 s0 Hin. apply (Hall rt0 s0). by right.
Qed.

(** ** Replies without a record type, and queries for unknown types *)

Section more_mapper_facts.
Context `{!Library} (srv : Server) (ds : DirectoryService).

(** Entries whose record type is found neither by DN nor by attributes
    are passed over: a reply of such entries gives no record, no log line
    and no error. *)
Theorem unclassified_entries_are_dropped (reply : list RawEntry) :
  (∀ dn recordData, (dn, recordData) ∈ reply →
     resolveRecordType ds None dn recordData = inr None) →
  _recordsFromReply ds reply None = ([], inr []).
Proof.
  unfold _recordsFromReply. generalize (@nil DirectoryRecord) as acc.
  induction reply as [|[dn recordData] rest IH]; intros acc Hall; [done|].
  cbn [_recordsFromReply_loop]. unfold mapEntry.
  rewrite (Hall dn recordData) by left. unfold and_then.
  rewrite app_nil_r.
  rewrite IH; [done|]. intros dn0 d0 Hin. apply Hall. by right.
Qed.

(** [getPreferredRecordTypesOrder] lists the service's record types
    among user, location, resource, group and address, each once, in that
    order; a record type of the service outside these five is not in it. *)
Theorem getPreferredRecordTypesOrder_known_types :
  (∀ name, name ∈ getPreferredRecordTypesOrder ds ↔
           name ∈ ["user"; "location"; "resource"; "group"; "address"]
           ∧ name ∈ recordType_names ds)
  ∧ sublist (getPreferredRecordTypesOrder ds)
            ["user"; "location"; "resource"; "group"; "address"]
  ∧ NoDup (getPreferredRecordTypesOrder ds).
Proof.
  unfold getPreferredRecordTypesOrder. split_and!.
  - intros name. rewrite list_elem_of_filter. tauto.
  - apply sublist_filter.
  - apply NoDup_filter. repeat (apply NoDup_cons; split; [set_solver|]).
    apply NoDup_nil_2.
Qed.

Lemma query_recordTypes_unknown c queryString timeoutSeconds recordTypes :
  (∀ recordType, recordType ∈ recordTypes →
     recordType ≫= (λ rt, assoc rt (_recordTypeSchemas ds)) = None) →
  ∀ limitResults records w,
    query_recordTypes srv ds c queryString timeoutSeconds recordTypes
      limitResults records w = ((limitResults, records, Ok ()), w).
Proof.
  induction recordTypes as [|rt rest IH]; intros Hall limitResults records w;
    simpl; [done|].
  case_match; [done|].
  assert (rt ≫= (λ rt0, (rt0,.) <$> assoc rt0 (_recordTypeSchemas ds)) = None) as ->.
  { specialize (Hall rt (list_elem_of_here _ _)). destruct rt as [n|]; [|done].
    simpl in *. by rewrite Hall. }
  apply IH. intros rt' Hin. apply Hall. by right.
Qed.

(** A query restricted to record types that have no schema (the type
    [None] is one) is answered with no record at the first turn of the
    retry loop, once a connection is in hand: no search is sent, nothing is
    logged, and the connection goes back to the queue. *)
Theorem unknown_record_types_issue_no_search (queryString : string)
    (recordTypes : list (option string)) (timeoutSeconds : option Z)
    (testStats : TestStats) (limitResults : option Z)
    (records : option (list DirectoryRecord)) (remaining retryNumber : nat)
    (w : World) (c : handle) (w1 : World) :
  (∀ recordType, recordType ∈ recordTypes →
     recordType ≫= (λ rt, assoc rt (_recordTypeSchemas ds)) = None) →
  getConnection srv ds query (testStats_retryNumber testStats retryNumber w).2
    = (Ok c, w1) →
  ∃ w', query_retry srv ds (S remaining) retryNumber queryString recordTypes
          timeoutSeconds testStats limitResults records w = (Ok [], w')
        ∧ log w' = log w1
        ∧ connectionQueue (queryPool w') = connectionQueue (queryPool w1) ++ [c].
Proof.
  intros Hunknown Hget. cbn [query_retry]. rewrite Hget.
  rewrite (query_recordTypes_unknown _ _ _ _ Hunknown).
  destruct (Connection___exit___Ok query c () w1) as (w' & -> & Hlog & Hq).
  eauto.
Qed.

End more_mapper_facts.

Lemma unknown_record_types_issue_no_search_witness :
  ∃ w', _recordsFromQueryString_inThread Sample.server_down Sample.service
          "(uid=bob)" (Some [None; Some "computer"]) None None None Sample.world
        = (Ok [], w')
        ∧ log w' = [EvInitialize 0].
Proof.
  destruct (unknown_record_types_issue_no_search Sample.server_down Sample.service
              "(uid=bob)" [None; Some "computer"] None None None None 2 0
              Sample.world 0
              (getConnection Sample.server_down Sample.service query Sample.world).2)
    as (w' & Hrun & Hlog & _).
  - intros recordType Hin.
    repeat (apply elem_of_cons in Hin as [->|Hin]; [reflexivity|]).
    by apply not_elem_of_nil in Hin.
  - vm_compute. reflexivity.
  - exists w'. split; [exact Hrun|]. rewrite Hlog. vm_compute. reflexivity.
Defined.


(** ** Batches *)

Lemma ceil_div_step (n size : nat) :
  0 < size → 0 < n →
  (n + size - 1) / size = S ((n - size + size - 1) / size).
Proof.
  intros Hs Hn. destruct (decide (size ≤ n)) as [Hle|Hlt].
  - replace (n + size - 1) with ((n - size + size - 1) + 1 * size) by lia.
    rewrite Nat.div_add by lia. lia.
  - replace (n - size) with 0 by lia. simpl.
    rewrite (Nat.div_small (size - 1) size) by lia.
    symmetry. apply (Nat.div_unique _ _ 1 (n - 1)); lia.
Qed.

Section batches.
Context {A : Type}.

Lemma splitIntoBatches_while_spec (size : nat) :
  0 < size →
  ∀ fuel (data : list A), length data ≤ fuel →
    ∃ batches,
      splitIntoBatches_while fuel data size = Some batches
      ∧ concat batches = data
      ∧ Forall (λ batch, batch ≠ [] ∧ length batch ≤ size) batches
      ∧ length batches = (length data + size - 1) / size.
Proof.
  intros Hsize. induction fuel as [|fuel IH]; intros data Hlen.
  - destruct data; [|simpl in Hlen; lia]. exists []. split_and!; try done.
    simpl. by rewrite Nat.div_small by lia.
  - destruct data as [|x data].
    { exists []. split_and!; try done. simpl. by rewrite Nat.div_small by lia. }
    destruct (IH (drop size (x :: data))) as (batches & Hrun & Hcat & Hall & Hn).
    { rewrite length_drop. simpl in *. lia. }
    exists (take size (x :: data) :: batches).
    cbn [splitIntoBatches_while]. rewrite Hrun. split_and!.
    + done.
    + simpl concat. rewrite Hcat. apply take_drop.
    + constructor; [|done]. split.
      * destruct size; [lia|]. done.
      * rewrite length_take. lia.
    + change (length (take size (x :: data) :: batches)) with (S (length batches)).
      rewrite Hn, length_drop.
      rewrite (ceil_div_step (length (x :: data)) size); [done|done|simpl; lia].
Qed.

Lemma splitIntoBatches_while_size_zero fuel (data : list A) :
  data ≠ [] → splitIntoBatches_while fuel data 0 = None.
Proof.
  intros Hne. induction fuel as [|fuel IH]; destruct data; try done.
  cbn [splitIntoBatches_while]. rewrite drop_0. by rewrite IH.
Qed.

(** [splitIntoBatches] with a positive size: the batches, joined, are
    the data; none is longer than the size; empty data gives the one empty
    batch; other data gives no empty batch and the data's length divided by
    the size, rounded up, many of them.  With size zero and data that is
    not empty the generator never ends. *)
Theorem splitIntoBatches_chunks (data : list A) (size : nat) :
  (0 < size →
   ∃ batches,
     splitIntoBatches data size = Some batches
     ∧ concat batches = data
     ∧ Forall (λ batch, length batch ≤ size) batches
     ∧ (data = [] → batches = [[]])
     ∧ (data ≠ [] →
        Forall (λ batch, batch ≠ []) batches
        ∧ length batches = (length data + size - 1) / size))
  ∧ (size = 0 → data ≠ [] →
     splitIntoBatches data size = None
     ∧ ∀ fuel, splitIntoBatches_while fuel data size = None).
Proof.
  split.
  - intros Hsize. unfold splitIntoBatches.
    destruct (splitIntoBatches_while_spec size Hsize (length data) data)
      as (batches & Hrun & Hcat & Hall & Hn); [done|].
    rewrite Hrun. destruct data as [|x data].
    + simpl in Hrun. injection Hrun as <-. exists [[]]. split_and!; try done.
      repeat constructor. simpl. lia.
    + exists batches. split_and!; try done.
      * eapply Forall_impl; [done|]. by intros b [_ ?].
      * intros _. split; [|done]. eapply Forall_impl; [done|]. by intros b [? _].
  - intros -> Hne. split.
    + unfold splitIntoBatches. by rewrite splitIntoBatches_while_size_zero.
    + intros fuel. by apply splitIntoBatches_while_size_zero.
Qed.

End batches.

Lemma splitIntoBatches_chunks_witness :
  ∃ batches,
    splitIntoBatches (seq 0 1200) 500 = Some batches
    ∧ length <$> batches = [500; 500; 200]
    ∧ concat batches = seq 0 1200.
Proof.
  destruct (proj1 (splitIntoBatches_chunks (seq 0 1200) 500)) as (b & Hb & Hc & _);
    [lia|].
  exists b. split; [done|]. split; [|done].
  assert (splitIntoBatches (seq 0 1200) 500
          = Some [seq 0 500; seq 500 500; seq 1000 200]) as Heq
    by (vm_compute; reflexivity).
  rewrite Heq in Hb. injection Hb as <-. vm_compute. reflexivity.
Defined.

(** ** Group membership: the scan over member DNs *)

Section setdefault.
Context {K A : Type} `{EqDecision K}.

Lemma setdefault_append_concat (key : K) (x : A) (d : list (K * list A)) :
  concat (snd <$> setdefault_append key x d) ≡ₚ concat (snd <$> d) ++ [x].
Proof.
  induction d as [|[k l] d IH]; simpl; [done|].
  case_decide; simpl.
  - rewrite <- !app_assoc. apply Permutation_app_head. apply Permutation_app_comm.
  - rewrite IH. by rewrite app_assoc.
Qed.

Lemma setdefault_append_elem (key : K) (x : A) (d : list (K * list A)) k l :
  (k, l) ∈ setdefault_append key x d →
  (k, l) ∈ d ∨ (k = key ∧ ∃ l0, l = l0 ++ [x] ∧ (l0 = [] ∨ (key, l0) ∈ d)).
Proof.
  induction d as [|[k0 l0] d IH]; simpl.
  - intros Hin. apply list_elem_of_singleton in Hin. injection Hin as -> ->.
    right. split; [done|]. exists []. eauto.
  - case_decide as Hk.
    + subst k0. intros [Heq|Hin]%elem_of_cons.
      * injection Heq as -> ->. right. split; [done|]. exists l0. split; [done|].
        right. left.
      * left. by right.
    + intros [Heq|Hin]%elem_of_cons.
      * injection Heq as -> ->. left. left.
      * destruct (IH Hin) as [?|(-> & l1 & -> & [->|Hd])].
        -- left. by right.
        -- right. split; [done|]. exists []. eauto.
        -- right. split; [done|]. exists l1. split; [done|]. right. by right.
Qed.

Lemma setdefault_append_key_elem (key : K) (x : A) (d : list (K * list A)) k :
  k ∈ fst <$> setdefault_append key x d → k = key ∨ k ∈ fst <$> d.
Proof.
  induction d as [|[k0 l0] d IH]; simpl.
  - intros ->%list_elem_of_singleton. by left.
  - case_decide; simpl.
    + intros Hin. by right.
    + intros [-> |Hin]%elem_of_cons; [right; left|].
      destruct (IH Hin); [by left|right; by right].
Qed.

Lemma setdefault_append_keys (key : K) (x : A) (d : list (K * list A)) :
  NoDup (fst <$> d) → NoDup (fst <$> setdefault_append key x d).
Proof.
  induction d as [|[k0 l0] d IH]; simpl.
  - intros _. apply NoDup_singleton.
  - intros [Hnot Hnd]%NoDup_cons. case_decide as Hk; simpl.
    + by apply NoDup_cons.
    + apply NoDup_cons. split; [|by apply IH].
      intros [-> |Hin]%setdefault_append_key_elem; done.
Qed.

End setdefault.

Section scan.
Context `{!Library} (ds : DirectoryService).

Lemma members_scan_spec memberDNs : ∀ seen byType faultByDN,
  NoDup (fst <$> byType) →
  (∀ recordType fieldValue, (recordType, fieldValue) ∈ byType →
     fieldValue ≠ []
     ∧ ∀ fv, fv ∈ fieldValue →
         ∃ dnStr, dnStr ∈ seen ∧ member_fieldValue ds dnStr = Some (recordType, fv)) →
  let result := members_scan ds memberDNs byType faultByDN in
  result.2 = faultByDN ++ filter (λ dnStr, member_fieldValue ds dnStr = None) memberDNs
  ∧ concat (snd <$> result.1)
    ≡ₚ concat (snd <$> byType)
       ++ omap (λ dnStr, snd <$> member_fieldValue ds dnStr) memberDNs
  ∧ NoDup (fst <$> result.1)
  ∧ ∀ recordType fieldValue, (recordType, fieldValue) ∈ result.1 →
      fieldValue ≠ []
      ∧ ∀ fv, fv ∈ fieldValue →
          ∃ dnStr, dnStr ∈ seen ++ memberDNs
                   ∧ member_fieldValue ds dnStr = Some (recordType, fv).
Proof.
  induction memberDNs as [|dnStr rest IH]; intros seen byType faultByDN Hnd Hgroups.
  - simpl. rewrite !app_nil_r. split_and!; try done.
  - cbn [members_scan].
    destruct (member_fieldValue ds dnStr) as [[recordType fv]|] eqn:Hfv.
    + destruct (IH (seen ++ [dnStr]) (setdefault_append recordType fv byType) faultByDN)
        as (H1 & H2 & H3 & H4).
      * by apply setdefault_append_keys.
      * intros rt l Hin.
        apply setdefault_append_elem in Hin as [Hin|(-> & l0 & -> & Hl0)].
        -- destruct (Hgroups rt l Hin) as [? Hl]. split; [done|].
           intros fv' Hfv'. destruct (Hl fv' Hfv') as (d & ? & ?).
           exists d. split; [|done]. apply elem_of_app. by left.
        -- split; [by destruct l0|].
           intros fv' [Hin| ->%list_elem_of_singleton]%elem_of_app.
           ++ destruct Hl0 as [->|Hl0]; [by apply not_elem_of_nil in Hin|].
              destruct (Hgroups _ _ Hl0) as [_ Hl].
              destruct (Hl fv' Hin) as (d & ? & ?).
              exists d. split; [|done]. apply elem_of_app. by left.
           ++ exists dnStr. split; [|done]. apply elem_of_app. right. left.
      * simpl in *. split_and!.
        -- rewrite H1. by rewrite filter_cons_False by (rewrite Hfv; done).
        -- rewrite H2. rewrite setdefault_append_concat. cbn [omap list_omap].
           rewrite Hfv. simpl. by rewrite <- app_assoc.
        -- done.
        -- intros rt l Hin. destruct (H4 rt l Hin) as [? Hl]. split; [done|].
           intros fv' Hfv'. destruct (Hl fv' Hfv') as (d & Hd & ?).
           exists d. split; [|done]. by rewrite <- app_assoc in Hd.
    + destruct (IH (seen ++ [dnStr]) byType (faultByDN ++ [dnStr]))
        as (H1 & H2 & H3 & H4).
      * done.
      * intros rt l Hin. destruct (Hgroups rt l Hin) as [? Hl]. split; [done|].
        intros fv' Hfv'. destruct (Hl fv' Hfv') as (d & ? & ?).
        exists d. split; [|done]. apply elem_of_app. by left.
      * simpl in *. split_and!.
        -- rewrite H1. rewrite filter_cons_True by done. by rewrite <- app_assoc.
        -- rewrite H2. cbn [omap list_omap]. by rewrite Hfv.
        -- done.
        -- intros rt l Hin. destruct (H4 rt l Hin) as [? Hl]. split; [done|].
           intros fv' Hfv'. destruct (Hl fv' Hfv') as (d & Hd & ?).
           exists d. split; [|done]. by rewrite <- app_assoc in Hd.
Qed.

(** The scan over [memberDNs] of [DirectoryRecord.members] sorts every
    member DN into one place: the DNs for which the [try] suite raises are
    [faultByDN], in order; the others give one [(fieldName, value)] pair
    each, grouped by record type, one group per type; no group is empty, so
    the test [if fieldValue] always holds. *)
Theorem members_scan_partitions (memberDNs : list string) :
  let result := members_scan ds memberDNs [] [] in
  result.2 = filter (λ dnStr, member_fieldValue ds dnStr = None) memberDNs
  ∧ concat (snd <$> result.1)
    ≡ₚ omap (λ dnStr, snd <$> member_fieldValue ds dnStr) memberDNs
  ∧ length (concat (snd <$> result.1)) + length result.2 = length memberDNs
  ∧ NoDup (fst <$> result.1)
  ∧ ∀ recordType fieldValue, (recordType, fieldValue) ∈ result.1 →
      fieldValue ≠ []
      ∧ ∀ fv, fv ∈ fieldValue →
          ∃ dnStr, dnStr ∈ memberDNs
                   ∧ member_fieldValue ds dnStr = Some (recordType, fv).
Proof.
  destruct (members_scan_spec memberDNs [] [] []) as (H1 & H2 & H3 & H4).
  - constructor.
  - intros ? ? Hin. by apply not_elem_of_nil in Hin.
  - simpl in *. split_and!; try done.
    rewrite H2, H1. clear.
    induction memberDNs as [|d l IH]; [done|].
    cbn [omap list_omap]. destruct (member_fieldValue ds d) as [[? ?]|] eqn:Hd.
    + rewrite filter_cons_False by (rewrite Hd; done).
      cbn [fmap option_fmap option_map length]. lia.
    + rewrite filter_cons_True by done.
      cbn [fmap option_fmap option_map length]. lia.
Qed.

End scan.

(** ** Reversed mappings *)

Section reverse_index.
Context {K V R : Type} `{Countable V} (g : R → V).

Lemma foldl_setdefault_append (key : K) (rs : list R) : ∀ (new : gmap V (list K)) v k,
  k ∈ default [] (foldl (λ new r, <[g r := default [] (new !! g r) ++ [key]]> new)
                        new rs !! v)
  ↔ k ∈ default [] (new !! v) ∨ (k = key ∧ ∃ r, r ∈ rs ∧ g r = v).
Proof.
  induction rs as [|r rs IH]; intros new v k; simpl.
  - split; [by left|]. intros [?|(_ & r & Hr & _)]; [done|].
    by apply not_elem_of_nil in Hr.
  - rewrite IH. destruct (decide (g r = v)) as [<-|Hne].
    + rewrite lookup_insert_eq. simpl. rewrite elem_of_app, list_elem_of_singleton.
      split.
      * intros [[?| ->]|(-> & r' & Hr' & Hg)].
        -- by left.
        -- right. split; [done|]. exists r. split; [left|done].
        -- right. split; [done|]. exists r'. split; [by right|done].
      * intros [?|(-> & r' & Hr' & Hg)]; [left; by left|].
        left. by right.
    + rewrite lookup_insert_ne by done. split.
      * intros [?|(-> & r' & Hr' & Hg)]; [by left|].
        right. split; [done|]. exists r'. split; [by right|done].
      * intros [?|(-> & r' & [-> |Hr']%elem_of_cons & Hg)]; [by left|done|].
        right. split; [done|]. by exists r'.
Qed.

Lemma foldl_foldl_setdefault_append (source : list (K * list R)) :
  ∀ (new : gmap V (list K)) v k,
  k ∈ default [] (foldl (λ new '(key, rs),
                           foldl (λ new r, <[g r := default [] (new !! g r) ++ [key]]> new)
                                 new rs)
                        new source !! v)
  ↔ k ∈ default [] (new !! v) ∨ ∃ rs r, (k, rs) ∈ source ∧ r ∈ rs ∧ g r = v.
Proof.
  induction source as [|[key rs] source IH]; intros new v k; simpl.
  - split; [by left|]. intros [?|(rs & r & Hin & _)]; [done|].
    by apply not_elem_of_nil in Hin.
  - rewrite IH, foldl_setdefault_append. split.
    + intros [[?|(-> & r & Hr & Hg)]|(rs' & r & Hin & Hr & Hg)].
      * by left.
      * right. exists rs, r. split_and!; [left|done|done].
      * right. exists rs', r. split_and!; [by right|done|done].
    + intros [?|(rs' & r & [Heq|Hin]%elem_of_cons & Hr & Hg)].
      * left. by left.
      * injection Heq as -> ->. left. right. split; [done|]. by exists r.
      * right. by exists rs', r.
Qed.

End reverse_index.

(** [reverseDict]: a key is listed under a value of the reversed mapping
    exactly when the value is among the key's values in the source. *)
Theorem reverseDict_membership {K V} `{Countable V} (source : list (K * list V))
    (value : V) (key : K) :
  key ∈ default [] (reverseDict source !! value)
  ↔ ∃ values, (key, values) ∈ source ∧ value ∈ values.
Proof.
  unfold reverseDict.
  rewrite (foldl_foldl_setdefault_append (λ v : V, v) source ∅ value key).
  rewrite lookup_empty. simpl. split.
  - intros [Hin|(vs & r & Hin & Hr & <-)]; [by apply not_elem_of_nil in Hin|].
    by exists vs.
  - intros (vs & Hin & Hv). right. by exists vs, value.
Qed.

Section init_facts.
Context `{!Library} (ds : DirectoryService).

(** The index [_attributeToFieldNameMap] built by [__init__]: a field
    name is listed under an attribute exactly when one of the field's rules
    is the attribute, or starts with the attribute and a colon. *)
Theorem attributeToFieldNameMap_membership (attribute : string) (name : FieldName) :
  name ∈ default [] (_attributeToFieldNameMap ds !! attribute)
  ↔ ∃ rules rule,
      (name, rules) ∈ _fieldNameToAttributesMap ds
      ∧ rule ∈ rules
      ∧ (if Py.contains ":"%char rule then hd "" (Py.split ":"%char rule) else rule)
        = attribute.
Proof.
  unfold _attributeToFieldNameMap.
  rewrite (foldl_foldl_setdefault_append
             (λ rule, if Py.contains ":"%char rule
                      then hd "" (Py.split ":"%char rule) else rule)
             (_fieldNameToAttributesMap ds) ∅ attribute name).
  rewrite lookup_empty. simpl. split.
  - intros [Hin|?]; [by apply not_elem_of_nil in Hin|done].
  - intros ?. by right.
Qed.

End init_facts.

(** ** The pool: exclusive lending, dead branches, and the creation lock *)

Lemma index_Some {A} `{EqDecision A} (x : A) (l : list A) :
  x ∈ l → is_Some (Py.index x l).
Proof.
  intros Hin. destruct (Py.index x l) eqn:Hi; [eauto|].
  by apply index_None in Hi.
Qed.

Lemma remove_is_Some {A} `{EqDecision A} (x : A) (l : list A) :
  x ∈ l → is_Some (Py.remove x l).
Proof.
  intros Hin. destruct (Py.remove x l) eqn:Hi; [eauto|].
  by apply remove_None in Hi.
Qed.

Lemma omap_NoDup_lookup {A B} (f : A → option B) (l : list A) :
  NoDup (omap f l) →
  ∀ i j x y b, l !! i = Some x → l !! j = Some y →
               f x = Some b → f y = Some b → i = j.
Proof.
  induction l as [|a l IH]; intros Hnd i j x y b Hi Hj Hx Hy; [done|].
  cbn [omap list_omap] in Hnd.
  assert (∀ k z, l !! k = Some z → f z = Some b → b ∈ omap f l) as Hin.
  { intros k z Hk Hz. apply elem_of_omap_lookup. eauto. }
  assert (NoDup (omap f l)) as Hnd'.
  { destruct (f a); [by apply NoDup_cons in Hnd as [_ ?]|done]. }
  destruct i as [|i], j as [|j]; simpl in Hi, Hj; simplify_eq.
  - done.
  - rewrite Hx in Hnd. apply NoDup_cons in Hnd as [Hnot _].
    destruct Hnot. eauto.
  - rewrite Hy in Hnd. apply NoDup_cons in Hnd as [Hnot _].
    destruct Hnot. eauto.
  - f_equal. by apply (IH Hnd' i j x y b).
Qed.

Module PoolLending.
Import Threads PoolInvariant PoolProofs.

Lemma checkedOut_split (l : list pc) :
  omap pc_handle l ≡ₚ omap tracked l ++ omap pending l.
Proof.
  induction l as [|p l IH]; [done|].
  destruct p; cbn [omap list_omap pc_handle tracked pending]; unfold omap in IH;
    rewrite ?IH; try done.
  - by rewrite <- Permutation_middle.
Qed.

Lemma Inv_exclusive s :
  Inv s → NoDup (checkedOut s ++ connectionQueue (pool s)).
Proof.
  intros Hs. unfold checkedOut. rewrite checkedOut_split.
  destruct (pending_bound s Hs) as [Hlen _].
  destruct Hs as [Hnd Hsub Hcn Hmax Hown Hroom Hfresh Hpend].
  rewrite <- app_assoc.
  rewrite (Permutation_app_comm (omap pending (threads s))).
  rewrite app_assoc. apply NoDup_app. split_and!.
  - done.
  - intros h Hin Hp. apply elem_of_omap_lookup in Hp as (i & p & Hi & Hp).
    apply pending_building in Hp as ->.
    destruct (Hpend _ _ Hi) as [_ Hnot]. apply Hnot. by apply Hsub.
  - destruct (omap pending (threads s)) as [|h [|h' l]]; simpl in Hlen;
      [constructor|apply NoDup_singleton|lia].
Qed.

(** In every state the pool reaches, a connection is in one place only: in
    the hands of one thread or in the queue of idle connections, never in
    both and never with two threads; and what is idle or tracked belongs to
    the pool's list. *)
Theorem lent_connections_are_exclusive name creds N T schedule s :
  run schedule (initial name creds N T) = Some s →
  NoDup (checkedOut s ++ connectionQueue (pool s))
  ∧ (∀ t1 t2 p1 p2 h,
       threads s !! t1 = Some p1 → threads s !! t2 = Some p2 →
       pc_handle p1 = Some h → pc_handle p2 = Some h → t1 = t2)
  ∧ (∀ t p h, threads s !! t = Some p → pc_handle p = Some h →
              h ∉ connectionQueue (pool s))
  ∧ (∀ h, h ∈ connectionQueue (pool s) → h ∈ connections (pool s))
  ∧ (∀ t h, threads s !! t = Some (Got h) ∨ threads s !! t = Some (Using h) →
            h ∈ connections (pool s)).
Proof.
  intros Hr. destruct (reachable_Inv _ _ _ _ _ _ Hr) as [Hs _].
  pose proof (Inv_exclusive s Hs) as Hnd.
  apply NoDup_app in Hnd as (Hout & Hdisj & Hq).
  split_and!.
  - apply NoDup_app. done.
  - intros t1 t2 p1 p2 h H1 H2 Hp1 Hp2.
    by apply (omap_NoDup_lookup pc_handle (threads s) Hout t1 t2 p1 p2 h).
  - intros t p h Ht Hp. apply Hdisj. apply elem_of_omap_lookup. eauto.
  - intros h Hin. apply (inv_sub s Hs). apply elem_of_app. by right.
  - intros t h Ht. apply (inv_sub s Hs). apply elem_of_app. left.
    apply elem_of_omap_lookup. destruct Ht as [Ht|Ht]; eauto.
Qed.

Lemma lent_connections_are_exclusive_witness :
  ∃ s, run [(0, Completes); (0, Completes); (0, Completes); (0, Completes);
            (0, Completes); (0, Completes); (0, Completes); (1, Completes);
            (2, Completes); (2, Completes); (2, Completes); (2, Completes)]
           (initial "query" None 2 3) = Some s
       ∧ threads s = [Outside; Got 0; Connected 1]
       ∧ NoDup (checkedOut s ++ connectionQueue (pool s)).
Proof.
  eexists. split; [vm_compute; reflexivity|]. split; [reflexivity|].
  eapply (lent_connections_are_exclusive "query" None 2 3
            [(0, Completes); (0, Completes); (0, Completes); (0, Completes);
             (0, Completes); (0, Completes); (0, Completes); (1, Completes);
             (2, Completes); (2, Completes); (2, Completes); (2, Completes)]).
  vm_compute. reflexivity.
Defined.

Lemma step_log t c s s' : Inv s → step t c s = Some s' → log s' = log s.
Proof.
  intros Hs. pose proof (inv_max s Hs) as Hmax.
  unfold step, getConnection_account, Connection_exit, returnConnection,
    failedConnection.
  intros Hstep. repeat case_match; simplify_eq; simpl; try done.
  all: try (match goal with H : (_ <? _)%Z = true |- _ => apply Z.ltb_lt in H; revert H end;
            unfold active_now; simpl; lia).
  all: try apply app_nil_r.
Qed.

Lemma step_activeCount t c s s' :
  step t c s = Some s' →
  activeCount (pool s') = activeCount (pool s)
  ∨ activeCount (pool s') = active_now (pool s').
Proof.
  unfold step, getConnection_account, Connection_exit, returnConnection,
    failedConnection.
  intros Hstep. repeat case_match; simplify_eq; simpl; auto.
Qed.

Lemma active_now_bound s :
  Inv s → (active_now (pool s) ≤ Z.of_nat (connectionMax (pool s)))%Z.
Proof. intros Hs. pose proof (inv_max s Hs). unfold active_now. lia. Qed.

Lemma quiet_run schedule : ∀ s s',
  Inv s →
  log s = [] → (activeCount (pool s) ≤ Z.of_nat (connectionMax (pool s)))%Z →
  run schedule s = Some s' →
  log s' = [] ∧ (activeCount (pool s') ≤ Z.of_nat (connectionMax (pool s')))%Z.
Proof.
  induction schedule as [|[t c] rest IH]; intros s s' Hs Hlog Hact; simpl.
  - by intros [= <-].
  - destruct (step t c s) as [s1|] eqn:Hstep; [|done].
    pose proof (Inv_step _ _ _ _ Hs Hstep) as Hs1.
    apply IH; [done| |].
    + by rewrite (step_log _ _ _ _ Hs Hstep).
    + destruct (step_activeCount _ _ _ _ Hstep) as [-> | ->].
      * by rewrite (step_connectionMax _ _ _ _ Hstep).
      * by apply active_now_bound.
Qed.

(** In every state the pool reaches: the error line for more active
    connections than the maximum has never been written and the gauge
    [activeCount] is at most the maximum; a thread with a connection in
    hand finds it in the pool's list, so that neither [index] in
    [getConnection] nor [remove] in [failedConnection] raises. *)
Theorem defensive_branches_are_dead name creds N T schedule s :
  run schedule (initial name creds N T) = Some s →
  log s = []
  ∧ (activeCount (pool s) ≤ Z.of_nat N)%Z
  ∧ (∀ t h, threads s !! t = Some (Got h) →
       is_Some (Py.index h (connections (pool s)))
       ∧ ∃ r, getConnection_account (poolStats s) (pool s) h = inr r)
  ∧ (∀ t h exc, threads s !! t = Some (Using h) →
       is_Some (Py.remove h (connections (pool s)))
       ∧ ∃ r, Connection_exit (poolStats s) (pool s) h exc = inr r).
Proof.
  intros Hr. destruct (reachable_Inv _ _ _ _ _ _ Hr) as [Hs HN].
  destruct (quiet_run schedule (initial name creds N T) s) as [Hlog Hact];
    [apply Inv_initial|done|simpl; lia|done|].
  assert (∀ t h, threads s !! t = Some (Got h) ∨ threads s !! t = Some (Using h) →
                 h ∈ connections (pool s)) as Hin.
  { intros t h Ht. apply (inv_sub s Hs). apply elem_of_app. left.
    apply elem_of_omap_lookup. destruct Ht as [Ht|Ht]; eauto. }
  split_and!.
  - done.
  - by rewrite <- HN.
  - intros t h Ht.
    destruct (index_Some h (connections (pool s))) as [i Hi]; [eauto|].
    split; [eauto|]. unfold getConnection_account. rewrite Hi. eauto.
  - intros t h exc Ht.
    destruct (remove_is_Some h (connections (pool s))) as [l Hl]; [eauto|].
    split; [eauto|]. unfold Connection_exit, failedConnection.
    destruct exc; [rewrite Hl|]; eauto.
Qed.

Lemma defensive_branches_are_dead_witness :
  ∃ s, run [(0, Completes); (0, Completes); (0, Completes); (0, Completes);
            (0, Completes); (0, Completes); (1, Completes); (1, Completes);
            (1, Completes); (0, Completes); (1, Completes)]
           (initial "query" None 1 2) = Some s
       ∧ threads s = [Outside; Got 0]
       ∧ log s = [].
Proof.
  eexists. split; [vm_compute; reflexivity|]. split; [reflexivity|].
  eapply (defensive_branches_are_dead "query" None 1 2
            [(0, Completes); (0, Completes); (0, Completes); (0, Completes);
             (0, Completes); (0, Completes); (1, Completes); (1, Completes);
             (1, Completes); (0, Completes); (1, Completes)]).
  vm_compute. reflexivity.
Defined.

Lemma Leaked_step t t' c s s' :
  Inv s → Leaked t s → step t' c s = Some s' → Leaked t s'.
Proof.
  intros Hs (d & Hlock & Hdepth). unfold step.
  destruct (threads s !! t') as [p|] eqn:Ht'; [|done].
  assert (t' < length (threads s)) as Hlt by (eapply lookup_lt_Some; eauto).
  destruct (decide (t' = t)) as [->|Hne].
  - (* the owner moves *)
    specialize (Hdepth p Ht').
    destruct p; simpl in *.
    + destruct (connectionQueue (pool s)); intros [= <-]; exists d; simpl;
        (split; [done|]); rewrite list_lookup_insert_eq by done;
        intros ? [= <-]; done.
    + rewrite Hlock. simpl. rewrite decide_True by done. intros [= <-].
      exists (S d). simpl. split; [done|]. intros; lia.
    + specialize (Hdepth eq_refl). case_decide.
      * intros [= <-]. exists d. simpl. split; [done|]. done.
      * rewrite Hlock. unfold RLock_release. rewrite decide_True by done.
        destruct d as [|d]; [lia|]. intros [= <-]. exists d. simpl.
        split; [done|]. rewrite list_lookup_insert_eq by done. intros ? [= <-]. done.
    + specialize (Hdepth eq_refl).
      destruct c; intros [= <-]; exists d; simpl; (split; [done|]); done.
    + specialize (Hdepth eq_refl). rewrite Hlock. unfold RLock_release.
      rewrite decide_True by done. destruct d as [|d]; [lia|]. intros [= <-].
      exists d. simpl. split; [done|].
      rewrite list_lookup_insert_eq by done. intros ? [= <-]. done.
    + destruct (connectionQueue (pool s)); [done|]. intros [= <-]. exists d. simpl.
      split; [done|]. rewrite list_lookup_insert_eq by done. intros ? [= <-]. done.
    + destruct (getConnection_account _ _ _) as [|[[? ?] ?]]; intros [= <-];
        exists d; simpl; (split; [done|]); rewrite list_lookup_insert_eq by done;
        intros ? [= <-]; done.
    + destruct (Connection_exit _ _ _ _) as [[? ?]|[? ?]]; intros [= <-];
        exists d; simpl; (split; [done|]); rewrite list_lookup_insert_eq by done;
        intros ? [= <-]; done.
  - (* another thread moves *)
    assert (in_critical p = false) as Hnc.
    { destruct (in_critical p) eqn:Hc; [|done].
      destruct (inv_owner s Hs _ _ Ht' Hc) as [d' Hd']. congruence. }
    destruct p; simpl in *; try done.
    + destruct (connectionQueue (pool s)); intros [= <-]; exists d; simpl;
        (split; [done|]); by rewrite list_lookup_insert_ne by done.
    + rewrite Hlock. simpl. by rewrite decide_False by done.
    + destruct (connectionQueue (pool s)); [done|]. intros [= <-]. exists d. simpl.
      split; [done|]. by rewrite list_lookup_insert_ne by done.
    + destruct (getConnection_account _ _ _) as [|[[? ?] ?]]; intros [= <-];
        exists d; simpl; (split; [done|]); by rewrite list_lookup_insert_ne by done.
    + destruct (Connection_exit _ _ _ _) as [[? ?]|[? ?]]; intros [= <-];
        exists d; simpl; (split; [done|]); by rewrite list_lookup_insert_ne by done.
Qed.

Lemma Leaked_run t schedule : ∀ s s',
  Inv s → Leaked t s → run schedule s = Some s' → Leaked t s'.
Proof.
  induction schedule as [|[t' c] rest IH]; intros s s' Hs Hl; simpl.
  - by intros [= <-].
  - destruct (step t' c s) as [s1|] eqn:Hstep; [|done].
    apply IH; [by eapply Inv_step|by eapply Leaked_step].
Qed.

(** When [_connect] raises inside [getConnection], the creation lock is
    not released: from then on it is owned by the thread that failed, every
    other thread that finds the queue empty stays blocked on the lock, and
    no other thread creates a connection. *)
Theorem failed_connect_keeps_create_lock name creds N T schedule s t c e s1 later s2 :
  run schedule (initial name creds N T) = Some s →
  threads s !! t = Some Connecting →
  exc_type c = Some e →
  step t c s = Some s1 →
  run later s1 = Some s2 →
  threads s1 !! t = Some Outside
  ∧ (∃ depth, connectionCreateLock s2 = Some (t, S depth))
  ∧ (∀ t' c', t' ≠ t → threads s2 !! t' = Some WantLock → step t' c' s2 = None)
  ∧ (∀ t' p, t' ≠ t → threads s2 !! t' = Some p → in_critical p = false).
Proof.
  intros Hr Ht Hc Hstep Hlater.
  destruct (reachable_Inv _ _ _ _ _ _ Hr) as [Hs _].
  pose proof (Inv_step _ _ _ _ Hs Hstep) as Hs1.
  pose proof (Inv_run _ _ _ Hs1 Hlater) as Hs2.
  assert (t < length (threads s)) as Hlt by (eapply lookup_lt_Some; eauto).
  destruct (inv_owner s Hs _ _ Ht eq_refl) as [d Hd].
  assert (threads s1 !! t = Some Outside ∧ Leaked t s1) as [Hout Hleak].
  { unfold step in Hstep. rewrite Ht in Hstep.
    destruct c; simpl in Hc; [done| |]; injection Hstep as <-; simpl;
      (split; [by rewrite list_lookup_insert_eq by done|]);
      exists d; simpl; (split; [done|]);
      rewrite list_lookup_insert_eq by done; intros ? [= <-]; done. }
  destruct (Leaked_run t later s1 s2 Hs1 Hleak Hlater) as (d2 & Hd2 & _).
  split_and!.
  - done.
  - eauto.
  - intros t' c' Hne Hw. unfold step. rewrite Hw, Hd2. simpl.
    by rewrite decide_False by done.
  - intros t' p Hne Hp. destruct (in_critical p) eqn:Hcrit; [|done].
    destruct (inv_owner s2 Hs2 _ _ Hp Hcrit) as [d' Hd']. congruence.
Qed.

Lemma failed_connect_keeps_create_lock_witness :
  ∃ s s1 s2,
    run [(0, Completes); (0, Completes); (0, Completes)]
        (initial "query" None 1 2) = Some s
    ∧ threads s !! 0 = Some Connecting
    ∧ step 0 (Raises (LdapExc SERVER_DOWN)) s = Some s1
    ∧ run [(1, Completes)] s1 = Some s2
    ∧ threads s2 = [Outside; WantLock]
    ∧ step 1 Completes s2 = None.
Proof.
  eexists _, _, _.
  split; [vm_compute; reflexivity|].
  split; [reflexivity|].
  split; [vm_compute; reflexivity|].
  split; [vm_compute; reflexivity|].
  split; [reflexivity|].
  refine (proj1 (proj2 (proj2
    (failed_connect_keeps_create_lock "query" None 1 2
       [(0, Completes); (0, Completes); (0, Completes)] _ 0
       (Raises (LdapExc SERVER_DOWN)) (LdapExc SERVER_DOWN) _
       [(1, Completes)] _ _ _ _ _ _))) 1 Completes _ _).
  - vm_compute; reflexivity.
  - reflexivity.
  - reflexivity.
  - vm_compute; reflexivity.
  - vm_compute; reflexivity.
  - lia.
  - reflexivity.
Defined.

End PoolLending.

(** ** Values that do not decode *)

Section decode_facts.
Context `{!Library} (ds : DirectoryService).

Lemma mapM_fails {A B} (f : A → option B) (l : list A) (x : A) :
  x ∈ l → f x = None → mapM f l = None.
Proof.
  intros Hin Hx. destruct (mapM f l) eqn:Hm; [|done].
  assert (is_Some (mapM f l)) as Hs by eauto.
  apply mapM_is_Some in Hs. rewrite Forall_forall in Hs.
  destruct (Hs x Hin) as [y Hy]. simpl in Hy. congruence.
Qed.

Lemma applyRules_raises fieldName attributeRules attributeRule recordData :
  attributeRule ∈ attributeRules →
  (∀ fields, ∃ e, (applyRule fieldName attributeRule recordData fields).2 = inl e) →
  ∀ fields, ∃ e, (applyRules fieldName attributeRules recordData fields).2 = inl e.
Proof.
  intros Hin Hbad. induction attributeRules as [|r rs IH]; intros fields.
  - by apply not_elem_of_nil in Hin.
  - simpl. rewrite and_then_snd.
    destruct (applyRule fieldName r recordData fields).2 as [e|fields'] eqn:Hr;
      [eauto|].
    apply elem_of_cons in Hin as [->|Hin].
    + destruct (Hbad fields) as [e He]. congruence.
    + by apply IH.
Qed.

Lemma populateFields_raises map fieldName attributeRules recordData :
  (fieldName, attributeRules) ∈ map →
  (∀ fields, ∃ e, (applyRules fieldName attributeRules recordData fields).2 = inl e) →
  ∀ fields, ∃ e, (populateFields map recordData fields).2 = inl e.
Proof.
  intros Hin Hbad. induction map as [|[f rs] map IH]; intros fields.
  - by apply not_elem_of_nil in Hin.
  - simpl. rewrite and_then_snd.
    destruct (applyRules f rs recordData fields).2 as [e|fields'] eqn:Hr; [eauto|].
    apply elem_of_cons in Hin as [Heq|Hin].
    + injection Heq as <- <-. destruct (Hbad fields) as [e He]. congruence.
    + by apply IH.
Qed.

Lemma undecodable_populateFields recordData :
  undecodable ds recordData →
  ∀ fields, ∃ e, (populateFields (_fieldNameToAttributesMap ds) recordData fields).2 = inl e.
Proof.
  intros (fieldName & rules & rule & raw & v & Hmap & Hrule & Hty & Hraw & Hv & Hdec).
  apply (populateFields_raises _ fieldName rules); [done|].
  apply (applyRules_raises _ _ rule); [done|].
  intros fields. exists UnicodeDecodeError. unfold applyRule.
  rewrite Hraw, Hty. by rewrite (mapM_fails _ _ v Hv Hdec).
Qed.

Lemma mapEntry_given recordType entry lines recordType' record :
  mapEntry ds (Some recordType) entry = (lines, inr (recordType', record)) →
  recordType' = Some recordType.
Proof.
  destruct entry as [dn recordData]. unfold mapEntry. simpl.
  intros (l1 & fields & l2 & _ & Hk & _)%and_then_inr.
  repeat case_match; by simplify_eq.
Qed.

Lemma _recordsFromReply_loop_raises reply recordType dn recordData :
  (dn, recordData) ∈ reply →
  undecodable ds recordData →
  ∀ records, ∃ e, (_recordsFromReply_loop ds reply (Some recordType) records).2 = inl e.
Proof.
  intros Hin Hbad. induction reply as [|entry rest IH]; intros records.
  - by apply not_elem_of_nil in Hin.
  - cbn [_recordsFromReply_loop]. rewrite and_then_snd.
    destruct (mapEntry ds (Some recordType) entry) as [lines [e|[rt record]]] eqn:Hm;
      simpl; [eauto|].
    apply mapEntry_given in Hm as Hrt. subst rt.
    apply elem_of_cons in Hin as [<-|Hin]; [|by apply IH].
    exfalso. unfold mapEntry in Hm. simpl in Hm.
    apply and_then_inr in Hm as (l1 & fields & l2 & Hpop & _).
    destruct (undecodable_populateFields recordData Hbad ∅) as [e He].
    rewrite Hpop in He. done.
Qed.

(** The mapper is all or nothing.  When the caller names the record type
    (as the query executor does for each search), one entry with a value
    that does not decode as UTF-8 under an attribute of a text field makes
    [_recordsFromReply] raise for the whole reply: the records of the other
    entries are not returned. *)
Theorem undecodable_value_fails_whole_reply (reply : list RawEntry)
    (recordType dn : string) (recordData : gmap string RawValue) :
  (dn, recordData) ∈ reply →
  undecodable ds recordData →
  ∃ e, (_recordsFromReply ds reply (Some recordType)).2 = inl e.
Proof. intros Hin Hbad. by apply (_recordsFromReply_loop_raises reply recordType dn recordData). Qed.

End decode_facts.

(** ** Getting a connection, and binds that are refused *)

Section more_executor_facts.
Context `{!Library} (srv : Server) (ds : DirectoryService).

Lemma index_app_new {A} `{EqDecision A} (x : A) (l : list A) :
  is_Some (Py.index x (l ++ [x])).
Proof.
  destruct (Py.index x (l ++ [x])) eqn:Hi; [eauto|].
  apply index_None in Hi. destruct Hi. apply elem_of_app. right. by left.
Qed.

(** A lone caller of [getConnection] blocks exactly when no connection
    is idle and the pool's list is full; the one trace of the call is then
    the pool's blocked counter, one higher.  In every other case the call
    returns or raises. *)
Theorem getConnection_blocks_iff (k : PoolKey) (w : World) :
  ((getConnection srv ds k w).1 = Hang ↔
   connectionQueue (pool_of k w) = []
   ∧ connectionMax (pool_of k w) ≤ length (connections (pool_of k w)))
  ∧ ((getConnection srv ds k w).1 = Hang →
     (getConnection srv ds k w).2
     = mkWorld (queryPool w) (authPool w)
         (stat_incr (poolStats w) (key_of (pool_of k w) "blocked")) (log w)).
Proof.
  unfold getConnection, _connect, _newConnection, simple_bind_s, try_except,
    get_pool, put_pool, get_stats, put_stats, history, emit, emit_all, hang, raise,
    mbind, M_bind, mret, M_ret, pool_of.
  destruct k; simpl.
  all: destruct (connectionQueue _) as [|c q] eqn:Hq; simpl.
  all: try case_decide; simpl.
  all: repeat (case_match; simpl in *; simplify_eq; try done).
  all: try (split; [split; [done|intros [? ?]; lia]|done]).
  all: try (split; [split; [done|intros [? ?]; done]|done]).
  all: try (split; [split; [intros _; split; [done|lia]|done]|done]).
Qed.

(** When [getConnection] raises, for a pool whose idle connections are
    all in its list, it is [_connect] that raised, while making a
    connection for an empty queue: the pool's list, queue and gauge and the
    counters are as before. *)
Theorem getConnection_failure_adds_nothing (k : PoolKey) (w : World) (e : exn)
    (w' : World) :
  (∀ h, h ∈ connectionQueue (pool_of k w) → h ∈ connections (pool_of k w)) →
  getConnection srv ds k w = (Raise e, w') →
  connectionQueue (pool_of k w) = []
  ∧ length (connections (pool_of k w)) < connectionMax (pool_of k w)
  ∧ connections (pool_of k w') = connections (pool_of k w)
  ∧ connectionQueue (pool_of k w') = []
  ∧ activeCount (pool_of k w') = activeCount (pool_of k w)
  ∧ poolStats w' = poolStats w
  ∧ _connect srv ds k w = (Raise e, w').
Proof.
  intros Hsub. unfold getConnection.
  unfold mbind at 1. unfold M_bind at 1. unfold get_pool at 1.
  fold (pool_of k w).
  destruct (connectionQueue (pool_of k w)) as [|c q] eqn:Hq.
  - case_decide as Hroom.
    + unfold mbind at 1. unfold M_bind at 1. unfold mbind at 1. unfold M_bind at 1.
      destruct (_connect srv ds k w) as [[c|e'|] w1] eqn:Hc.
      * 
        unfold getConnection_account, get_pool, put_pool, get_stats, put_stats,
          emit_all, raise, mbind, M_bind, mret, M_ret.
        destruct k; simpl;
          match goal with |- context [Py.index c (?l ++ [c])] =>
            destruct (index_app_new c l) as [i ->] end; done.
      * intros [= <- <-]. revert Hc.
        unfold _connect, _newConnection, simple_bind_s, try_except,
          get_pool, put_pool, get_stats, put_stats, history, emit, emit_all, raise,
          mbind, M_bind, mret, M_ret, pool_of in *.
        destruct k; simpl in *;
          repeat (case_match; simpl in *; simplify_eq; try done);
          intros; simplify_eq; simpl; rewrite ?Hq; done.
      * done.
    + unfold get_stats, put_stats, hang, mbind, M_bind. done.
  - 
    assert (c ∈ connections (pool_of k w)) as Hin by (apply Hsub; left).
    destruct (index_Some c _ Hin) as [i Hi].
    unfold getConnection_account, get_pool, put_pool, get_stats, put_stats,
      emit_all, raise, mbind, M_bind, mret, M_ret, pool_of in *.
    destruct k; simpl in *; rewrite Hi; done.
Qed.

Lemma authenticate_try_refused dn password c w e :
  on_simple_bind srv (log w) c dn password = Some e →
  is_SERVER_DOWN e = false →
  ∃ lines,
    authenticate_try srv dn password None c w
    = (Ok (Return false), append_log (EvBind c dn password :: (EvLog <$> lines)) w)
    ∧ (e ∈ [LdapExc INAPPROPRIATE_AUTH; LdapExc INVALID_CREDENTIALS;
            LdapExc INVALID_DN_SYNTAX] → lines = [])
    ∧ (e = LdapExc CONSTRAINT_VIOLATION → lines = [LogAccountLocked dn])
    ∧ length lines ≤ 1.
Proof.
  intros Hbind Hdown.
  assert (∀ x : exn, x ∈ [LdapExc INAPPROPRIATE_AUTH; LdapExc INVALID_CREDENTIALS;
                          LdapExc INVALID_DN_SYNTAX] →
                     x = LdapExc INAPPROPRIATE_AUTH ∨ x = LdapExc INVALID_CREDENTIALS
                     ∨ x = LdapExc INVALID_DN_SYNTAX) as Hthree.
  { intros x Hx. repeat (apply elem_of_cons in Hx as [->|Hx]; [tauto|]).
    by apply not_elem_of_nil in Hx. }
  unfold authenticate_try, try_except_else, simple_bind_s, log_line.
  unfold mbind, M_bind, history, emit, append_log. simpl. rewrite Hbind. simpl.
  destruct e as [[]| | | | | | | | | | ]; simpl in Hdown; try done; simpl.
  all: first
    [ exists []; split_and!; [done|done|done|simpl; lia]
    | eexists [_]; split_and!;
      [ simpl; by rewrite <- app_assoc
      | intros [?|[?|?]]%Hthree; done
      | try done; by intros [= ->]
      | simpl; lia ] ].
Qed.

(** A bind that fails for any reason other than [ldap.SERVER_DOWN] ends
    the verification at once with [False]: nothing is retried, at most one
    line is logged (none for wrong credentials), and since the exception is
    handled inside the [with] block the connection goes back to the queue
    of the auth pool and stays in its list. *)
Theorem refused_bind_answers_False (remaining retryNumber : nat) (dn password : string)
    (w : World) (c : handle) (w1 : World) (e : exn) :
  getConnection srv ds auth w = (Ok c, w1) →
  on_simple_bind srv (log w1) c dn password = Some e →
  is_SERVER_DOWN e = false →
  ∃ w' lines,
    authenticate_retry srv ds (S remaining) retryNumber dn password None w
    = (Ok (Some false), w')
    ∧ log w' = log w1 ++ EvBind c dn password :: (EvLog <$> lines)
    ∧ length lines ≤ 1
    ∧ (e ∈ [LdapExc INAPPROPRIATE_AUTH; LdapExc INVALID_CREDENTIALS;
            LdapExc INVALID_DN_SYNTAX] → lines = [])
    ∧ (e = LdapExc CONSTRAINT_VIOLATION → lines = [LogAccountLocked dn])
    ∧ connectionQueue (authPool w') = connectionQueue (authPool w1) ++ [c]
    ∧ connections (authPool w') = connections (authPool w1).
Proof.
  intros Hget Hbind Hdown.
  destruct (authenticate_try_refused dn password c w1 e Hbind Hdown)
    as (lines & Htry & Hnone & Hlocked & Hlen).
  cbn [authenticate_retry]. unfold mbind at 1. unfold M_bind at 1. simpl.
  rewrite (with_Connection_Ok _ _ _ _ _ _ _ _ _ Hget Htry).
  unfold Connection___exit__, Connection_exit, returnConnection.
  eexists _, lines. split; [reflexivity|]. simpl. done.
Qed.

End more_executor_facts.

(** ** The limit on results *)

Section limit_facts.
Context `{!Library} (srv : Server) (ds : DirectoryService).

Lemma _recordsFromReply_length reply recordType lines records :
  _recordsFromReply ds reply recordType = (lines, inr records) →
  length records ≤ length reply.
Proof.
  intros Hr. apply _recordsFromReply_loop_inr in Hr as (new & -> & Hlen & _).
  simpl. etrans; [done|]. apply length_filter.
Qed.

Lemma query_recordTypes_limit c queryString timeoutSeconds :
  honours_sizelimit srv →
  ∀ recordTypes (l : Z) records w limit' records' r w',
    query_recordTypes srv ds c queryString timeoutSeconds recordTypes (Some l) records w
    = ((limit', records', r), w') →
    ∃ added (l' : Z),
      records' = records ++ added ∧ limit' = Some l'
      ∧ (Z.of_nat (length added) + Z.max 0 l' ≤ Z.max 0 l)%Z.
Proof.
  intros Hsrv. induction recordTypes as [|recordType rest IH];
    intros l records w limit' records' r w'.
  - simpl. intros [= <- <- <- <-]. exists [], l. rewrite app_nil_r. simpl.
    split_and!; try done; lia.
  - cbn [query_recordTypes].
    case_bool_decide as Hlt.
    { intros [= <- <- <- <-]. exists [], l. rewrite app_nil_r. simpl.
      split_and!; try done; lia. }
    set (stay := λ (x : option Z * list DirectoryRecord * Res unit * World),
           x = (limit', records', r, w') →
           ∃ added (l' : Z), records' = records ++ added ∧ limit' = Some l'
                             ∧ (Z.of_nat (length added) + Z.max 0 l' ≤ Z.max 0 l)%Z).
    assert (∀ res w0, stay (Some l, records, res, w0)) as Hstay.
    { intros res w0 [= <- <- <- <-]. exists [], l. rewrite app_nil_r. simpl.
      split_and!; try done; lia. }
    assert (∀ w0, stay (query_recordTypes srv ds c queryString timeoutSeconds rest
                          (Some l) records w0)) as Hnext.
    { intros w0 Heq. by apply (IH _ _ _ _ _ _ _ Heq). }
    match goal with |- ?x = _ → _ => change (stay x) end.
    destruct (recordType ≫= _) as [[rt schema]|]; [|apply Hnext].
    destruct (str2dn (Py.lower (relativeDN schema))) as [rdn|]; [|apply Hstay].
    destruct (str2dn (Py.lower (_baseDN ds))) as [base|]; [|apply Hstay].
    simpl default.
    set (outcome := on_search srv _ _ _ _ _ _).
    set (w1 := append_log _ w).
    assert (∀ w0, stay
              match logged (_recordsFromReply ds (allResults outcome) (Some rt)) w0 with
              | (Ok newRecords, w2) =>
                  query_recordTypes srv ds c queryString timeoutSeconds rest
                    ((λ l0, l0 - Z.of_nat (length newRecords))%Z <$> Some l)
                    (records ++ newRecords) w2
              | (Raise e, w2) => (Some l, records, Raise e, w2)
              | (Hang, w2) => (Some l, records, Hang, w2)
              end) as Hproceed.
    { intros w0. unfold logged, emit_all, raise, mbind, M_bind, mret, M_ret.
      destruct (_recordsFromReply ds (allResults outcome) (Some rt))
        as [lines [e|newRecords]] eqn:Hmap; simpl; [apply Hstay|].
      apply _recordsFromReply_length in Hmap.
      assert (Z.of_nat (length (allResults outcome)) ≤ l)%Z as Hsize.
      { apply Hsrv. lia. }
      intros Heq.
      destruct (IH (l - Z.of_nat (length newRecords))%Z _ _ _ _ _ _ Heq)
        as (added & l' & -> & -> & Hsum).
      exists (newRecords ++ added), l'. rewrite app_assoc.
      split_and!; try done. rewrite length_app. lia. }
    destruct (raised outcome) as [e|]; [|apply Hproceed].
    destruct e as [[]| | | | | | | | | | ]; first [apply Hproceed|apply Hstay|apply Hnext].
Qed.

Lemma query_retry_limit queryString recordTypes timeoutSeconds testStats (L : Z) :
  honours_sizelimit srv →
  ∀ remaining retryNumber (l : Z) records w out w',
    (Z.max 0 l ≤ L)%Z →
    (∀ rs, records = Some rs → (Z.of_nat (length rs) ≤ L)%Z) →
    query_retry srv ds remaining retryNumber queryString recordTypes timeoutSeconds
      testStats (Some l) records w = (Ok out, w') →
    (Z.of_nat (length out) ≤ L)%Z.
Proof.
  intros Hsrv. induction remaining as [|remaining IH];
    intros retryNumber l records w out w' Hl Hrs.
  - simpl. destruct records as [rs|]; [|done]. intros [= <- <-]. by apply Hrs.
  - cbn [query_retry].
    set (w0 := (testStats_retryNumber testStats retryNumber w).2).
    assert (∀ e (l1 : Z) rs w1,
              (Z.max 0 l1 ≤ L)%Z → (Z.of_nat (length rs) ≤ L)%Z →
              (if is_SERVER_DOWN e
               then
                 if decide (retryNumber + 1 = _tries ds)
                 then (Raise (LDAPQueryError "LDAP server down" e),
                       append_log [EvLog LogServerUnavailable] w1)
                 else query_retry srv ds remaining (S retryNumber) queryString recordTypes
                        timeoutSeconds testStats (Some l1) (Some rs)
                        (append_log [EvLog LogRetrying]
                           (append_log [EvLog LogServerUnavailable] w1))
               else (Raise e, w1)) = (Ok out, w') →
              (Z.of_nat (length out) ≤ L)%Z) as Hraise.
    { intros e l1 rs w1 Hl1 Hlen. destruct (is_SERVER_DOWN e); [|done].
      case_decide; [done|]. apply IH; [done|]. by intros ? [= <-]. }
    destruct (getConnection srv ds query w0) as [[c|e|] w1].
    + destruct (query_recordTypes srv ds c queryString timeoutSeconds recordTypes
                  (Some l) [] w1) as [[[limit' records'] r] w2] eqn:Hq.
      apply (query_recordTypes_limit _ _ _ Hsrv) in Hq
        as (added & l' & -> & -> & Hsum). simpl.
      destruct (Connection___exit__ query c r w2) as [[[]|e|] w3].
      * intros [= <- <-]. lia.
      * apply Hraise; lia.
      * done.
    + apply Hraise; [done|simpl; lia].
    + done.
Qed.

(** [limitResults] is an upper bound on what a query returns, as long as
    the server returns no more entries than the size limit it is given:
    the limit left is passed as the size limit of each search, the records
    mapped from a reply are subtracted from it, and no search is made once
    it is below one. *)
Theorem limitResults_bounds_the_result (queryString : string)
    (recordTypes : option (list (option string))) (limitResults : Z)
    (timeoutSeconds : option Z) (testStats : TestStats) (w : World)
    (records : list DirectoryRecord) (w' : World) :
  honours_sizelimit srv →
  (_recordsFromQueryString_inThread srv ds queryString recordTypes (Some limitResults)
     timeoutSeconds testStats w = (Ok records, w')
   ∨ _recordsFromQueryString srv ds queryString recordTypes (Some limitResults)
       timeoutSeconds w = (Ok records, w')) →
  (Z.of_nat (length records) ≤ Z.max 0 limitResults)%Z.
Proof.
  intros Hsrv [Hrun|Hrun].
  - unfold _recordsFromQueryString_inThread in Hrun.
    eapply (query_retry_limit _ _ _ _ _ Hsrv); [| |exact Hrun]; done.
  - unfold _recordsFromQueryString, deferToThreadPool, _recordsFromQueryString_inThread,
      log_line, emit, history, get_stats, put_stats, mbind, M_bind, mret, M_ret in Hrun.
    simpl in Hrun. case_decide; simpl in Hrun.
    all: eapply (query_retry_limit _ _ _ _ _ Hsrv); [| |exact Hrun]; done.
Qed.

End limit_facts.

(** ** The properties above, on the sample configuration *)

Lemma undecodable_value_fails_whole_reply_witness :
  ∃ e, (_recordsFromReply Sample.service [Sample.bob; Sample.garbled] (Some "user")).2
       = inl e.
Proof.
  apply (undecodable_value_fails_whole_reply Sample.service
           [Sample.bob; Sample.garbled] "user" Sample.garbled.1 Sample.garbled.2).
  - right. left.
  - exists BaseFieldName.fullNames, ["cn"], "cn", (RawOne (String "200"%char "")),
      (String "200"%char "").
    split_and!.
    + repeat constructor.
    + left.
    + reflexivity.
    + vm_compute. reflexivity.
    + left.
    + reflexivity.
Defined.

Lemma getConnection_failure_adds_nothing_witness :
  ∃ w',
    getConnection Sample.server_refusing Sample.service_bound query
      (World_init Sample.service_bound 5 5)
    = (Raise (LDAPBindAuthError "cn=service,dc=example,dc=com"
                (LdapExc INVALID_CREDENTIALS)), w')
    ∧ connections (pool_of query w') = [].
Proof.
  eexists. split; [vm_compute; reflexivity|].
  refine (proj1 (proj2 (proj2
    (getConnection_failure_adds_nothing Sample.server_refusing Sample.service_bound
       query (World_init Sample.service_bound 5 5)
       (LDAPBindAuthError "cn=service,dc=example,dc=com" (LdapExc INVALID_CREDENTIALS))
       _ _ _)))).
  - intros h Hh. by apply not_elem_of_nil in Hh.
  - vm_compute. reflexivity.
Defined.

Lemma refused_bind_answers_False_witness :
  ∃ w' lines,
    _authenticateUsernamePassword_inThread Sample.server_refusing Sample.service
      "uid=bob,ou=person,dc=example,dc=com" "guess" None Sample.world
    = (Ok (Some false), w')
    ∧ log w' = [EvInitialize 0; EvBind 0 "uid=bob,ou=person,dc=example,dc=com" "guess"]
               ++ (EvLog <$> lines)
    ∧ lines = [].
Proof.
  destruct (refused_bind_answers_False Sample.server_refusing Sample.service 2 0
              "uid=bob,ou=person,dc=example,dc=com" "guess" Sample.world 0
              (getConnection Sample.server_refusing Sample.service auth Sample.world).2
              (LdapExc INVALID_CREDENTIALS))
    as (w' & lines & Hrun & Hlog & _ & Hnone & _).
  - vm_compute. reflexivity.
  - reflexivity.
  - reflexivity.
  - exists w', lines. split; [exact Hrun|]. split.
    + rewrite Hlog. reflexivity.
    + apply Hnone. right. left.
Defined.

Lemma honours_sizelimit_server_bob : honours_sizelimit Sample.server_bob.
Proof. intros h c base filter timeout sizelimit Hpos. simpl. lia. Qed.

Lemma limitResults_bounds_the_result_witness :
  ∃ records w',
    _recordsFromQueryString_inThread Sample.server_bob Sample.service "(uid=bob)"
      None (Some 1%Z) None None Sample.world = (Ok records, w')
    ∧ length records = 1
    ∧ (Z.of_nat (length records) ≤ Z.max 0 1)%Z.
Proof.
  eexists _, _. split; [vm_compute; reflexivity|]. split; [reflexivity|].
  eapply (limitResults_bounds_the_result Sample.server_bob Sample.service "(uid=bob)"
            None 1%Z None None Sample.world).
  - exact honours_sizelimit_server_bob.
  - left. vm_compute. reflexivity.
Defined.

Lemma unclassified_entries_are_dropped_witness :
  _recordsFromReply Sample.service
    [("cn=stray,dc=example,dc=com", {["cn" := RawOne "Stray"]})] None
  = ([], inr []).
Proof.
  apply (unclassified_entries_are_dropped Sample.service).
  intros dn recordData Hin. apply list_elem_of_singleton in Hin.
  injection Hin as -> ->. vm_compute. reflexivity.
Defined.

(** ** Group membership: what is asked of the server *)

Section member_facts.
Context `{!Library} (srv : Server) (ds : DirectoryService).







Lemma members_faultByDN_each faultByDN : ∀ members w out w',
  members_faultByDN srv ds faultByDN members w = (Ok out, w') →
  ∃ found,
    out = members ++ found
    ∧ Forall2 (λ dnStr member,
                 ∃ w0 w1, _recordWithDN srv ds (Py.replace "+"%char "\+" dnStr) w0
                          = (Ok member, w1))
              faultByDN found.
Proof.
  induction faultByDN as [|dnStr rest IH]; intros members w out w'.
  - simpl. intros [= <- <-]. exists []. by rewrite app_nil_r.
  - cbn [members_faultByDN]. unfold mbind at 1. unfold M_bind at 1.
    destruct (_recordWithDN srv ds (Py.replace "+"%char "\+" dnStr) w)
      as [[member|e|] w1] eqn:Hone; [|done|done].
    intros (found & -> & Hall)%IH.
    exists (member :: found). split; [by rewrite <- app_assoc|].
    constructor; [eauto|done].
Qed.

(** The member DNs that cannot be grouped are looked up one by one, in
    order, with every plus sign escaped; what each lookup answers is added
    to the members as it is.  A lookup that finds nothing answers [None],
    and [None] is then among the members. *)
Theorem ungroupable_members_one_lookup_each (record : DirectoryRecord) (w : World)
    (out : list (option DirectoryRecord)) (w' : World) :
  fields record !! fieldName_recordType = Some (FConstant "group") →
  (∀ dnStr, dnStr ∈ memberDNs record → member_fieldValue ds dnStr = None) →
  members srv ds record w = (Ok out, w') →
  Forall2 (λ dnStr member,
             ∃ w0 w1, _recordWithDN srv ds (Py.replace "+"%char "\+" dnStr) w0
                      = (Ok member, w1))
          (memberDNs record) out.
Proof.
  intros Hgroup Hall. unfold members. rewrite decide_True by done.
  assert (∀ l byType faultByDN,
            (∀ dnStr, dnStr ∈ l → member_fieldValue ds dnStr = None) →
            members_scan ds l byType faultByDN = (byType, faultByDN ++ l)) as Hscan.
  { induction l as [|d l IH]; intros byType faultByDN Hl; simpl.
    - by rewrite app_nil_r.
    - rewrite (Hl d) by left. rewrite IH by (intros; apply Hl; by right).
      by rewrite <- app_assoc. }
  rewrite (Hscan _ [] [] Hall). simpl.
  unfold mbind at 1. unfold M_bind at 1. simpl.
  intros (found & -> & Hfound)%members_faultByDN_each. done.
Qed.

End member_facts.

(** ** The record type across a reply, and a service without tries *)

Section sticky_facts.
Context `{!Library} (srv : Server) (ds : DirectoryService).

Lemma _recordsFromReply_loop_given reply : ∀ recordType acc lines records,
  _recordsFromReply_loop ds reply (Some recordType) acc = (lines, inr records) →
  ∃ new, records = acc ++ new
         ∧ ∀ record, record ∈ new →
             fields record !! fieldName_recordType = Some (FConstant recordType).
Proof.
  induction reply as [|[dn recordData] rest IH]; intros recordType acc lines records.
  - simpl. intros [= <- <-]. exists []. rewrite app_nil_r. split; [done|].
    intros ? Hin. by apply not_elem_of_nil in Hin.
  - cbn [_recordsFromReply_loop].
    intros (l1 & [recordType1 record] & l2 & Hentry & Hrest & _)%and_then_inr.
    apply mapEntry_inr in Hentry as [Hres Hrecord].
    rewrite resolveRecordType_given in Hres. injection Hres as <-.
    apply IH in Hrest as (new & -> & Hnew).
    destruct record as [r|].
    + destruct Hrecord as (resolved & fields0 & dn' & [= <-] & _ & _ & _ & Hfields).
      exists (r :: new). split; [by rewrite <- app_assoc|].
      intros record [->|Hin]%elem_of_cons; [|by apply Hnew].
      rewrite Hfields. rewrite lookup_insert_ne by done. by rewrite lookup_insert_eq.
    + exists new. split; [by rewrite app_nil_r|done].
Qed.

(** The record type found for one entry is kept for the entries after it.
    When [_recordsFromReply] is not told the record type, the first entry
    of the reply for which one is found, by DN or by attributes, sets the
    variable [recordType], and every record of the reply is given that
    type, whatever the DN and the attributes of the later entries are. *)
Theorem first_resolved_type_sticks (before : list RawEntry) (entry : RawEntry)
    (after : list RawEntry) (recordType : string) (lines : list Event)
    (records : list DirectoryRecord) :
  (∀ dn recordData, (dn, recordData) ∈ before →
     resolveRecordType ds None dn recordData = inr None) →
  resolveRecordType ds None entry.1 entry.2 = inr (Some recordType) →
  _recordsFromReply ds (before ++ entry :: after) None = (lines, inr records) →
  ∀ record, record ∈ records →
    fields record !! fieldName_recordType = Some (FConstant recordType).
Proof.
  intros Hbefore Hentry. unfold _recordsFromReply.
  assert (∀ acc : list DirectoryRecord,
            (∀ record, record ∈ acc →
               fields record !! fieldName_recordType = Some (FConstant recordType)) →
            _recordsFromReply_loop ds (before ++ entry :: after) None acc
            = (lines, inr records) →
            ∀ record, record ∈ records →
              fields record !! fieldName_recordType = Some (FConstant recordType))
    as Hgen.
  { revert lines. induction before as [|[dn recordData] before IH]; intros lines acc Hacc.
    - destruct entry as [dn recordData]. cbn [fst snd] in Hentry.
      cbn [app _recordsFromReply_loop].
      intros (l1 & [recordType1 record] & l2 & Hmap & Hrest & _)%and_then_inr.
      apply mapEntry_inr in Hmap as [Hres Hrecord].
      rewrite Hentry in Hres. injection Hres as <-.
      apply _recordsFromReply_loop_given in Hrest as (new & -> & Hnew).
      intros r [[Hin|Hin]%elem_of_app|Hin]%elem_of_app; [by apply Hacc| |by apply Hnew].
      destruct record as [r0|]; [|by apply not_elem_of_nil in Hin].
      apply list_elem_of_singleton in Hin as ->.
      destruct Hrecord as (resolved & fields0 & dn' & [= <-] & _ & _ & _ & Hfields).
      rewrite Hfields. rewrite lookup_insert_ne by done. by rewrite lookup_insert_eq.
    - cbn [app _recordsFromReply_loop]. unfold mapEntry.
      rewrite (Hbefore dn recordData) by left. unfold and_then.
      destruct (_recordsFromReply_loop ds (before ++ entry :: after) None (acc ++ []))
        as [l2 r2] eqn:Hloop.
      intros [= <- ->]. revert Hloop. rewrite app_nil_r.
      apply IH; [|done]. intros dn0 d0 Hin. apply Hbefore. by right. }
  apply Hgen. intros ? Hin. by apply not_elem_of_nil in Hin.
Qed.

(** With [_tries] set to zero the retry loops have no turn: a password
    check answers [None], neither [True] nor [False]; a lookup by DN
    answers [None]; and a query fails on the variable [records], which is
    bound inside the loop only.  Nothing is sent to the server. *)
Theorem no_tries_no_attempt (dn password queryString : string)
    (recordTypes : option (list (option string))) (limitResults timeoutSeconds : option Z)
    (testStats : TestStats) (w : World) :
  _tries ds = 0 →
  _authenticateUsernamePassword_inThread srv ds dn password testStats w = (Ok None, w)
  ∧ _recordWithDN_inThread srv ds dn testStats w = (Ok None, w)
  ∧ _recordsFromQueryString_inThread srv ds queryString recordTypes limitResults
      timeoutSeconds testStats w = (Raise UnboundLocalError, w).
Proof.
  intros Hzero.
  unfold _authenticateUsernamePassword_inThread, _recordWithDN_inThread,
    _recordsFromQueryString_inThread.
  rewrite Hzero. done.
Qed.

End sticky_facts.


Lemma ungroupable_members_one_lookup_each_witness :
  ∃ w',
    members Sample.server_up Sample.service Sample.broken_group Sample.world
    = (Ok [None], w')
    ∧ Forall2 (λ dnStr member,
                 ∃ w0 w1,
                   _recordWithDN Sample.server_up Sample.service
                     (Py.replace "+"%char "\+" dnStr) w0 = (Ok member, w1))
              (memberDNs Sample.broken_group) [None].
Proof.
  assert (memberDNs Sample.broken_group = ["nonsense"]) as Hm
    by (vm_compute; reflexivity).
  eexists. split; [vm_compute; reflexivity|].
  eapply (ungroupable_members_one_lookup_each Sample.server_up Sample.service
            Sample.broken_group Sample.world [None]).
  - vm_compute. reflexivity.
  - intros dnStr Hin. rewrite Hm in Hin. apply list_elem_of_singleton in Hin.
    subst dnStr. vm_compute. reflexivity.
  - vm_compute. reflexivity.
Defined.

Lemma first_resolved_type_sticks_witness :
  ∃ lines r1 r2,
    _recordsFromReply Sample.service [Sample.bob; Sample.staff] None
    = (lines, inr [r1; r2])
    ∧ fields r2 !! fieldName_recordType = Some (FConstant "user").
Proof.
  eexists _, _, _. split; [vm_compute; reflexivity|].
  eapply (first_resolved_type_sticks Sample.service [] Sample.bob [Sample.staff] "user").
  - intros dn recordData Hin. by apply not_elem_of_nil in Hin.
  - vm_compute. reflexivity.
  - vm_compute. reflexivity.
  - right. left.
Defined.

Lemma no_tries_no_attempt_witness :
  _recordsFromQueryString_inThread Sample.server_bob Sample.service_no_tries
    "(uid=bob)" None None None None Sample.world
  = (Raise UnboundLocalError, Sample.world).
Proof.
  refine (proj2 (proj2 (no_tries_no_attempt Sample.server_bob Sample.service_no_tries
                          "" "" "(uid=bob)" None None None None Sample.world _))).
  reflexivity.
Defined.

(** ** A server that is down, and the tries *)

Section retry_facts.
Context `{!Library} (srv : Server) (ds : DirectoryService).

Lemma remove_app_new {A} `{EqDecision A} (x : A) (l : list A) :
  ∃ l', Py.remove x (l ++ [x]) = Some l' ∧ length l' = length l.
Proof.
  destruct (Py.remove x (l ++ [x])) as [l'|] eqn:Hr.
  - exists l'. split; [done|]. apply remove_Some in Hr.
    apply Permutation_length in Hr. rewrite length_app in Hr. simpl in Hr. lia.
  - apply remove_None in Hr. destruct Hr. apply elem_of_app. right. left.
Qed.

Lemma count_line_app line l1 l2 :
  count_line line (l1 ++ l2) = count_line line l1 + count_line line l2.
Proof. unfold count_line. by rewrite filter_app, length_app. Qed.

Lemma authenticate_attempt_down dn password w :
  down_for srv dn password →
  can_connect (authPool w) →
  ∃ w' evs,
    with_Connection srv ds auth (authenticate_try srv dn password None) w
    = (Raise (LdapExc SERVER_DOWN), w')
    ∧ can_connect (authPool w')
    ∧ length (connections (authPool w')) = length (connections (authPool w))
    ∧ log w' = log w ++ evs
    ∧ count_line LogServerUnavailable evs = 0
    ∧ count_line LogRetrying evs = 0
    ∧ length (filter (λ ev, is_bind ev = true) evs) = 1.
Proof.
  intros (Hinit & Htls & Hbind) (Hcred & Hq & Hroom).
  unfold with_Connection, getConnection, _connect, _newConnection, authenticate_try,
    try_except_else, simple_bind_s, Connection___exit__, Connection_exit,
    failedConnection, getConnection_account, try_except,
    get_pool, put_pool, get_stats, put_stats, history, emit, emit_all, raise, hang,
    mbind, M_bind, mret, M_ret.
  simpl. rewrite Hq. simpl. rewrite decide_True by done. rewrite Hinit.
  destruct (_useTLS ds); simpl; rewrite ?Htls; simpl; rewrite Hcred; simpl.
  all: match goal with |- context [Py.index ?c (?l ++ [?c])] =>
         destruct (index_app_new (A:=handle) c l) as [i ->] end; simpl.
  all: rewrite Hbind; simpl.
  all: match goal with |- context [Py.remove ?c (?l ++ [?c])] =>
         destruct (remove_app_new (A:=handle) c l) as (l' & -> & Hlen) end; simpl.
  all: match goal with |- context [(?a <? ?b)%Z] =>
         destruct (Z.ltb_spec a b) as [Hlt|_] end.
  all: try (exfalso; revert Hlt; unfold active_now; simpl;
            rewrite Hq, length_app; simpl; lia).
  all: eexists _, _; split; [reflexivity|]; simpl.
  all: split_and!;
    [ unfold can_connect; simpl; split_and!; [done|done|lia]
    | done
    | rewrite <- !app_assoc; reflexivity
    | reflexivity
    | reflexivity
    | reflexivity ].
Qed.

Lemma authenticate_retry_down dn password :
  down_for srv dn password →
  ∀ remaining retryNumber w,
    remaining ≠ 0 →
    remaining + retryNumber = _tries ds →
    can_connect (authPool w) →
    ∃ w' evs,
      authenticate_retry srv ds remaining retryNumber dn password None w
      = (Raise (LDAPQueryError "LDAP server down" (LdapExc SERVER_DOWN)), w')
      ∧ can_connect (authPool w')
      ∧ length (connections (authPool w')) = length (connections (authPool w))
      ∧ log w' = log w ++ evs
      ∧ count_line LogServerUnavailable evs = remaining
      ∧ count_line LogRetrying evs = remaining - 1
      ∧ length (filter (λ ev, is_bind ev = true) evs) = remaining.
Proof.
  intros Hdown. induction remaining as [|remaining IH]; intros retryNumber w Hne Hsum Hpool;
    [done|].
  destruct (authenticate_attempt_down dn password w Hdown Hpool)
    as (w1 & evs1 & Htry & Hpool1 & Hlen1 & Hlog1 & Hu1 & Hr1 & Hb1).
  cbn [authenticate_retry testStats_retryNumber].
  unfold mbind at 1. unfold M_bind at 1. unfold mret at 1. unfold M_ret at 1.
  rewrite Htry. cbn [is_SERVER_DOWN].
  unfold log_line, emit, raise. unfold mbind at 1. unfold M_bind at 1.
  case_decide as Hlast.
  - assert (remaining = 0) as -> by lia.
    eexists _, (evs1 ++ [EvLog LogServerUnavailable]). split; [reflexivity|]. simpl.
    split_and!; try done.
    + by rewrite Hlog1, app_assoc.
    + rewrite count_line_app, Hu1. reflexivity.
    + rewrite count_line_app, Hr1. reflexivity.
    + rewrite filter_app, length_app, Hb1. reflexivity.
  - unfold mbind at 1. unfold M_bind at 1.
    set (w2 := mkWorld _ _ _ _).
    destruct (IH (S retryNumber) w2) as (w' & evs & Hrun & Hpool' & Hlen' & Hlog' & Hu & Hr & Hb).
    + lia.
    + lia.
    + done.
    + exists w', (evs1 ++ [EvLog LogServerUnavailable; EvLog LogRetrying] ++ evs).
      split; [exact Hrun|]. split_and!.
      * done.
      * by rewrite Hlen'.
      * rewrite Hlog'. subst w2. simpl. rewrite Hlog1.
        by rewrite <- !app_assoc.
      * rewrite !count_line_app, Hu1, Hu. reflexivity.
      * rewrite !count_line_app, Hr1, Hr. simpl.
        change (count_line LogRetrying [EvLog LogServerUnavailable; EvLog LogRetrying])
          with 1. lia.
      * rewrite !filter_app, !length_app, Hb1, Hb. reflexivity.
Qed.

(** A server that is down at every bind uses up the tries of a password
    check.  From an auth pool with nothing idle and room for a connection:
    the check makes [_tries] binds, each on a connection made for it and
    dropped from the pool when the bind fails; it logs the server as
    unavailable [_tries] times and a retry [_tries - 1] times; and it ends
    by raising [LDAPQueryError] around the last [ldap.SERVER_DOWN]. *)
Theorem server_down_uses_up_the_tries (dn password : string) (w : World) :
  down_for srv dn password →
  _tries ds ≠ 0 →
  can_connect (authPool w) →
  ∃ w' evs,
    _authenticateUsernamePassword_inThread srv ds dn password None w
    = (Raise (LDAPQueryError "LDAP server down" (LdapExc SERVER_DOWN)), w')
    ∧ log w' = log w ++ evs
    ∧ transientFailures evs = _tries ds
    ∧ retries evs = _tries ds - 1
    ∧ length (filter (λ ev, is_bind ev = true) evs) = _tries ds
    ∧ connectionQueue (authPool w') = []
    ∧ length (connections (authPool w')) = length (connections (authPool w)).
Proof.
  intros Hdown Htries Hpool.
  destruct (authenticate_retry_down dn password Hdown (_tries ds) 0 w)
    as (w' & evs & Hrun & Hpool' & Hlen & Hlog & Hu & Hr & Hb); [done|lia|done|].
  exists w', evs. split; [exact Hrun|]. split_and!; try done.
  by destruct Hpool' as (_ & ? & _).
Qed.

End retry_facts.

Lemma server_down_uses_up_the_tries_witness :
  ∃ w' evs,
    _authenticateUsernamePassword_inThread Sample.server_down Sample.service
      "uid=bob,ou=person,dc=example,dc=com" "secret" None Sample.world
    = (Raise (LDAPQueryError "LDAP server down" (LdapExc SERVER_DOWN)), w')
    ∧ log w' = log Sample.world ++ evs
    ∧ transientFailures evs = 3
    ∧ retries evs = 2.
Proof.
  destruct (server_down_uses_up_the_tries Sample.server_down Sample.service
              "uid=bob,ou=person,dc=example,dc=com" "secret" Sample.world)
    as (w' & evs & Hrun & Hlog & Hu & Hr & _).
  - split_and!; reflexivity.
  - discriminate.
  - split_and!; [reflexivity|reflexivity|simpl; lia].
  - exists w', evs. split; [exact Hrun|]. split; [exact Hlog|]. split; [exact Hu|exact Hr].
Defined.

Section retry_query_facts.
Context `{!Library} (srv : Server) (ds : DirectoryService).

(** A pool with room makes a connection for the caller. *)
Lemma getConnection_fresh k w :
  (∀ h, on_initialize srv h = None) →
  (∀ h, on_start_tls srv h = None) →
  can_connect (pool_of k w) →
  ∃ w1 evs,
    getConnection srv ds k w = (Ok (connectionsCreated (pool_of k w)), w1)
    ∧ log w1 = log w ++ evs
    ∧ Forall (λ ev, is_setup ev = true) evs
    ∧ credentials (pool_of k w1) = None
    ∧ connectionQueue (pool_of k w1) = []
    ∧ connections (pool_of k w1)
      = connections (pool_of k w) ++ [connectionsCreated (pool_of k w)]
    ∧ connectionMax (pool_of k w1) = connectionMax (pool_of k w).
Proof.
  intros Hinit Htls (Hcred & Hq & Hroom).
  unfold getConnection, _connect, _newConnection, getConnection_account,
    get_pool, put_pool, get_stats, put_stats, history, emit, emit_all, raise, hang,
    mbind, M_bind, mret, M_ret, pool_of in *.
  destruct k; simpl in *; rewrite Hq; simpl; rewrite decide_True by done;
    rewrite Hinit.
  all: destruct (_useTLS ds); simpl; rewrite ?Htls; simpl; rewrite Hcred; simpl.
  all: match goal with |- context [Py.index ?c (?l ++ [?c])] =>
         destruct (index_app_new (A:=handle) c l) as [i ->] end; simpl.
  all: match goal with |- context [(?a <? ?b)%Z] =>
         destruct (Z.ltb_spec a b) as [Hlt|_] end.
  all: try (exfalso; revert Hlt; unfold active_now; simpl;
            rewrite Hq, length_app; simpl; lia).
  all: eexists _, _; split; [reflexivity|]; simpl.
  all: split_and!;
    [ rewrite app_nil_r, <- ?app_assoc; reflexivity
    | repeat constructor | done | done | done | done ].
Qed.

(** Leaving the block with an exception drops the connection made for it. *)
Lemma Connection___exit___dropped {A} k w c e l :
  credentials (pool_of k w) = None →
  connectionQueue (pool_of k w) = [] →
  connections (pool_of k w) = l ++ [c] →
  length l < connectionMax (pool_of k w) →
  ∃ w', Connection___exit__ (A:=A) k c (Raise e) w = (Raise e, w')
        ∧ log w' = log w
        ∧ can_connect (pool_of k w')
        ∧ length (connections (pool_of k w')) = length l.
Proof.
  intros Hcred Hq Hconn Hroom.
  destruct (remove_app_new (A:=handle) c l) as (l' & Hl' & Hlen).
  unfold Connection___exit__, Connection_exit, failedConnection,
    get_pool, put_pool, get_stats, put_stats, raise,
    mbind, M_bind, mret, M_ret, pool_of, can_connect in *.
  destruct k; simpl in *; rewrite Hconn, Hl'; simpl.
  all: eexists; split; [reflexivity|]; simpl; split_and!; try done; lia.
Qed.

Lemma setup_events_count evs :
  Forall (λ ev, is_setup ev = true) evs →
  (∀ line, count_line line evs = 0)
  ∧ filter (λ ev, is_search ev = true) evs = []
  ∧ filter (λ ev, is_bind ev = true) evs = [].
Proof.
  induction 1 as [|ev evs Hev _ (IH1 & IH2 & IH3)]; [done|].
  destruct ev; try discriminate Hev.
  all: split_and!;
    [ intros line; unfold count_line in *; rewrite filter_cons_False by done; apply IH1
    | rewrite filter_cons_False by done; apply IH2
    | rewrite filter_cons_False by done; apply IH3 ].
Qed.

Lemma recordWithDN_attempt_down dn w :
  down_for_searches srv →
  can_connect (queryPool w) →
  ∃ w' evs,
    with_Connection srv ds query (recordWithDN_try srv ds dn) w
    = (Raise (LdapExc SERVER_DOWN), w')
    ∧ can_connect (queryPool w')
    ∧ length (connections (queryPool w')) = length (connections (queryPool w))
    ∧ log w' = log w ++ evs
    ∧ count_line LogServerUnavailable evs = 0
    ∧ count_line LogRetrying evs = 0
    ∧ length (filter (λ ev, is_search ev = true) evs) = 1.
Proof.
  intros (Hinit & Htls & _ & Hdown) Hpool.
  destruct (getConnection_fresh query w Hinit Htls Hpool)
    as (w1 & pre & Hget & Hlog1 & Hpre & Hcred & Hq & Hconn & Hmax).
  change (pool_of query w) with (queryPool w) in *.
  change (pool_of query w1) with (queryPool w1) in *.
  destruct (setup_events_count pre Hpre) as (Hc & Hs & _).
  assert (recordWithDN_try srv ds dn (connectionsCreated (queryPool w)) w1
          = (Raise (LdapExc SERVER_DOWN),
             append_log [EvSearchDN (connectionsCreated (queryPool w)) dn] w1)) as Htry.
  { unfold recordWithDN_try, history, emit, raise, mbind, M_bind. simpl.
    by rewrite Hdown. }
  rewrite (with_Connection_Ok _ _ _ _ _ _ _ _ _ Hget Htry).
  destruct Hpool as (_ & _ & Hroom).
  destruct (Connection___exit___dropped (A:=list DirectoryRecord) query
              (append_log [EvSearchDN (connectionsCreated (queryPool w)) dn] w1)
              (connectionsCreated (queryPool w)) (LdapExc SERVER_DOWN)
              (connections (queryPool w)))
    as (w' & -> & Hlog & Hpool' & Hlen); try done.
  { simpl in *. lia. }
  eexists w', _. split; [reflexivity|]. split_and!.
  - done.
  - done.
  - rewrite Hlog. simpl. rewrite Hlog1. by rewrite <- app_assoc.
  - rewrite count_line_app, Hc. reflexivity.
  - rewrite count_line_app, Hc. reflexivity.
  - rewrite filter_app, Hs. reflexivity.
Qed.

Lemma recordWithDN_retry_down dn :
  down_for_searches srv →
  ∀ remaining retryNumber records w,
    remaining ≠ 0 →
    remaining + retryNumber = _tries ds →
    can_connect (queryPool w) →
    ∃ w' evs,
      recordWithDN_retry srv ds remaining retryNumber dn None records w
      = (Raise (LDAPQueryError "LDAP server down" (LdapExc SERVER_DOWN)), w')
      ∧ can_connect (queryPool w')
      ∧ length (connections (queryPool w')) = length (connections (queryPool w))
      ∧ log w' = log w ++ evs
      ∧ count_line LogServerUnavailable evs = remaining
      ∧ count_line LogRetrying evs = remaining - 1
      ∧ length (filter (λ ev, is_search ev = true) evs) = remaining.
Proof.
  intros Hdown. induction remaining as [|remaining IH];
    intros retryNumber records w Hne Hsum Hpool; [done|].
  destruct (recordWithDN_attempt_down dn w Hdown Hpool)
    as (w1 & evs1 & Htry & Hpool1 & Hlen1 & Hlog1 & Hu1 & Hr1 & Hb1).
  cbn [recordWithDN_retry testStats_retryNumber].
  unfold mbind at 1. unfold M_bind at 1. unfold mret at 1. unfold M_ret at 1.
  rewrite Htry. cbn [is_SERVER_DOWN].
  unfold log_line, emit, raise. unfold mbind at 1. unfold M_bind at 1.
  case_decide as Hlast.
  - assert (remaining = 0) as -> by lia.
    eexists _, (evs1 ++ [EvLog LogServerUnavailable]). split; [reflexivity|]. simpl.
    split_and!; try done.
    + by rewrite Hlog1, app_assoc.
    + rewrite count_line_app, Hu1. reflexivity.
    + rewrite count_line_app, Hr1. reflexivity.
    + rewrite filter_app, length_app, Hb1. reflexivity.
  - unfold mbind at 1. unfold M_bind at 1.
    set (w2 := mkWorld _ _ _ _).
    destruct (IH (S retryNumber) records w2)
      as (w' & evs & Hrun & Hpool' & Hlen' & Hlog' & Hu & Hr & Hb).
    + lia.
    + lia.
    + done.
    + exists w', (evs1 ++ [EvLog LogServerUnavailable; EvLog LogRetrying] ++ evs).
      split; [exact Hrun|]. split_and!.
      * done.
      * by rewrite Hlen'.
      * rewrite Hlog'. subst w2. simpl. rewrite Hlog1.
        by rewrite <- !app_assoc.
      * rewrite !count_line_app, Hu1, Hu. reflexivity.
      * rewrite !count_line_app, Hr1, Hr. simpl.
        change (count_line LogRetrying [EvLog LogServerUnavailable; EvLog LogRetrying])
          with 1. lia.
      * rewrite !filter_app, !length_app, Hb1, Hb. reflexivity.
Qed.

(** A server that is down at every search uses up the tries of a lookup
    by DN.  From a query pool that binds as nobody, with nothing idle and
    room for a connection: the lookup sends [_tries] searches, each on a
    connection made for it and dropped from the pool when the search fails;
    it logs the server as unavailable [_tries] times and a retry
    [_tries - 1] times; and it ends by raising [LDAPQueryError] around the
    last [ldap.SERVER_DOWN]. *)
Theorem server_down_uses_up_the_lookup_tries (dn : string) (w : World) :
  down_for_searches srv →
  _tries ds ≠ 0 →
  can_connect (queryPool w) →
  ∃ w' evs,
    _recordWithDN_inThread srv ds dn None w
    = (Raise (LDAPQueryError "LDAP server down" (LdapExc SERVER_DOWN)), w')
    ∧ log w' = log w ++ evs
    ∧ transientFailures evs = _tries ds
    ∧ retries evs = _tries ds - 1
    ∧ length (filter (λ ev, is_search ev = true) evs) = _tries ds
    ∧ connectionQueue (queryPool w') = []
    ∧ length (connections (queryPool w')) = length (connections (queryPool w)).
Proof.
  intros Hdown Htries Hpool.
  destruct (recordWithDN_retry_down dn Hdown (_tries ds) 0 [] w)
    as (w' & evs & Hrun & Hpool' & Hlen & Hlog & Hu & Hr & Hb); [done|lia|done|].
  exists w', evs. split; [exact Hrun|]. split_and!; try done.
  by destruct Hpool' as (_ & ? & _).
Qed.

Lemma first_search_down c queryString timeoutSeconds recordType schema rest
    limitResults w :
  down_for_searches srv →
  match limitResults with Some l => (1 ≤ l)%Z | None => True end →
  assoc recordType (_recordTypeSchemas ds) = Some schema →
  is_Some (str2dn (Py.lower (relativeDN schema))) →
  is_Some (str2dn (Py.lower (_baseDN ds))) →
  ∃ ev,
    is_search ev = true
    ∧ query_recordTypes srv ds c queryString timeoutSeconds (Some recordType :: rest)
        limitResults [] w
      = ((limitResults, [], Raise (LdapExc SERVER_DOWN)), append_log [ev] w).
Proof.
  intros (_ & _ & Hdown & _) Hlimit Hschema [rdn Hrdn] [base Hbase].
  cbn [query_recordTypes].
  assert (match limitResults with
          | Some l => bool_decide (l < 1)%Z
          | None => false
          end = false) as ->.
  { destruct limitResults as [l|]; [|done]. apply bool_decide_eq_false. lia. }
  simpl. rewrite Hschema. simpl. rewrite Hrdn, Hbase. rewrite Hdown.
  eexists (EvSearch _ _ _ _ _). split; [reflexivity|]. reflexivity.
Qed.

Lemma query_retry_down queryString timeoutSeconds recordType schema rest limitResults :
  down_for_searches srv →
  match limitResults with Some l => (1 ≤ l)%Z | None => True end →
  assoc recordType (_recordTypeSchemas ds) = Some schema →
  is_Some (str2dn (Py.lower (relativeDN schema))) →
  is_Some (str2dn (Py.lower (_baseDN ds))) →
  ∀ remaining retryNumber records w,
    remaining ≠ 0 →
    remaining + retryNumber = _tries ds →
    can_connect (queryPool w) →
    ∃ w' evs,
      query_retry srv ds remaining retryNumber queryString (Some recordType :: rest)
        timeoutSeconds None limitResults records w
      = (Raise (LDAPQueryError "LDAP server down" (LdapExc SERVER_DOWN)), w')
      ∧ can_connect (queryPool w')
      ∧ length (connections (queryPool w')) = length (connections (queryPool w))
      ∧ log w' = log w ++ evs
      ∧ count_line LogServerUnavailable evs = remaining
      ∧ count_line LogRetrying evs = remaining - 1
      ∧ length (filter (λ ev, is_search ev = true) evs) = remaining.
Proof.
  intros Hdown Hlimit Hschema Hrdn Hbase.
  induction remaining as [|remaining IH];
    intros retryNumber records w Hne Hsum Hpool; [done|].
  destruct Hdown as (Hinit & Htls & Hsearch & Hs_s).
  destruct (getConnection_fresh query w Hinit Htls Hpool)
    as (w1 & pre & Hget & Hlog1 & Hpre & Hcred & Hq & Hconn & Hmax).
  change (pool_of query w) with (queryPool w) in *.
  change (pool_of query w1) with (queryPool w1) in *.
  destruct (setup_events_count pre Hpre) as (Hc & Hs & _).
  destruct (first_search_down (connectionsCreated (queryPool w)) queryString
              timeoutSeconds recordType schema rest limitResults w1)
    as (ev & Hev & Hfirst); try done.
  destruct Hpool as (_ & _ & Hroom).
  destruct (Connection___exit___dropped (A:=unit) query (append_log [ev] w1)
              (connectionsCreated (queryPool w)) (LdapExc SERVER_DOWN)
              (connections (queryPool w)))
    as (w2 & Hexit & Hlog2 & Hpool2 & Hlen2); try done.
  { simpl in *. lia. }
  change (pool_of query w2) with (queryPool w2) in *.
  cbn [query_retry testStats_retryNumber]. simpl snd.
  change ((mret () : M unit) w).2 with w.
  rewrite Hget, Hfirst, Hexit. cbn [is_SERVER_DOWN].
  case_decide as Hlast.
  - assert (remaining = 0) as -> by lia.
    eexists _, (pre ++ [ev] ++ [EvLog LogServerUnavailable]).
    split; [reflexivity|]. simpl. split_and!; try done.
    + rewrite Hlog2. simpl. rewrite Hlog1. by rewrite <- !app_assoc.
    + rewrite !count_line_app, Hc. destruct ev; try discriminate Hev; reflexivity.
    + rewrite !count_line_app, Hc. destruct ev; try discriminate Hev; reflexivity.
    + rewrite !filter_app, Hs. simpl. rewrite filter_cons_True by done. reflexivity.
  - set (w3 := append_log [EvLog LogRetrying] _).
    destruct (IH (S retryNumber) (Some []) w3)
      as (w' & evs & Hrun & Hpool' & Hlen' & Hlog' & Hu & Hr & Hb).
    + lia.
    + lia.
    + done.
    + exists w', (pre ++ [ev] ++ [EvLog LogServerUnavailable; EvLog LogRetrying] ++ evs).
      split; [exact Hrun|]. split_and!.
      * done.
      * rewrite Hlen'. subst w3. simpl. done.
      * rewrite Hlog'. subst w3. simpl. rewrite Hlog2. simpl. rewrite Hlog1.
        by rewrite <- !app_assoc.
      * rewrite !count_line_app, Hc, Hu.
        destruct ev; try discriminate Hev; reflexivity.
      * rewrite !count_line_app, Hc, Hr.
        change (count_line LogRetrying [EvLog LogServerUnavailable; EvLog LogRetrying])
          with 1.
        destruct ev; try discriminate Hev; simpl; lia.
      * rewrite !filter_app, !length_app, Hs, Hb. simpl.
        rewrite filter_cons_True by done. reflexivity.
Qed.

(** A server that is down at every search uses up the tries of a query.
    For a query whose first record type has a schema, with no limit or a
    limit of at least one, from a query pool that binds as nobody, with
    nothing idle and room for a connection: the query sends [_tries]
    searches, all for that first record type, each on a connection made
    for it and dropped from the pool when the search fails; it logs the
    server as unavailable [_tries] times and a retry [_tries - 1] times;
    and it ends by raising [LDAPQueryError] around the last
    [ldap.SERVER_DOWN]. *)
Theorem server_down_uses_up_the_query_tries (queryString recordType : string)
    (schema : RecordTypeSchema) (rest : list (option string))
    (limitResults timeoutSeconds : option Z) (w : World) :
  down_for_searches srv →
  match limitResults with Some l => (1 ≤ l)%Z | None => True end →
  assoc recordType (_recordTypeSchemas ds) = Some schema →
  is_Some (str2dn (Py.lower (relativeDN schema))) →
  is_Some (str2dn (Py.lower (_baseDN ds))) →
  _tries ds ≠ 0 →
  can_connect (queryPool w) →
  ∃ w' evs,
    _recordsFromQueryString_inThread srv ds queryString (Some (Some recordType :: rest))
      limitResults timeoutSeconds None w
    = (Raise (LDAPQueryError "LDAP server down" (LdapExc SERVER_DOWN)), w')
    ∧ log w' = log w ++ evs
    ∧ transientFailures evs = _tries ds
    ∧ retries evs = _tries ds - 1
    ∧ length (filter (λ ev, is_search ev = true) evs) = _tries ds
    ∧ connectionQueue (queryPool w') = []
    ∧ length (connections (queryPool w')) = length (connections (queryPool w)).
Proof.
  intros Hdown Hlimit Hschema Hrdn Hbase Htries Hpool.
  destruct (query_retry_down queryString timeoutSeconds recordType schema rest
              limitResults Hdown Hlimit Hschema Hrdn Hbase (_tries ds) 0 None w)
    as (w' & evs & Hrun & Hpool' & Hlen & Hlog & Hu & Hr & Hb); [done|lia|done|].
  exists w', evs. split; [exact Hrun|]. split_and!; try done.
  by destruct Hpool' as (_ & ? & _).
Qed.

End retry_query_facts.

Lemma down_for_searches_server_down : down_for_searches Sample.server_down.
Proof. split_and!; reflexivity. Qed.

Lemma server_down_uses_up_the_lookup_tries_witness :
  ∃ w' evs,
    _recordWithDN_inThread Sample.server_down Sample.service
      "uid=bob,ou=person,dc=example,dc=com" None Sample.world
    = (Raise (LDAPQueryError "LDAP server down" (LdapExc SERVER_DOWN)), w')
    ∧ log w' = log Sample.world ++ evs
    ∧ transientFailures evs = 3
    ∧ retries evs = 2.
Proof.
  destruct (server_down_uses_up_the_lookup_tries Sample.server_down Sample.service
              "uid=bob,ou=person,dc=example,dc=com" Sample.world)
    as (w' & evs & Hrun & Hlog & Hu & Hr & _).
  - exact down_for_searches_server_down.
  - discriminate.
  - split_and!; [reflexivity|reflexivity|simpl; lia].
  - exists w', evs. split; [exact Hrun|]. split; [exact Hlog|]. split; [exact Hu|exact Hr].
Defined.

Lemma server_down_uses_up_the_query_tries_witness :
  ∃ w' evs,
    _recordsFromQueryString_inThread Sample.server_down Sample.service "(uid=bob)"
      (Some [Some "user"; Some "group"]) (Some 10%Z) None None Sample.world
    = (Raise (LDAPQueryError "LDAP server down" (LdapExc SERVER_DOWN)), w')
    ∧ log w' = log Sample.world ++ evs
    ∧ transientFailures evs = 3
    ∧ retries evs = 2.
Proof.
  destruct (server_down_uses_up_the_query_tries Sample.server_down Sample.service
              "(uid=bob)" "user" Sample.user_schema [Some "group"] (Some 10%Z) None
              Sample.world)
    as (w' & evs & Hrun & Hlog & Hu & Hr & _).
  - exact down_for_searches_server_down.
  - simpl. lia.
  - reflexivity.
  - eexists. vm_compute. reflexivity.
  - eexists. vm_compute. reflexivity.
  - discriminate.
  - split_and!; [reflexivity|reflexivity|simpl; lia].
  - exists w', evs. split; [exact Hrun|]. split; [exact Hlog|]. split; [exact Hu|exact Hr].
Defined.
